(** * Bubble AI: the autonomous agent core and the display-time tag parser

    A shallow embedding of

    - [generateContentStreamWithRetry] and [runAutonomousAgent]
      (the orchestration file of the autonomous agent), and
    - [parseMessageContent] (src/components/chat/ChatMessage.tsx),

    together with the properties of the retry wrapper, of the
    orchestration loop, of redirect detection and of display-time
    extraction.

    Conventions.  A JavaScript string is a sequence of UTF-16 code units,
    so it is modelled as a list of [N]; [lit] turns an ASCII literal into
    such a list.  Asynchronous code is sequential here (every call is
    awaited), so it is modelled by explicit state passing in a small
    state-and-exception monad: the state holds the local variables of
    [runAutonomousAgent] and a log of what the turn did to the outside
    world.  The collaborators (router, memory store, generation service,
    research, image and canvas services) are fields of the record [Env];
    each call to one of them either returns or raises.

    What is taken for granted: the constructors of the clients, the sink
    [onStreamChunk], [console] and [getUserFriendlyError] return
    normally; [incrementThinkingCount] swallows its own failures (as its
    source shows); a response stream is finite; the retry ceiling is an
    integer and the delays are computed exactly. *)

From Stdlib Require Import ZArith NArith String Ascii List Lia Bool.
From Stdlib Require Import DecimalString.
From stdpp Require Import base list.
Import ListNotations.

Local Open Scope N_scope.

(* ================================================================== *)
(** * JavaScript strings *)
(* ================================================================== *)

Module Js.

(** A string is its sequence of UTF-16 code units. *)
Abbreviation jsstring := (list N).

(** An ASCII literal of the source. *)
Definition lit (s : string) : jsstring :=
  map N_of_ascii (list_ascii_of_string s).

(** The line feed, written [\n] in the source. *)
Definition nl : jsstring := [10].

(** ECMAScript LineTerminator: LF, CR, LS, PS.  The regular expression
    atom [.] (without the [s] flag) matches everything else. *)
Definition is_line_terminator (c : N) : bool :=
  (c =? 10) || (c =? 13) || (c =? 8232) || (c =? 8233).

Definition dot (c : N) : bool := negb (is_line_terminator c).

(** The class [[\s\S]]: every code unit. *)
Definition any (c : N) : bool := true.

(** ECMAScript WhiteSpace and LineTerminator: what [\s] matches and what
    [String.prototype.trim] strips. *)
Definition is_space (c : N) : bool :=
  (c =? 9) || (c =? 11) || (c =? 12) || (c =? 32) || (c =? 160)
  || (c =? 5760) || ((8192 <=? c) && (c <=? 8202))
  || (c =? 8239) || (c =? 8287) || (c =? 12288) || (c =? 65279)
  || is_line_terminator c.

(** The class [\w]: [A-Za-z0-9_]. *)
Definition is_word (c : N) : bool :=
  ((65 <=? c) && (c <=? 90)) || ((97 <=? c) && (c <=? 122))
  || ((48 <=? c) && (c <=? 57)) || (c =? 95).

(** Canonicalize of a regular expression with the [i] flag and without
    the [u] flag: the code unit is upper-cased, except that a code unit
    of 128 or more is never mapped below 128.  Every pattern of this
    program is ASCII, so only the ASCII part of the mapping can decide
    a comparison; code units of 128 or more are left as they are. *)
Definition canonicalize (c : N) : N :=
  if (97 <=? c) && (c <=? 122) then c - 32 else c.

(** Comparison of a pattern character with an input character. *)
Definition cs_eq (p c : N) : bool := p =? c.
Definition ci_eq (p c : N) : bool := canonicalize p =? canonicalize c.

(** [pat] matches at the head of [s]. *)
Fixpoint starts_with (eq : N -> N -> bool) (pat s : jsstring) : bool :=
  match pat, s with
  | [], _ => true
  | p :: pat', c :: s' => eq p c && starts_with eq pat' s'
  | _ :: _, [] => false
  end.

(** ** Regular expressions as positional matchers

    A regular expression is modelled by what it does at one start
    position: given the input from that position on, the length of the
    match and what it captured ([G] is [jsstring] for an expression with
    one capture group, [unit] for an expression without). *)
Definition Matcher (G : Type) : Type := jsstring -> option (nat * G).

(** [(C*?)(?:closer)] and [(C*?)(?:closer|$)]: the lazy star first tries
    the closer (then, with [or_end], the end of input) and only then
    consumes one more character of class [cls]. Returns the length
    consumed, closer included, and the text taken by the star. *)
Fixpoint lazy_until (cls : N -> bool) (eq : N -> N -> bool)
    (closer : jsstring) (or_end : bool) (s : jsstring)
    : option (nat * jsstring) :=
  if starts_with eq closer s then Some (length closer, [])
  else
    match s with
    | [] => if or_end then Some (0%nat, []) else None
    | c :: s' =>
        if cls c then
          match lazy_until cls eq closer or_end s' with
          | Some (n, g) => Some (S n, c :: g)
          | None => None
          end
        else None
    end.

(** [\s*] followed by the continuation [k]: greedy, and giving
    characters back one at a time when [k] fails. *)
Fixpoint ws_star {R} (k : jsstring -> option (nat * R)) (s : jsstring)
    : option (nat * R) :=
  match s with
  | c :: s' =>
      if is_space c then
        match ws_star k s' with
        | Some (n, r) => Some (S n, r)
        | None => k s
        end
      else k s
  | [] => k s
  end.

(** [\s+] followed by [k]. *)
Definition ws_plus {R} (k : jsstring -> option (nat * R)) (s : jsstring)
    : option (nat * R) :=
  match s with
  | c :: s' =>
      if is_space c then
        match ws_star k s' with
        | Some (n, r) => Some (S n, r)
        | None => None
        end
      else None
  | [] => None
  end.

(** [/opener(C*?)closer/] with the comparison [eq] of the flags. *)
Definition re_block (cls : N -> bool) (eq : N -> N -> bool)
    (opener closer : jsstring) (or_end : bool) : Matcher jsstring := fun s =>
  if starts_with eq opener s then
    match lazy_until cls eq closer or_end (drop (length opener) s) with
    | Some (n, g) => Some ((length opener + n)%nat, g)
    | None => None
    end
  else None.

(** [/opener\s+(.*?)closer/i]. *)
Definition re_block_ws (opener closer : jsstring) : Matcher jsstring := fun s =>
  if starts_with ci_eq opener s then
    match ws_plus (lazy_until dot ci_eq closer false)
                  (drop (length opener) s) with
    | Some (n, g) => Some ((length opener + n)%nat, g)
    | None => None
    end
  else None.

(** [/word/]: a literal, no capture group. *)
Definition re_lit (eq : N -> N -> bool) (word : jsstring) : Matcher unit :=
  fun s => if starts_with eq word s then Some (length word, tt) else None.

(** [/opener[\s\S]*/i]: from the opener to the end of the input. *)
Definition re_open_to_end (opener : jsstring) : Matcher unit := fun s =>
  if starts_with ci_eq opener s then Some (length s, tt) else None.

(** The first match of a regular expression without the [g] flag: the
    start positions are tried from left to right.  Returns the index,
    the length and capture group 1. *)
Fixpoint exec {G} (m : Matcher G) (s : jsstring) : option (nat * nat * G) :=
  match m s with
  | Some (n, g) => Some (0%nat, n, g)
  | None =>
      match s with
      | [] => None
      | _ :: s' =>
          match exec m s' with
          | Some (i, n, g) => Some (S i, n, g)
          | None => None
          end
      end
  end.

(** [s.match(re)] for a non-global [re]: [None] is [null]; otherwise
    what the first match captured. *)
Definition str_match {G} (m : Matcher G) (s : jsstring) : option G :=
  match exec m s with
  | Some (_, _, g) => Some g
  | None => None
  end.

(** [s.replace(re, '')] for a non-global [re]. *)
Definition replace_first {G} (m : Matcher G) (s : jsstring) : jsstring :=
  match exec m s with
  | Some (i, n, _) => take i s ++ drop (i + n) s
  | None => s
  end.

(** [s.replace(re, '')] for [re] with the [g] flag: the matches are
    found from left to right, each search starting where the previous
    match ended; [skip] counts the characters of the current match that
    are still to be dropped.  (An empty match removes nothing and the
    search moves on by one character.) *)
Fixpoint replace_all_from {G} (m : Matcher G) (skip : nat) (s : jsstring)
    : jsstring :=
  match s with
  | [] => []
  | c :: s' =>
      match skip with
      | S k => replace_all_from m k s'
      | O =>
          match m s with
          | Some (S k, _) => replace_all_from m k s'
          | _ => c :: replace_all_from m 0 s'
          end
      end
  end.

Definition replace_all {G} (m : Matcher G) (s : jsstring) : jsstring :=
  replace_all_from m 0 s.

(** [s.replace(/^.../, '')]: an expression anchored at the start is
    tried at index 0 only. *)
Definition replace_at_start {G} (m : Matcher G) (s : jsstring) : jsstring :=
  match m s with
  | Some (n, _) => drop n s
  | None => s
  end.

(** [s.trim()]. *)
Fixpoint trim_start (s : jsstring) : jsstring :=
  match s with
  | c :: s' => if is_space c then trim_start s' else s
  | [] => []
  end.

Definition trim (s : jsstring) : jsstring :=
  rev (trim_start (rev (trim_start s))).

(** A string in a condition: only the empty string is falsy. *)
Definition truthy (s : jsstring) : bool :=
  match s with [] => false | _ :: _ => true end.

(** [s.includes(word)]. *)
Definition includes (word s : jsstring) : bool :=
  match exec (re_lit cs_eq word) s with
  | Some _ => true
  | None => false
  end.

(** [arr.join(sep)] on strings. *)
Fixpoint join (sep : jsstring) (l : list jsstring) : jsstring :=
  match l with
  | [] => []
  | [x] => x
  | x :: l' => x ++ sep ++ join sep l'
  end.

(** The decimal numeral of a non-negative integer, as template literals
    print it. *)
Definition decimal (z : Z) : jsstring :=
  lit (NilZero.string_of_uint (N.to_uint (Z.to_N z))).

End Js.
Import Js.


(* ================================================================== *)
(** * Display-time extraction: [parseMessageContent] *)
(* ================================================================== *)

Module Display.

Record Parsed := {
  thinking : option jsstring;
  canvas : option jsstring;
  clean : jsstring
}.

(** [/<NAME>[\s\S]*?<\/NAME>/gi] *)
Definition re_paired (opener closer : string) : Matcher jsstring :=
  re_block any ci_eq (lit opener) (lit closer) false.

(** [/<NAME>([\s\S]*?)(?:<\/NAME>|$)/i] *)
Definition re_paired_or_end (opener closer : string) : Matcher jsstring :=
  re_block any ci_eq (lit opener) (lit closer) true.

(** The length of the greedy [\w*] at the head of [s]. *)
Fixpoint word_run (s : jsstring) : nat :=
  match s with
  | c :: s' => if is_word c then S (word_run s') else O
  | [] => O
  end.

(** [/^```\w*\n?/]: the three quantified parts are greedy and none can
    make the rest fail, so nothing is ever given back. *)
Definition re_fence_open : Matcher unit := fun s =>
  if starts_with cs_eq (lit "```") s then
    let rest := drop 3 s in
    let w := word_run rest in
    let n := match drop w rest with
             | c :: _ => if c =? 10 then 1%nat else 0%nat
             | [] => 0%nat
             end in
    Some ((3 + w + n)%nat, tt)
  else None.

(** [/```$/]: three backquotes that end the input. *)
Definition re_fence_close : Matcher unit := fun s =>
  if starts_with cs_eq (lit "```") s && (length s =? 3)%nat
  then Some (3%nat, tt) else None.

(** The chain of replacements that computes [clean], before the final
    [trim]; the order is that of the source. *)
Definition strip_markers (content : jsstring) : jsstring :=
  let s := replace_all (re_paired "<THINK>" "</THINK>") content in
  let s := replace_all (re_open_to_end (lit "<THINK>")) s in
  let s := replace_all (re_paired "<CANVAS>" "</CANVAS>") s in
  let s := replace_all (re_open_to_end (lit "<CANVAS>")) s in
  let s := replace_all (re_paired "<MEMORY>" "</MEMORY>") s in
  let s := replace_all (re_paired "<IMAGE>" "</IMAGE>") s in
  let s := replace_all (re_paired "<SEARCH>" "</SEARCH>") s in
  let s := replace_all (re_paired "<PROJECT>" "</PROJECT>") s in
  let s := replace_all (re_paired "<STUDY>" "</STUDY>") s in
  replace_all (re_paired "<DEEP>" "</DEEP>") s.

Definition parseMessageContent (content : jsstring) : Parsed :=
  if negb (truthy content) then
    {| thinking := None; canvas := None; clean := [] |}
  else
    let thinkMatch := str_match (re_paired_or_end "<THINK>" "</THINK>") content in
    let thinking := option_map trim thinkMatch in
    let canvasMatch :=
      str_match (re_paired_or_end "<CANVAS>" "</CANVAS>") content in
    let canvas := option_map trim canvasMatch in
    let canvas :=
      match canvas with
      | Some c =>
          if truthy c then
            Some (trim (replace_first re_fence_close
                          (replace_at_start re_fence_open c)))
          else Some c
      | None => None
      end in
    {| thinking := thinking; canvas := canvas;
       clean := trim (strip_markers content) |}.

End Display.


(* ================================================================== *)
(** * The agent: data model *)
(* ================================================================== *)

Local Open Scope Z_scope.

(** What a [throw] carries.  [JsError] is an instance of [Error] (it
    always has a [message]); [JsValue] is any other thrown value.
    [status] is the [status] property, when it is a number. *)
Inductive Thrown :=
| JsError (status : option Z) (message : jsstring)
| JsValue (status : option Z) (message : option jsstring).

Definition thrown_status (e : Thrown) : option Z :=
  match e with JsError s _ | JsValue s _ => s end.

Definition thrown_message (e : Thrown) : option jsstring :=
  match e with JsError _ m => Some m | JsValue _ m => m end.

(** The result of awaiting a call: a value, or an exception. *)
Inductive Outcome (A : Type) :=
| Returned (a : A)
| Raised (e : Thrown).
Arguments Returned {A} a.
Arguments Raised {A} e.

(** [RouterAction] of the semantic router.  The [switch] of the loop
    sends [SIMPLE] and every value it does not name to the same case. *)
Inductive RouterAction :=
| SEARCH | DEEP_SEARCH | THINK | IMAGE | CANVAS | PROJECT | STUDY | SIMPLE.

Definition RouterAction_eqb (a b : RouterAction) : bool :=
  match a, b with
  | SEARCH, SEARCH | DEEP_SEARCH, DEEP_SEARCH | THINK, THINK
  | IMAGE, IMAGE | CANVAS, CANVAS | PROJECT, PROJECT
  | STUDY, STUDY | SIMPLE, SIMPLE => true
  | _, _ => false
  end.

(** [routing]: the action, and [routing.parameters?.prompt]. *)
Record Routing := {
  action : RouterAction;
  parameters_prompt : option jsstring
}.

(** A grounding chunk (a citation); the agent never looks inside. *)
Record GroundingChunk := {
  web_uri : jsstring;
  web_title : jsstring
}.

(** A chunk of a response stream: [chunk.text] and
    [chunk.candidates?.[0]?.groundingMetadata?.groundingChunks], each
    [None] when it is [undefined]. *)
Record Chunk := {
  chunk_text : option jsstring;
  chunk_grounding : option (list GroundingChunk)
}.

(** A response stream: the chunks it yields and, when the iteration
    itself fails after them, the exception. *)
Record Stream := {
  stream_chunks : list Chunk;
  stream_failure : option Thrown
}.

(** The request sent to the generation service. *)
Inductive Role := RoleUser | RoleModel.

Inductive Part :=
| TextPart (t : jsstring)
| InlineData (data : option jsstring) (mimeType : jsstring).

Record Content := { role : Role; parts : list Part }.

Inductive Contents :=
| ContentsText (t : jsstring)
| ContentsList (l : list Content).

Record GenerateParams := {
  model : jsstring;
  contents : Contents;
  systemInstruction : option jsstring;
  googleSearch : bool;
  thinkingBudget : option Z;
  responseMimeType : option jsstring
}.

Record ResearchResult := { answer : jsstring; sources : list jsstring }.

(** A message of the canvas agent's result; only [text] is read. *)
Record CanvasMessage := { canvas_text : option jsstring }.

Record HistoryMessage := { history_sender : jsstring; history_text : jsstring }.

(** An attached file: its MIME type and what [FileReader.readAsDataURL]
    produces for it. *)
Record AttachedFile := {
  file_type : jsstring;
  file_dataURL : Outcome jsstring
}.

(** The fields of [AgentInput] that the function reads.  [files] is
    empty when the field is absent; [has_sink] says whether
    [onStreamChunk] is present. *)
Record AgentInput := {
  prompt : jsstring;
  files : list AttachedFile;
  project_id_of : jsstring;
  chat_id_of : jsstring;
  user_id : jsstring;
  history : list HistoryMessage;
  has_sink : bool
}.

(** A message of the result.  [image_base64] and [groundingMetadata] are
    [None] when the object has no such key. *)
Record Message := {
  project_id : jsstring;
  chat_id : jsstring;
  sender : jsstring;
  text : jsstring;
  image_base64 : option jsstring;
  groundingMetadata : option (list GroundingChunk)
}.

Record AgentExecutionResult := { messages : list Message }.

(** The collaborators of a turn.  The generation service is asked by
    the number of the call as well as by the request, so that it may
    answer the same request differently each time. *)
Record Env := {
  autonomousInstruction : jsstring;
  formatTimestamp : jsstring;
  route : jsstring -> jsstring -> nat -> Outcome Routing;
  (** [memory.getContext(...)], as [JSON.stringify] prints it *)
  getContext : Outcome jsstring;
  generateContentStream : nat -> GenerateParams -> Outcome Stream;
  (** [ai.models.generateContent(...)]: [response.text] *)
  generateContent : GenerateParams -> Outcome (option jsstring);
  (** progress messages passed to the callback, then the result *)
  deepResearch : jsstring -> list jsstring * Outcome ResearchResult;
  generateImage : jsstring -> Outcome jsstring;
  (** chunks the canvas agent streams to the sink, then its messages *)
  runCanvasAgent : jsstring -> list jsstring * Outcome (list CanvasMessage);
  getUserFriendlyError : Thrown -> jsstring
}.

(** What a turn does to the outside world, in order, with two kinds of
    bookkeeping entries: [EvDispatch] marks the [switch] of one loop
    iteration, [EvText] marks one assignment to [finalResponseText]. *)
Inductive Event :=
| EvSink (chunk : jsstring)
| EvImageStart (text_so_far : jsstring)
| EvAttempt (call : nat) (params : GenerateParams)
| EvWarn (delay : Z)
| EvSleep (delay : Z)
| EvIncrementThinkingCount
| EvDispatch (a : RouterAction) (p : jsstring)
| EvText (handler : RouterAction) (old new : jsstring)
| EvConsoleError (e : Thrown).

(** The local variables of [runAutonomousAgent], the number of calls
    made to the generation service, and the log. *)
Record State := {
  finalResponseText : jsstring;
  metadataPayload : option (list GroundingChunk);
  currentAction : RouterAction;
  currentPrompt : jsstring;
  loopCount : nat;
  routing_parameters : option jsstring;
  calls : nat;
  log : list Event
}.

Definition set_finalResponseText (v : jsstring) (st : State) : State :=
  {| finalResponseText := v; metadataPayload := metadataPayload st;
     currentAction := currentAction st; currentPrompt := currentPrompt st;
     loopCount := loopCount st; routing_parameters := routing_parameters st;
     calls := calls st; log := log st |}.

Definition set_metadataPayload (v : option (list GroundingChunk)) (st : State)
    : State :=
  {| finalResponseText := finalResponseText st; metadataPayload := v;
     currentAction := currentAction st; currentPrompt := currentPrompt st;
     loopCount := loopCount st; routing_parameters := routing_parameters st;
     calls := calls st; log := log st |}.

Definition set_redirect (a : RouterAction) (p : jsstring)
    (params : option jsstring) (st : State) : State :=
  {| finalResponseText := finalResponseText st;
     metadataPayload := metadataPayload st;
     currentAction := a; currentPrompt := p;
     loopCount := loopCount st; routing_parameters := params;
     calls := calls st; log := log st |}.

Definition set_loopCount (v : nat) (st : State) : State :=
  {| finalResponseText := finalResponseText st;
     metadataPayload := metadataPayload st;
     currentAction := currentAction st; currentPrompt := currentPrompt st;
     loopCount := v; routing_parameters := routing_parameters st;
     calls := calls st; log := log st |}.

Definition set_calls (v : nat) (st : State) : State :=
  {| finalResponseText := finalResponseText st;
     metadataPayload := metadataPayload st;
     currentAction := currentAction st; currentPrompt := currentPrompt st;
     loopCount := loopCount st; routing_parameters := routing_parameters st;
     calls := v; log := log st |}.

Definition add_event (ev : Event) (st : State) : State :=
  {| finalResponseText := finalResponseText st;
     metadataPayload := metadataPayload st;
     currentAction := currentAction st; currentPrompt := currentPrompt st;
     loopCount := loopCount st; routing_parameters := routing_parameters st;
     calls := calls st; log := log st ++ [ev] |}.

(* ================================================================== *)
(** * The monad of a turn: state and exceptions *)
(* ================================================================== *)

Definition M (A : Type) : Type := State -> Outcome A * State.

Definition ret {A} (a : A) : M A := fun st => (Returned a, st).

Definition bind {A B} (m : M A) (f : A -> M B) : M B := fun st =>
  match m st with
  | (Returned a, st') => f a st'
  | (Raised e, st') => (Raised e, st')
  end.

Definition throw {A} (e : Thrown) : M A := fun st => (Raised e, st).

(** [await] of a call whose outcome the environment gives. *)
Definition await {A} (o : Outcome A) : M A := fun st => (o, st).

Definition try_catch {A} (m : M A) (handler : Thrown -> M A) : M A :=
  fun st =>
    match m st with
    | (Returned a, st') => (Returned a, st')
    | (Raised e, st') => handler e st'
    end.

Definition get : M State := fun st => (Returned st, st).
Definition modify (f : State -> State) : M unit := fun st => (Returned tt, f st).
Definition emit (ev : Event) : M unit := modify (add_event ev).

Declare Scope turn_scope.
Delimit Scope turn_scope with turn.
Bind Scope turn_scope with M.
Notation "x <- m1 ;; m2" := (bind m1 (fun x => m2))
  (at level 100, m1 at next level, m2 at level 200, right associativity)
  : turn_scope.
Notation "m1 ;; m2" := (bind m1 (fun _ => m2))
  (at level 100, m2 at level 200, right associativity) : turn_scope.
Local Open Scope turn_scope.

Definition when (b : bool) (m : M unit) : M unit := if b then m else ret tt.

(* ================================================================== *)
(** * [generateContentStreamWithRetry] *)
(* ================================================================== *)

(** [isQuotaError] of the [catch] block. *)
Definition isQuotaError (error : Thrown) : bool :=
  match thrown_status error with Some s => s =? 429 | None => false end
  || match thrown_message error with
     | Some m => truthy m && includes (lit "429") m
     | None => false
     end
  || match thrown_message error with
     | Some m => truthy m && includes (lit "quota") m
     | None => false
     end.

(** [Math.pow(2, attempt) * 2000 + 1000] *)
Definition retry_delay (attempt : Z) : Z := 2 ^ attempt * 2000 + 1000.

(** [Math.round(x / 1000)] for a non-negative integer [x]. *)
Definition round_div_1000 (x : Z) : Z := (x + 500) / 1000.

Definition retry_message (delay : Z) : jsstring :=
  lit "(Rate limit hit. Retrying in " ++ decimal (round_div_1000 delay)
  ++ lit "s...)".

Definition max_retries_exceeded : Thrown :=
  JsError None (lit "Max retries exceeded").

(** The [for] loop of the wrapper.  [remaining] is the number of values
    of [attempt] still to run, [retries + 1 - attempt]: the loop test
    [attempt <= retries] holds exactly when it is not zero. *)
Fixpoint retry_loop (env : Env) (params : GenerateParams) (retries : Z)
    (onRetry : option (jsstring -> M unit))
    (remaining : nat) (attempt : Z) : M Stream :=
  match remaining with
  | O => throw max_retries_exceeded
  | S remaining' =>
      st <- get ;;
      modify (set_calls (S (calls st))) ;;
      emit (EvAttempt (calls st) params) ;;
      try_catch (await (generateContentStream env (calls st) params))
        (fun error =>
           if isQuotaError error && (attempt <? retries) then
             let delay := retry_delay attempt in
             emit (EvWarn delay) ;;
             match onRetry with
             | Some f => f (retry_message delay)
             | None => ret tt
             end ;;
             emit (EvSleep delay) ;;
             retry_loop env params retries onRetry remaining' (attempt + 1)
           else throw error)
  end.

Definition generateContentStreamWithRetry (env : Env)
    (params : GenerateParams) (retries : Z)
    (onRetry : option (jsstring -> M unit)) : M Stream :=
  retry_loop env params retries onRetry (Z.to_nat (retries + 1)) 0.

(* ================================================================== *)
(** * Redirect detection on the output of the SIMPLE handler *)
(* ================================================================== *)

(** [/<NAME>(.*?)<\/NAME>/] *)
Definition re_tag (opener closer : string) : Matcher jsstring :=
  re_block dot cs_eq (lit opener) (lit closer) false.

(** [a || b] on two match results. *)
Definition orelse {A} (a b : option A) : option A :=
  match a with Some _ => a | None => b end.

Definition searchMatch (g : jsstring) : option jsstring :=
  str_match (re_tag "<SEARCH>" "</SEARCH>") g.

Definition deepMatch (g : jsstring) : option jsstring :=
  orelse (str_match (re_tag "<DEEP>" "</DEEP>") g)
         (str_match (re_block_ws (lit "<SEARCH>deep") (lit "</SEARCH>")) g).

(** The inner option is [thinkMatch[1]]: [undefined] when only the bare
    [/<THINK>/] matched. *)
Definition thinkMatch (g : jsstring) : option (option jsstring) :=
  orelse (option_map Some (str_match (re_tag "<THINK>" "</THINK>") g))
         (option_map (fun _ => None)
            (str_match (re_lit cs_eq (lit "<THINK>")) g)).

Definition imageMatch (g : jsstring) : option jsstring :=
  str_match (re_tag "<IMAGE>" "</IMAGE>") g.
Definition projectMatch (g : jsstring) : option jsstring :=
  str_match (re_tag "<PROJECT>" "</PROJECT>") g.
Definition canvasMatch (g : jsstring) : option jsstring :=
  str_match (re_tag "<CANVAS>" "</CANVAS>") g.
Definition studyMatch (g : jsstring) : option jsstring :=
  str_match (re_tag "<STUDY>" "</STUDY>") g.

(** [thinkMatch[1] ? thinkMatch[1].trim() : prompt] *)
Definition think_prompt (group1 : option jsstring) (prompt : jsstring)
    : jsstring :=
  match group1 with
  | Some p => if truthy p then trim p else prompt
  | None => prompt
  end.

(** The chain of [if (...Match) { ...; continue; }]: the new
    [currentAction] and [currentPrompt], or [None] when no marker
    matched and the handler returns. *)
Definition detectRedirect (generatedThisLoop prompt : jsstring)
    : option (RouterAction * jsstring) :=
  match deepMatch generatedThisLoop with
  | Some p => Some (DEEP_SEARCH, p)
  | None =>
  match searchMatch generatedThisLoop with
  | Some p => Some (SEARCH, p)
  | None =>
  match thinkMatch generatedThisLoop with
  | Some g1 => Some (THINK, think_prompt g1 prompt)
  | None =>
  match imageMatch generatedThisLoop with
  | Some p => Some (IMAGE, p)
  | None =>
  match projectMatch generatedThisLoop with
  | Some p => Some (PROJECT, p)
  | None =>
  match canvasMatch generatedThisLoop with
  | Some p => Some (CANVAS, p)
  | None =>
  match studyMatch generatedThisLoop with
  | Some p => Some (STUDY, p)
  | None => None
  end end end end end end end.

(* ================================================================== *)
(** * [runAutonomousAgent] *)
(* ================================================================== *)

Definition MAX_LOOPS : nat := 2.

(** What one pass through the [switch] ends with. *)
Inductive LoopCtl :=
| Return (r : AgentExecutionResult)
| Continue.

Section Turn.

Variable env : Env.
Variable input : AgentInput.

(** [onStreamChunk?.(s)] *)
Definition sink (s : jsstring) : M unit :=
  when (has_sink input) (emit (EvSink s)).

(** [finalResponseText += t], inside the handler [a]. *)
Definition append_text (a : RouterAction) (t : jsstring) : M unit :=
  fun st =>
    let old := finalResponseText st in
    (Returned tt,
     add_event (EvText a old (old ++ t)) (set_finalResponseText (old ++ t) st)).

(** [finalResponseText = v], inside the handler [a]. *)
Definition assign_text (a : RouterAction) (v : jsstring) : M unit :=
  fun st =>
    (Returned tt,
     add_event (EvText a (finalResponseText st) v) (set_finalResponseText v st)).

(** [if (!metadataPayload.groundingMetadata) ... = [];
     metadataPayload.groundingMetadata.push(...g)] *)
Definition push_grounding (g : list GroundingChunk) : M unit :=
  modify (fun st =>
    set_metadataPayload
      (Some (match metadataPayload st with Some l => l | None => [] end ++ g))
      st).

(** [{ project_id: project.id, chat_id: chat.id, sender: 'ai',
       text: finalResponseText, ...metadataPayload }], with
    [image_base64] where the source has it. *)
Definition message_of (image : option jsstring) (st : State) : Message :=
  {| project_id := project_id_of input; chat_id := chat_id_of input;
     sender := lit "ai"; text := finalResponseText st;
     image_base64 := image; groundingMetadata := metadataPayload st |}.

Definition return_message (image : option jsstring) : M LoopCtl :=
  st <- get ;; ret (Return {| messages := [message_of image st] |}).

(** [for await (const chunk of response) body], threading the block's
    own local variable through the iterations. *)
Fixpoint for_each_chunk {A} (body : Chunk -> A -> M A) (cs : list Chunk)
    (a : A) : M A :=
  match cs with
  | [] => ret a
  | chunk :: cs' => a' <- body chunk a ;; for_each_chunk body cs' a'
  end.

Definition for_await {A} (body : Chunk -> A -> M A) (response : Stream)
    (a : A) : M A :=
  a' <- for_each_chunk body (stream_chunks response) a ;;
  match stream_failure response with
  | Some e => throw e
  | None => ret a'
  end.

Definition flash : jsstring := lit "gemini-2.5-flash".

Definition plain_params (c : Contents) : GenerateParams :=
  {| model := flash; contents := c; systemInstruction := None;
     googleSearch := false; thinkingBudget := None;
     responseMimeType := None |}.

(** The retry wrapper as every handler calls it: ceiling 3, and the
    callback [(msg) => onStreamChunk?.(msg)]. *)
Definition stream_with_retry (params : GenerateParams) : M Stream :=
  generateContentStreamWithRetry env params 3 (Some sink).

(** [history.map(...).filter(msg => msg.parts[0].text.trim() !== '')] *)
Definition geminiHistory : list Content :=
  List.filter
    (fun c => match parts c with
              | TextPart t :: _ => truthy (trim t)
              | _ => true
              end)
    (map (fun msg =>
            {| role := if bool_decide (history_sender msg = lit "user")
                       then RoleUser else RoleModel;
               parts := [TextPart (history_text msg)] |})
         (history input)).

(** [s.split(sep)] for a one-character separator. *)
Fixpoint split_char (sep : N) (s : jsstring) : list jsstring :=
  match s with
  | [] => [[]]
  | c :: s' =>
      if (c =? sep)%N then [] :: split_char sep s'
      else match split_char sep s' with
           | x :: r => (c :: x) :: r
           | [] => [[c]]
           end
  end.

(** The [for (const file of files)] loop of the SIMPLE handler: each
    file is read and put in front of the parts. *)
Fixpoint read_files (fs : list AttachedFile) (userParts : list Part)
    : M (list Part) :=
  match fs with
  | [] => ret userParts
  | file :: fs' =>
      url <- await (file_dataURL file) ;;
      read_files fs'
        (InlineData (split_char 44 url !! 1%nat) (file_type file) :: userParts)
  end.

(** The two-line banners sent to the sink; the emoji are given by their
    UTF-16 code units. *)
Definition banner (words : string) (emoji : jsstring) : jsstring :=
  nl ++ lit words ++ emoji ++ nl.

Section Handlers.

(** [JSON.stringify(memoryContext)] and [dateTimeContext]. *)
Variable memoryContext : jsstring.
Variable dateTimeContext : jsstring.

(** The text in a chunk, when it is not empty. *)
Definition chunk_text_truthy (chunk : Chunk) : option jsstring :=
  match chunk_text chunk with
  | Some t => if truthy t then Some t else None
  | None => None
  end.

(** The body of the streaming loop of THINK and STUDY. *)
Definition text_chunk (a : RouterAction) (chunk : Chunk) (_ : unit) : M unit :=
  match chunk_text_truthy chunk with
  | Some t => append_text a t ;; sink t
  | None => ret tt
  end.

(** The body of the streaming loop of SEARCH. *)
Definition search_chunk (chunk : Chunk) (_ : unit) : M unit :=
  match chunk_text_truthy chunk with
  | Some t => append_text SEARCH t ;; sink t
  | None => ret tt
  end ;;
  match chunk_grounding chunk with
  | Some g => push_grounding g
  | None => ret tt
  end.

(** The body of the streaming loop of SIMPLE; the accumulator is
    [generatedThisLoop]. *)
Definition simple_chunk (chunk : Chunk) (generatedThisLoop : jsstring)
    : M jsstring :=
  match chunk_text_truthy chunk with
  | Some t =>
      append_text SIMPLE t ;;
      sink t ;;
      match chunk_grounding chunk with
      | Some g => push_grounding g
      | None => ret tt
      end ;;
      ret (generatedThisLoop ++ t)
  | None => ret generatedThisLoop
  end.

Definition handle_SEARCH : M LoopCtl :=
  sink (banner "Searching the web... " [55356; 57104]%N) ;;
  st <- get ;;
  let searchSystemPrompt :=
    autonomousInstruction env ++ nl ++ nl ++ dateTimeContext ++ nl ++ nl ++
    lit "Your task: Provide a helpful, friendly answer to the user's query using Google Search. Maintain your persona (Bubble). Cite sources naturally." in
  searchResponse <- stream_with_retry
    {| model := flash;
       contents := ContentsText (lit "User Query: " ++ currentPrompt st);
       systemInstruction := Some searchSystemPrompt;
       googleSearch := true; thinkingBudget := None;
       responseMimeType := None |} ;;
  for_await search_chunk searchResponse tt ;;
  return_message None.

Definition handle_DEEP_SEARCH : M LoopCtl :=
  sink (banner "Deep Researching... " [55357; 56538]%N) ;;
  st <- get ;;
  let '(progress, outcome) := deepResearch env (currentPrompt st) in
  fold_right (fun msg k => sink (nl ++ lit "*" ++ msg ++ lit "*") ;; k)
             (ret tt) progress ;;
  result <- await outcome ;;
  let researchText :=
    answer result ++ nl ++ nl ++ lit "**Sources:**" ++ nl
    ++ join nl (sources result) in
  append_text DEEP_SEARCH (nl ++ nl ++ researchText) ;;
  sink researchText ;;
  return_message None.

Definition handle_THINK : M LoopCtl :=
  sink (banner "Thinking deeply... " [55358; 56800]%N) ;;
  (* incrementThinkingCount catches and logs its own failures *)
  emit EvIncrementThinkingCount ;;
  st <- get ;;
  let contextBlock :=
    autonomousInstruction env ++ nl ++ nl ++ dateTimeContext ++ nl ++ nl ++
    lit "[MEMORY]" ++ nl ++ memoryContext ++ nl ++ nl ++
    lit "[TASK]" ++ nl ++ currentPrompt st in
  response <- stream_with_retry
    {| model := flash;
       contents := ContentsList
         (geminiHistory ++
          [{| role := RoleUser; parts := [TextPart contextBlock] |}]);
       systemInstruction := None; googleSearch := false;
       thinkingBudget := Some 2048%Z; responseMimeType := None |} ;;
  for_await (text_chunk THINK) response tt ;;
  return_message None.

(** [routing.parameters?.prompt || currentPrompt] *)
Definition image_prompt (parameters : option jsstring) (current : jsstring)
    : jsstring :=
  match parameters with
  | Some p => if truthy p then p else current
  | None => current
  end.

Definition handle_IMAGE : M LoopCtl :=
  st <- get ;;
  when (has_sink input) (emit (EvImageStart (finalResponseText st))) ;;
  let imagePrompt :=
    image_prompt (routing_parameters st) (currentPrompt st) in
  try_catch
    (imageBase64 <- await (generateImage env imagePrompt) ;;
     return_message (Some imageBase64))
    (fun e =>
       let errorMsg :=
         nl ++ nl ++ lit "(Image generation failed: " ++
         match e with
         | JsError _ m => m
         | JsValue _ _ => lit "Unknown error"
         end ++ lit ")" in
       append_text IMAGE errorMsg ;;
       sink errorMsg ;;
       return_message None).

(** [t || ""] *)
Definition or_empty (t : option jsstring) : jsstring :=
  match t with
  | Some s => if truthy s then s else []
  | None => []
  end.

Definition handle_CANVAS : M LoopCtl :=
  st <- get ;;
  let '(streamed, outcome) := runCanvasAgent env (currentPrompt st) in
  fold_right (fun chunk k => sink chunk ;; k) (ret tt) streamed ;;
  canvasMessages <- await outcome ;;
  match canvasMessages with
  | [] =>
      (* canvasResult.messages[0] is undefined *)
      throw (JsError None
        (lit "Cannot read properties of undefined (reading 'text')"))
  | canvasMessage :: _ =>
      assign_text CANVAS (or_empty (canvas_text canvasMessage)) ;;
      return_message None
  end.

Definition handle_PROJECT : M LoopCtl :=
  sink (banner "Building project structure... " [55356; 57303; 65039]%N) ;;
  st <- get ;;
  response_text <- await (generateContent env
    {| model := flash;
       contents := ContentsText
         (lit "Build a complete file structure for a project: " ++
          currentPrompt st ++
          lit ". Return a JSON object with filenames and brief content descriptions.");
       systemInstruction := None; googleSearch := false;
       thinkingBudget := None;
       responseMimeType := Some (lit "application/json") |}) ;;
  let projectMsg :=
    nl ++ lit "I've designed the project structure based on your request."
    ++ nl ++ nl ++
    match response_text with Some t => t | None => lit "undefined" end
    ++ nl ++ nl ++
    lit "(Switch to Co-Creator mode to fully hydrate and edit these files.)" in
  append_text PROJECT projectMsg ;;
  sink projectMsg ;;
  return_message None.

Definition handle_STUDY : M LoopCtl :=
  sink (banner "Creating study plan... " [55356; 57235]%N) ;;
  st <- get ;;
  response <- stream_with_retry
    (plain_params (ContentsText
       (lit "Create a structured study plan for: " ++ currentPrompt st ++
        lit ". Include learning objectives and key concepts."))) ;;
  for_await (text_chunk STUDY) response tt ;;
  return_message None.

Definition handle_SIMPLE : M LoopCtl :=
  st <- get ;;
  let systemPrompt :=
    autonomousInstruction env ++ nl ++ nl ++ lit "[MEMORY]" ++ nl ++
    memoryContext ++ nl ++ nl ++ dateTimeContext in
  userParts <- read_files (files input) [TextPart (currentPrompt st)] ;;
  response <- stream_with_retry
    {| model := flash;
       contents := ContentsList
         (geminiHistory ++ [{| role := RoleUser; parts := userParts |}]);
       systemInstruction := Some systemPrompt; googleSearch := false;
       thinkingBudget := None; responseMimeType := None |} ;;
  generatedThisLoop <- for_await simple_chunk response [] ;;
  match detectRedirect generatedThisLoop (prompt input) with
  | Some (a, p) =>
      modify (fun st =>
        set_redirect a p
          (match a with IMAGE => Some p | _ => routing_parameters st end)
          st) ;;
      ret Continue
  | None => return_message None
  end.

(** The [switch (currentAction)]. *)
Definition handler (a : RouterAction) : M LoopCtl :=
  match a with
  | SEARCH => handle_SEARCH
  | DEEP_SEARCH => handle_DEEP_SEARCH
  | THINK => handle_THINK
  | IMAGE => handle_IMAGE
  | CANVAS => handle_CANVAS
  | PROJECT => handle_PROJECT
  | STUDY => handle_STUDY
  | SIMPLE => handle_SIMPLE
  end.

(** One iteration of the [while] loop: [loopCount++] and the [switch]. *)
Definition iteration : M LoopCtl :=
  modify (fun st => set_loopCount (S (loopCount st)) st) ;;
  st <- get ;;
  emit (EvDispatch (currentAction st) (currentPrompt st)) ;;
  handler (currentAction st).

(** [while (loopCount < MAX_LOOPS) { ... }] followed by the [return]
    after the loop.  [remaining] is [MAX_LOOPS - loopCount]: the loop
    test holds exactly when it is not zero. *)
Fixpoint while_loop (remaining : nat) : M AgentExecutionResult :=
  match remaining with
  | O => st <- get ;; ret {| messages := [message_of None st] |}
  | S remaining' =>
      ctl <- iteration ;;
      match ctl with
      | Return r => ret r
      | Continue => while_loop remaining'
      end
  end.

End Handlers.

(** The variables as they are when the [try] block starts. *)
Definition initial_state : State :=
  {| finalResponseText := []; metadataPayload := None;
     currentAction := SIMPLE; currentPrompt := prompt input;
     loopCount := O; routing_parameters := None;
     calls := O; log := [] |}.

(** The body of the [try] block. *)
Definition try_block : M AgentExecutionResult :=
  let fileCount := length (files input) in
  routing <- await (route env (prompt input) (user_id input) fileCount) ;;
  memoryContext <- await (getContext env) ;;
  let dateTimeContext :=
    lit "[CURRENT DATE & TIME]" ++ nl ++ formatTimestamp env ++ nl in
  modify (set_redirect (action routing) (prompt input)
            (parameters_prompt routing)) ;;
  while_loop memoryContext dateTimeContext MAX_LOOPS.

(** The message of the [catch] block. *)
Definition error_message (error : Thrown) : Message :=
  {| project_id := project_id_of input; chat_id := chat_id_of input;
     sender := lit "ai";
     text := lit "An error occurred: " ++ getUserFriendlyError env error;
     image_base64 := None; groundingMetadata := None |}.

(** [runAutonomousAgent]: the result, and the state the turn ended in
    (for its log). *)
Definition runAutonomousAgent_traced : AgentExecutionResult * State :=
  match try_block initial_state with
  | (Returned r, st) => (r, st)
  | (Raised error, st) =>
      ({| messages := [error_message error] |},
       add_event (EvConsoleError error) st)
  end.

Definition runAutonomousAgent : AgentExecutionResult :=
  fst runAutonomousAgent_traced.

End Turn.

(* ================================================================== *)
(** * Observations on a run, and sample collaborators *)
(* ================================================================== *)

(** What one failed attempt that is retried leaves in the log: the
    call, the warning, the callback's message (when the callback is
    there and the turn has a sink) and the sleep. *)
Definition retried_attempt (cb : option AgentInput) (params : GenerateParams)
    (call attempt : nat) : list Event :=
  let delay := retry_delay (Z.of_nat attempt) in
  [EvAttempt call params; EvWarn delay]
  ++ match cb with
     | Some input =>
         if has_sink input then [EvSink (retry_message delay)] else []
     | None => []
     end
  ++ [EvSleep delay].

(** Every call from number [first] to number [first + n] fails with a
    quota-class error. *)
Definition all_quota (env : Env) (params : GenerateParams)
    (first n : nat) : Prop :=
  forall i, (i <= n)%nat ->
    exists e, generateContentStream env (first + i) params = Raised e
              /\ isQuotaError e = true.

(** ** Sample collaborators, for the concrete runs below *)

Definition sample_input : AgentInput :=
  {| prompt := lit "hello"; files := [];
     project_id_of := lit "project-1"; chat_id_of := lit "chat-1";
     user_id := lit "user-1"; history := []; has_sink := true |}.

Definition quota_error : Thrown := JsError (Some 429) (lit "Too Many Requests").

Definition text_chunk_of (t : string) : Chunk :=
  {| chunk_text := Some (lit t); chunk_grounding := None |}.

Definition stream_of (cs : list Chunk) : Outcome Stream :=
  Returned {| stream_chunks := cs; stream_failure := None |}.

(** An environment in which the router answers [r], call number [i] to
    the generation service has the outcome [streams i], and the image
    and canvas services have the outcomes [img] and [cnv]. *)
Definition sample_env (r : Outcome Routing) (streams : nat -> Outcome Stream)
    (img : Outcome jsstring) (cnv : Outcome (list CanvasMessage)) : Env :=
  {| autonomousInstruction := lit "You are Bubble.";
     formatTimestamp := lit "Sunday, November 1, 2026";
     route := fun _ _ _ => r;
     getContext := Returned (lit "{}");
     generateContentStream := fun i _ => streams i;
     generateContent := fun _ => Returned (Some (lit "{}"));
     deepResearch := fun _ =>
       ([], Returned {| answer := lit "answer"; sources := [] |});
     generateImage := fun _ => img;
     runCanvasAgent := fun _ => ([], cnv);
     getUserFriendlyError := fun e =>
       match thrown_message e with
       | Some m => m
       | None => lit "Something went wrong."
       end |}.

Definition routed (a : RouterAction) : Outcome Routing :=
  Returned {| action := a; parameters_prompt := None |}.

(** The generation service is out of quota on every call. *)
Definition quota_env : Env :=
  sample_env (routed SIMPLE) (fun _ => Raised quota_error)
    (Returned (lit "iVBORw0KGgo=")) (Returned []).

(** ** Reading the log *)

(** The iterations of the loop: which handler ran, with which prompt. *)
Definition dispatches (l : list Event) : list (RouterAction * jsstring) :=
  flat_map (fun ev => match ev with EvDispatch a p => [(a, p)] | _ => [] end) l.

Definition is_dispatch (ev : Event) : bool :=
  match ev with EvDispatch _ _ => true | _ => false end.

Definition is_text_write (ev : Event) : bool :=
  match ev with EvText _ _ _ => true | _ => false end.

(** An assignment to [finalResponseText] that keeps what was there. *)
Definition appends (ev : Event) : Prop :=
  match ev with
  | EvText _ old new => old `prefix_of` new
  | _ => True
  end.

(** The same, except that the CANVAS handler may instead adopt the text
    of the first message the canvas agent returned. *)
Definition appends_or_adopts (env : Env) (ev : Event) : Prop :=
  match ev with
  | EvText CANVAS old new =>
      exists p streamed canvasMessage rest,
        runCanvasAgent env p = (streamed, Returned (canvasMessage :: rest))
        /\ new = or_empty (canvas_text canvasMessage)
  | EvText _ old new => old `prefix_of` new
  | _ => True
  end.

(** The [EvText] entries of [evs] follow one another: each one starts
    from the text the previous one left, the first from [cur], and the
    last leaves [cur']. *)
Fixpoint linked (cur : jsstring) (evs : list Event) (cur' : jsstring) : Prop :=
  match evs with
  | [] => cur = cur'
  | EvText _ old new :: evs' => old = cur /\ linked new evs' cur'
  | _ :: evs' => linked cur evs' cur'
  end.

(** [grows P m]: whatever the state, [m] only adds events to the log,
    each of them satisfies [P], and the [EvText] entries among them
    account for every change of [finalResponseText] (also when [m]
    raises). *)
Definition grows (P : Event -> Prop) {A} (m : M A) : Prop :=
  forall st, exists evs,
    log (snd (m st)) = log st ++ evs
    /\ Forall P evs
    /\ linked (finalResponseText st) evs (finalResponseText (snd (m st))).

(** [returns Q m]: every value [m] returns satisfies [Q]. *)
Definition returns {A} (Q : A -> Prop) (m : M A) : Prop :=
  forall st a st', m st = (Returned a, st') -> Q a.

(** The state after [n] iterations of the loop, when each of them ended
    with [continue]. *)
Fixpoint all_continue (env : Env) (input : AgentInput)
    (memoryContext dateTimeContext : jsstring) (n : nat) (st : State)
    : option State :=
  match n with
  | O => Some st
  | S n' =>
      match iteration env input memoryContext dateTimeContext st with
      | (Returned Continue, st') =>
          all_continue env input memoryContext dateTimeContext n' st'
      | _ => None
      end
  end.

(** A message that is from the assistant and belongs to the
    conversation of the turn. *)
Definition addressed (input : AgentInput) (m : Message) : Prop :=
  sender m = lit "ai"
  /\ project_id m = project_id_of input
  /\ chat_id m = chat_id_of input.

(** A result that is one such message. *)
Definition single_addressed (input : AgentInput) (r : AgentExecutionResult)
    : Prop :=
  exists m, messages r = [m] /\ addressed input m.

Definition ctl_addressed (input : AgentInput) (ctl : LoopCtl) : Prop :=
  match ctl with
  | Return r => single_addressed input r
  | Continue => True
  end.

(** The SIMPLE handler's reply asks for a canvas, and the canvas agent
    answers with a page. *)
Definition canvas_env : Env :=
  sample_env (routed SIMPLE)
    (fun _ => stream_of [text_chunk_of "<CANVAS>a clock</CANVAS>"])
    (Returned (lit "iVBORw0KGgo="))
    (Returned [{| canvas_text := Some (lit "<html></html>") |}]).

Definition server_error : Thrown := JsError (Some 500) (lit "Internal error").

(** The router picks SEARCH and the generation service is down. *)
Definition failing_env : Env :=
  sample_env (routed SEARCH) (fun _ => Raised server_error)
    (Returned (lit "iVBORw0KGgo=")) (Returned []).

(** The scenario of the image handler: the prompt "draw a cat" is routed
    to IMAGE with the parameter "a cat". *)
Definition cat_input : AgentInput :=
  {| prompt := lit "draw a cat"; files := [];
     project_id_of := lit "project-1"; chat_id_of := lit "chat-1";
     user_id := lit "user-1"; history := []; has_sink := true |}.

Definition cat_env (img : Outcome jsstring) : Env :=
  sample_env
    (Returned {| action := IMAGE; parameters_prompt := Some (lit "a cat") |})
    (fun _ => Raised server_error) img (Returned []).

(** A citation, and a grounded reply whose last chunk carries the
    citations and no text, as the generation service sends it. *)
Definition sample_source : GroundingChunk :=
  {| web_uri := lit "https://example.org/paris";
     web_title := lit "Paris" |}.

Definition grounded_stream : list Chunk :=
  [ text_chunk_of "Paris.";
    {| chunk_text := None; chunk_grounding := Some [sample_source] |} ].

Definition grounded_env (a : RouterAction) : Env :=
  sample_env (routed a) (fun _ => stream_of grounded_stream)
    (Returned (lit "iVBORw0KGgo=")) (Returned []).

(** The SIMPLE handler's reply is a THINK marker around one space; the
    second call answers the redirect. *)
Definition blank_think_env : Env :=
  sample_env (routed SIMPLE)
    (fun i => match i with
              | O => stream_of [text_chunk_of "<THINK> </THINK>"]
              | S _ => stream_of [text_chunk_of "Done."]
              end)
    (Returned (lit "iVBORw0KGgo=")) (Returned []).

(** The citation lists of the chunks of a stream, in arrival order. *)
Definition groundings (cs : list Chunk) : list (list GroundingChunk) :=
  omap chunk_grounding cs.

(** [metadataPayload.groundingMetadata] after the lists [gs] have been
    pushed onto [old], one after the other. *)
Definition pushed (old : option (list GroundingChunk))
    (gs : list (list GroundingChunk)) : option (list GroundingChunk) :=
  match gs with
  | [] => old
  | _ :: _ => Some (match old with Some l => l | None => [] end ++ concat gs)
  end.

Definition has_text (c : Chunk) : bool :=
  match chunk_text_truthy c with Some _ => true | None => false end.

(** ** Redirect detection as the specification words it

    The markers are checked in a fixed order of priority and the first
    one that matches wins. *)
Definition priority_order : list RouterAction :=
  [DEEP_SEARCH; SEARCH; THINK; IMAGE; PROJECT; CANVAS; STUDY].

(** What the marker of an action gives as the next prompt, if the
    marker is found in [g]. *)
Definition marker_prompt (g prompt : jsstring) (a : RouterAction)
    : option jsstring :=
  match a with
  | DEEP_SEARCH => deepMatch g
  | SEARCH => searchMatch g
  | THINK => option_map (fun g1 => think_prompt g1 prompt) (thinkMatch g)
  | IMAGE => imageMatch g
  | PROJECT => projectMatch g
  | CANVAS => canvasMatch g
  | STUDY => studyMatch g
  | SIMPLE => None
  end.

Fixpoint first_match_wins (g prompt : jsstring) (order : list RouterAction)
    : option (RouterAction * jsstring) :=
  match order with
  | [] => None
  | a :: order' =>
      match marker_prompt g prompt a with
      | Some p => Some (a, p)
      | None => first_match_wins g prompt order'
      end
  end.

(** A marker written out: the opening tag, the payload, the closing
    tag. *)
Definition marker (opener closer : string) (payload : jsstring) : jsstring :=
  lit opener ++ payload ++ lit closer.

(** A payload that stays on one line. *)
Definition one_line (payload : jsstring) : Prop :=
  forallb dot payload = true.

(** A text without the character [<]. *)
Definition no_angle (s : jsstring) : Prop :=
  forallb (fun c => negb (c =? 60)%N) s = true.

(** The SIMPLE handler's reply asks for a web search. *)
Definition tokyo_env : Env :=
  sample_env (routed SIMPLE)
    (fun i => match i with
              | O => stream_of [text_chunk_of "<SEARCH>weather in Tokyo</SEARCH>"]
              | S _ => stream_of [text_chunk_of "Sunny."]
              end)
    (Returned (lit "iVBORw0KGgo=")) (Returned []).

(** ** Marker residue in a displayed text *)

(** The expressions of the replacement chain of [parseMessageContent]. *)
Definition has_match {G} (m : Matcher G) (s : jsstring) : bool :=
  match exec m s with Some _ => true | None => false end.

(** No expression of the chain matches anywhere in [s]. *)
Definition marker_free (s : jsstring) : bool :=
  negb (has_match (Display.re_paired "<THINK>" "</THINK>") s)
  && negb (has_match (re_open_to_end (lit "<THINK>")) s)
  && negb (has_match (Display.re_paired "<CANVAS>" "</CANVAS>") s)
  && negb (has_match (re_open_to_end (lit "<CANVAS>")) s)
  && negb (has_match (Display.re_paired "<MEMORY>" "</MEMORY>") s)
  && negb (has_match (Display.re_paired "<IMAGE>" "</IMAGE>") s)
  && negb (has_match (Display.re_paired "<SEARCH>" "</SEARCH>") s)
  && negb (has_match (Display.re_paired "<PROJECT>" "</PROJECT>") s)
  && negb (has_match (Display.re_paired "<STUDY>" "</STUDY>") s)
  && negb (has_match (Display.re_paired "<DEEP>" "</DEEP>") s).

(** [parseMessageContent(s).clean] *)
Definition clean_of (s : jsstring) : jsstring :=
  Display.clean (Display.parseMessageContent s).

(** [preserves proj m]: [m] leaves the part [proj] of the state as it
    found it (also when it raises). *)
Definition preserves {T} (proj : State -> T) {A} (m : M A) : Prop :=
  forall st, proj (snd (m st)) = proj st.

(** The tags of the marker of each action. *)
Definition tag_of (a : RouterAction) : option (string * string) :=
  match a with
  | DEEP_SEARCH => Some ("<DEEP>"%string, "</DEEP>"%string)
  | SEARCH => Some ("<SEARCH>"%string, "</SEARCH>"%string)
  | THINK => Some ("<THINK>"%string, "</THINK>"%string)
  | IMAGE => Some ("<IMAGE>"%string, "</IMAGE>"%string)
  | PROJECT => Some ("<PROJECT>"%string, "</PROJECT>"%string)
  | CANVAS => Some ("<CANVAS>"%string, "</CANVAS>"%string)
  | STUDY => Some ("<STUDY>"%string, "</STUDY>"%string)
  | SIMPLE => None
  end.

(* ================================================================== *)
(** * Further observations: display-time extraction *)
(* ================================================================== *)

(** [pat] matches at no position of [body], when [body] is followed by
    [rest]: the first place where it can match is in [rest]. *)
Fixpoint absent (eq : N -> N -> bool) (pat body rest : jsstring) : bool :=
  match body with
  | [] => true
  | _ :: body' =>
      negb (starts_with eq pat (body ++ rest)) && absent eq pat body' rest
  end.

(** [o] is [pat] up to the case of its ASCII letters. *)
Definition variant_of (pat o : jsstring) : Prop :=
  map canonicalize o = map canonicalize pat.

(** The condition under which [ChatMessage] shows the thinking panel:
    [thinking !== null || (isTyping && message.text.includes('<THINK>'))]. *)
Definition shows_thinking (isTyping : bool) (text : jsstring) : bool :=
  match Display.thinking (Display.parseMessageContent text) with
  | Some _ => true
  | None => false
  end
  || (isTyping && includes (lit "<THINK>") text).

(* ================================================================== *)
(** * The message list of the chat hook (src/hooks/useChat.ts)

    The hook keeps the messages on screen in a React state and changes
    it through updater functions [prev => next].  Each updater is a
    pure function; they are embedded here one by one. *)
(* ================================================================== *)

Module UseChat.

(** A message on screen: the fields the updaters read or write, and
    [fields] for everything else it carries. *)
Record Message := {
  id : jsstring;
  sender : jsstring;
  text : jsstring;
  imageStatus : option jsstring;
  plan : option N;
  fields : N
}.

Definition set_text (t : jsstring) (m : Message) : Message :=
  {| id := id m; sender := sender m; text := t;
     imageStatus := imageStatus m; plan := plan m; fields := fields m |}.

Definition set_imageStatus (s : option jsstring) (m : Message) : Message :=
  {| id := id m; sender := sender m; text := text m;
     imageStatus := s; plan := plan m; fields := fields m |}.

Definition set_plan (p : N) (m : Message) : Message :=
  {| id := id m; sender := sender m; text := text m;
     imageStatus := imageStatus m; plan := Some p; fields := fields m |}.

Definition set_sender (s : jsstring) (m : Message) : Message :=
  {| id := id m; sender := s; text := text m;
     imageStatus := imageStatus m; plan := plan m; fields := fields m |}.

(** [m.id === x] *)
Definition has_id (x : jsstring) (m : Message) : bool :=
  bool_decide (id m = x).

(** [m.id.startsWith('temp-')] *)
Definition is_temp (m : Message) : bool :=
  starts_with cs_eq (lit "temp-") (id m).

(** [a.text === b.text && a.sender === b.sender] *)
Definition same_text_and_sender (a b : Message) : bool :=
  bool_decide (text a = text b) && bool_decide (sender a = sender b).

(** The updater of [fetchMessages] (lines 102-117): the history read
    from the database, followed by the optimistic messages that have
    no counterpart in it. *)
Definition merge_fetched (history prev : list Message) : list Message :=
  let pendingOptimistic := List.filter is_temp prev in
  match pendingOptimistic with
  | _ :: _ =>
      let remainingOptimistic :=
        List.filter
          (fun opt =>
             negb (existsb (fun dbMsg => same_text_and_sender dbMsg opt)
                     history))
          pendingOptimistic in
      history ++ remainingOptimistic
  | [] => history
  end.

(** The updater of the realtime INSERT subscription (lines 137-148). *)
Definition on_insert (newMsg : Message) (prev : list Message) : list Message :=
  if existsb (has_id (id newMsg)) prev then prev
  else
    let filtered :=
      List.filter
        (fun m => if negb (is_temp m) then true
                  else negb (same_text_and_sender m newMsg))
        prev in
    filtered ++ [newMsg].

(** Lines 192-193: the temporary ids, from [Date.now()]. *)
Definition tempId_of (now : Z) : jsstring := lit "temp-ai-" ++ decimal now.
Definition tempUserMsgId_of (now : Z) : jsstring :=
  lit "temp-user-" ++ decimal now.

(** Line 214: the optimistic user message and the empty AI message. *)
Definition add_optimistic (optimisticUserMessage tempAiMessage : Message)
    (prev : list Message) : list Message :=
  prev ++ [optimisticUserMessage; tempAiMessage].

(** Line 222: the saved user message takes the place of the optimistic
    one. *)
Definition confirm_user (tempUserMsgId : jsstring) (savedUserMessage : Message)
    (prev : list Message) : list Message :=
  map (fun m => if has_id tempUserMsgId m then savedUserMessage else m) prev.

(** Line 251: a streamed chunk has been added to [currentText]. *)
Definition stream_update (tempId currentText : jsstring)
    (prev : list Message) : list Message :=
  map (fun m => if has_id tempId m
                then set_imageStatus None (set_text currentText m) else m)
      prev.

(** [arr.findIndex(p)]; [None] is [-1]. *)
Fixpoint findIndex {A} (p : A -> bool) (l : list A) : option nat :=
  match l with
  | [] => None
  | x :: l' => if p x then Some O else option_map S (findIndex p l')
  end.

(** The final updater of [handleSendMessage] (lines 289-307): the saved
    AI messages take the place of the temporary one ([splice]), or are
    pushed at the end when it is not there; then the plan is updated. *)
Definition replace_temp (tempId : jsstring) (savedAiMessages : list Message)
    (updatedPlan : option (jsstring * N)) (prev : list Message)
    : list Message :=
  let newMessages :=
    match findIndex (has_id tempId) prev with
    | Some tempMessageIndex =>
        take tempMessageIndex prev ++ savedAiMessages
        ++ drop (S tempMessageIndex) prev
    | None => prev ++ savedAiMessages
    end in
  match updatedPlan with
  | Some (messageId, p) =>
      map (fun m => if has_id messageId m then set_plan p m else m) newMessages
  | None => newMessages
  end.

(** Line 316: the [catch] of [handleSendMessage] writes the error into
    the temporary AI message. *)
Definition show_error (tempId errorText : jsstring) (prev : list Message)
    : list Message :=
  map (fun m => if has_id tempId m
                then set_sender (lit "ai") (set_text errorText m) else m)
      prev.

(** [reader.result.split(',')[1]] of [fileToBase64] (lines 38-45). *)
Definition base64_of_dataURL (dataURL : jsstring) : option jsstring :=
  split_char 44 dataURL !! 1%nat.

End UseChat.

(** Messages for the examples: an id, a sender and a text. *)
Definition chat_message (i s t : string) : UseChat.Message :=
  {| UseChat.id := lit i; UseChat.sender := lit s; UseChat.text := lit t;
     UseChat.imageStatus := None; UseChat.plan := None; UseChat.fields := 0%N |}.

(** The list after the streamed texts [texts] have been shown, one
    updater per chunk. *)
Definition stream_updates (tempId : jsstring) (texts : list jsstring)
    (prev : list UseChat.Message) : list UseChat.Message :=
  fold_left (fun l t => UseChat.stream_update tempId t l) texts prev.

(** ** Texts made of plain text and complete marker blocks *)

(** The tags whose blocks [parseMessageContent] removes. *)
Inductive BlockTag :=
| TagThink | TagCanvas | TagMemory | TagImage
| TagSearch | TagProject | TagStudy | TagDeep.

Definition BlockTag_eqb (a b : BlockTag) : bool :=
  match a, b with
  | TagThink, TagThink | TagCanvas, TagCanvas | TagMemory, TagMemory
  | TagImage, TagImage | TagSearch, TagSearch | TagProject, TagProject
  | TagStudy, TagStudy | TagDeep, TagDeep => true
  | _, _ => false
  end.

Definition tag_pair (t : BlockTag) : string * string :=
  match t with
  | TagThink => ("<THINK>", "</THINK>")
  | TagCanvas => ("<CANVAS>", "</CANVAS>")
  | TagMemory => ("<MEMORY>", "</MEMORY>")
  | TagImage => ("<IMAGE>", "</IMAGE>")
  | TagSearch => ("<SEARCH>", "</SEARCH>")
  | TagProject => ("<PROJECT>", "</PROJECT>")
  | TagStudy => ("<STUDY>", "</STUDY>")
  | TagDeep => ("<DEEP>", "</DEEP>")
  end%string.

Definition opener_of (t : BlockTag) : jsstring := lit (fst (tag_pair t)).
Definition closer_of (t : BlockTag) : jsstring := lit (snd (tag_pair t)).

Definition openers : list jsstring :=
  map opener_of
    [TagThink; TagCanvas; TagMemory; TagImage;
     TagSearch; TagProject; TagStudy; TagDeep].

(** [s] agrees with [pat], whatever the case of the letters, as far as
    [s] goes: [s] starts with [pat], or [s] is the beginning of [pat]. *)
Fixpoint begins (pat s : jsstring) : bool :=
  match pat, s with
  | p :: pat', c :: s' => ci_eq p c && begins pat' s'
  | _, _ => true
  end.

(** No position of [s] begins one of [pats], so that none of them can
    match from inside [s] whatever is put after [s]. *)
Fixpoint free_of (pats : list jsstring) (s : jsstring) : bool :=
  match s with
  | [] => true
  | _ :: s' => forallb (fun pat => negb (begins pat s)) pats && free_of pats s'
  end.

(** None of [pats] matches at a position of [s]. *)
Fixpoint lacks (pats : list jsstring) (s : jsstring) : bool :=
  match s with
  | [] => true
  | _ :: s' =>
      forallb (fun pat => negb (starts_with ci_eq pat s)) pats && lacks pats s'
  end.

(** A block as it is written in a text. *)
Record Block := {
  blk_tag : BlockTag;
  blk_opener : jsstring;
  blk_payload : jsstring;
  blk_closer : jsstring
}.

Definition block_text (b : Block) : jsstring :=
  blk_opener b ++ blk_payload b ++ blk_closer b.

(** A complete block: the opening and the closing tag of one of the
    eight names, in any case of the letters, around a payload in which
    no opening tag and no closing tag of that name begins. *)
Definition block_ok (b : Block) : Prop :=
  variant_of (opener_of (blk_tag b)) (blk_opener b)
  /\ variant_of (closer_of (blk_tag b)) (blk_closer b)
  /\ free_of (closer_of (blk_tag b) :: openers) (blk_payload b) = true.

(** A text written as pieces of plain text, each followed by a block,
    and a last piece of plain text; [keep] says which blocks are written
    out. *)
Fixpoint render (keep : Block -> bool) (segs : list (jsstring * Block))
    (last : jsstring) : jsstring :=
  match segs with
  | [] => last
  | (t, b) :: segs' =>
      t ++ (if keep b then block_text b else []) ++ render keep segs' last
  end.

(** The text with all its blocks, and the text between the blocks. *)
Definition with_blocks (segs : list (jsstring * Block)) (last : jsstring)
    : jsstring := render (fun _ => true) segs last.
Definition without_blocks (segs : list (jsstring * Block)) (last : jsstring)
    : jsstring := render (fun _ => false) segs last.

(** Every opening tag of the text is that of a complete block: no
    opening tag begins in the plain text between the blocks, and none
    is in the plain text after the last block. *)
Definition well_formed (segs : list (jsstring * Block)) (last : jsstring)
    : Prop :=
  Forall (fun seg => free_of openers (fst seg) = true /\ block_ok (snd seg))
         segs
  /\ lacks openers last = true.

(** A matcher that can only match where [pat] starts. *)
Definition opened_by {G} (pat : jsstring) (m : Matcher G) : Prop :=
  forall s, starts_with ci_eq pat s = false -> m s = None.

(** A text with a thinking block, a memory block and a canvas block. *)
Definition sample_blocks : list (jsstring * Block) :=
  [(lit " Hi ",
    {| blk_tag := TagThink; blk_opener := lit "<think>";
       blk_payload := lit " if a < b then swap "; blk_closer := lit "</THINK>" |});
   (lit "there",
    {| blk_tag := TagMemory; blk_opener := lit "<MEMORY>";
       blk_payload := lit "likes tea"; blk_closer := lit "</memory>" |});
   (lit ", see: ",
    {| blk_tag := TagCanvas; blk_opener := lit "<Canvas>";
       blk_payload := lit "<p>x</p>"; blk_closer := lit "</Canvas>" |})].

(** ** Redirect detection: markers in a reply *)

(** The text of a reply: the texts of its chunks, in order. *)
Definition generated_text (cs : list Chunk) : jsstring :=
  flat_map (fun c => match chunk_text c with Some t => t | None => [] end) cs.

(** The place of an action in the order of detection. *)
Definition rank (a : RouterAction) : nat :=
  match a with
  | DEEP_SEARCH => 0 | SEARCH => 1 | THINK => 2 | IMAGE => 3
  | PROJECT => 4 | CANVAS => 5 | STUDY => 6 | SIMPLE => 7
  end%nat.

(** [g] holds a marker of the action [a] whose payload stays on one
    line. *)
Definition has_marker (a : RouterAction) (g : jsstring) : Prop :=
  exists opener closer pre payload post,
    tag_of a = Some (opener, closer)
    /\ g = pre ++ marker opener closer payload ++ post
    /\ one_line payload.

(** A payload that starts with the word "deep", in any case of the
    letters, and white space. *)
Definition deep_query (payload : jsstring) : bool :=
  starts_with ci_eq (lit "deep") payload
  && match drop 4 payload with
     | c :: _ => is_space c
     | [] => false
     end.

(** The prompt that the payload of a marker gives to its action: the
    payload itself, except that THINK trims it and takes the prompt of
    the turn when the payload is empty. *)
Definition payload_prompt (a : RouterAction) (payload top : jsstring)
    : jsstring :=
  match a with
  | THINK => match payload with [] => top | _ :: _ => trim payload end
  | _ => payload
  end.

(** An attached file that can be read. *)
Definition readable (file : AttachedFile) : Prop :=
  exists url, file_dataURL file = Returned url.

(** The SIMPLE handler's reply asks for a web search, and the marker
    arrives in two chunks. *)
Definition split_marker_env : Env :=
  sample_env (routed SIMPLE)
    (fun i => match i with
              | O => stream_of [text_chunk_of "Let me check. <SEAR";
                                text_chunk_of "CH>weather in Tokyo</SEARCH>"]
              | S _ => stream_of [text_chunk_of "Sunny."]
              end)
    (Returned (lit "iVBORw0KGgo=")) (Returned []).

(* ================================================================== *)
(** * Properties of the retry wrapper *)
(* ================================================================== *)

Lemma retry_delay_values :
  retry_delay 0 = 3000 /\ retry_delay 1 = 5000 /\ retry_delay 2 = 9000.
Proof. repeat split; reflexivity. Qed.

Lemma retry_delay_increasing (a b : Z) :
  0 <= a < b -> retry_delay a < retry_delay b.
Proof.
  intros H. unfold retry_delay.
  assert (2 ^ a < 2 ^ b) by (apply Z.pow_lt_mono_r; lia). lia.
Qed.

Lemma max_retries_not_quota : isQuotaError max_retries_exceeded = false.
Proof. reflexivity. Qed.

Lemma flat_map_seq_shift {A} (f : nat -> list A) (m : nat) :
  flat_map f (seq 1 m) = flat_map (fun j => f (S j)) (seq 0 m).
Proof.
  rewrite <- seq_shift, !flat_map_concat_map, map_map. reflexivity.
Qed.

Lemma retry_loop_all_quota (env : Env) (params : GenerateParams)
    (retries : Z) (cb : option AgentInput) :
  forall (m k : nat) (st : State),
    retries = Z.of_nat (k + m) ->
    all_quota env params (calls st) m ->
    exists e st',
      retry_loop env params retries (option_map sink cb) (S m) (Z.of_nat k) st
        = (Raised e, st')
      /\ generateContentStream env (calls st + m) params = Raised e
      /\ calls st' = (calls st + S m)%nat
      /\ log st' = log st
           ++ flat_map (fun j => retried_attempt cb params (calls st + j) (k + j))
                       (seq 0 m)
           ++ [EvAttempt (calls st + m) params].
Proof.
  induction m as [|m IH]; intros k st Hr Hq.
  - destruct (Hq O) as (e & He & Hqe); [lia|].
    rewrite Nat.add_0_r in He.
    exists e. eexists. cbn [retry_loop].
    unfold bind, get, modify, emit, try_catch, await, throw. cbn.
    rewrite He, Hqe. cbn.
    replace (Z.of_nat k <? retries) with false
      by (symmetry; apply Z.ltb_ge; lia).
    cbn. rewrite !Nat.add_0_r. repeat split; try assumption; cbn;
      first [lia | reflexivity].
  - destruct (Hq O) as (e & He & Hqe); [lia|].
    rewrite Nat.add_0_r in He.
    set (d := retry_delay (Z.of_nat k)).
    set (st0 := add_event (EvAttempt (calls st) params)
                  (set_calls (S (calls st)) st)).
    set (st1 := add_event (EvWarn d) st0).
    set (st2 := match cb with
                | Some input =>
                    if has_sink input
                    then add_event (EvSink (retry_message d)) st1 else st1
                | None => st1
                end).
    set (st3 := add_event (EvSleep d) st2).
    assert (Hc : calls st3 = S (calls st)).
    { subst st3 st2 st1 st0. destruct cb as [inp|]; [destruct (has_sink inp)|];
        reflexivity. }
    assert (Hl : log st3 = log st ++ retried_attempt cb params (calls st) k).
    { subst st3 st2 st1 st0 d. unfold retried_attempt.
      destruct cb as [inp|]; [destruct (has_sink inp)|]; cbn;
        rewrite <- ?app_assoc; reflexivity. }
    destruct (IH (S k) st3) as (e' & st' & Hrun & Hlast & Hcalls & Hlog).
    { lia. }
    { intros i Hi. rewrite Hc. destruct (Hq (S i)) as (e2 & He2 & Hq2); [lia|].
      exists e2. split; [|assumption].
      rewrite <- He2. f_equal. lia. }
    exists e', st'. split; [|split; [|split]].
    + cbn [retry_loop].
      unfold bind at 1. unfold get at 1. cbn beta iota.
      unfold bind at 1. unfold modify at 1. cbn beta iota.
      unfold bind at 1. unfold emit at 1, modify at 1. cbn beta iota.
      unfold try_catch, await. rewrite He, Hqe.
      replace (Z.of_nat k <? retries) with true
        by (symmetry; apply Z.ltb_lt; lia).
      cbn [andb].
      replace (Z.of_nat k + 1) with (Z.of_nat (S k)) by lia.
      rewrite <- Hrun.
      unfold bind at 1. unfold emit at 1, modify at 1. cbn beta iota.
      unfold bind at 1.
      destruct cb as [inp|]; cbn [option_map].
      * unfold sink, when. destruct (has_sink inp); reflexivity.
      * reflexivity.
    + rewrite <- Hlast, Hc. f_equal. lia.
    + rewrite Hcalls, Hc. lia.
    + rewrite Hlog, Hl, Hc. cbn [seq flat_map].
      rewrite flat_map_seq_shift, !Nat.add_0_r, <- !app_assoc.
      do 2 f_equal.
      rewrite (flat_map_ext
                 (fun j => retried_attempt cb params (calls st + S j) (k + S j))
                 (fun j => retried_attempt cb params (S (calls st) + j) (S k + j))).
      * do 3 f_equal. lia.
      * intros j. f_equal; lia.
Qed.

(** C1 (as amended).  When every attempt fails with a quota-class error
    and the ceiling [retries] is not negative, the wrapper makes exactly
    [retries + 1] calls; between attempt [k] and attempt [k + 1] it warns,
    tells the callback and sleeps [2 ^ k * 2000 + 1000] milliseconds
    (3000, 5000, 9000, ..., strictly increasing); and the failure it
    raises is the error of the last attempt itself, rethrown unchanged,
    which is a quota-class error and so is not the "Max retries
    exceeded" error. *)
Theorem retry_exhausted_rethrows_last_error
    (env : Env) (params : GenerateParams) (retries : Z)
    (cb : option AgentInput) (st : State) :
  0 <= retries ->
  all_quota env params (calls st) (Z.to_nat retries) ->
  exists e st',
    generateContentStreamWithRetry env params retries (option_map sink cb) st
      = (Raised e, st')
    /\ generateContentStream env (calls st + Z.to_nat retries) params = Raised e
    /\ e <> max_retries_exceeded
    /\ calls st' = (calls st + Z.to_nat (retries + 1))%nat
    /\ log st' = log st
         ++ flat_map (fun k => retried_attempt cb params (calls st + k) k)
                     (seq 0 (Z.to_nat retries))
         ++ [EvAttempt (calls st + Z.to_nat retries) params]
    /\ (forall a b, 0 <= a < b -> retry_delay a < retry_delay b)
    /\ retry_delay 0 = 3000 /\ retry_delay 1 = 5000 /\ retry_delay 2 = 9000.
Proof.
  intros Hr Hq.
  destruct (retry_loop_all_quota env params retries cb
              (Z.to_nat retries) 0 st) as (e & st' & Hrun & Hlast & Hc & Hl).
  { lia. }
  { assumption. }
  exists e, st'. unfold generateContentStreamWithRetry.
  replace (Z.to_nat (retries + 1)) with (S (Z.to_nat retries)) by lia.
  split; [exact Hrun|]. split; [exact Hlast|]. split.
  { intros ->. destruct (Hq (Z.to_nat retries)) as (e2 & He2 & Hq2); [lia|].
    rewrite Hlast in He2. injection He2 as <-.
    rewrite max_retries_not_quota in Hq2. discriminate. }
  split; [lia|]. split; [exact Hl|].
  split; [exact retry_delay_increasing|]. exact retry_delay_values.
Qed.

Lemma retry_exhausted_witness :
  exists e st',
    generateContentStreamWithRetry quota_env (plain_params (ContentsText []))
      3 (option_map sink (Some sample_input)) (initial_state sample_input)
      = (Raised e, st')
    /\ e = quota_error
    /\ calls st' = 4%nat.
Proof.
  destruct (retry_exhausted_rethrows_last_error quota_env
              (plain_params (ContentsText [])) 3 (Some sample_input)
              (initial_state sample_input))
    as (e & st' & Hrun & Hlast & _ & Hc & _).
  - lia.
  - intros i _. exists quota_error. split; reflexivity.
  - exists e, st'. split; [exact Hrun|]. split; [|exact Hc].
    cbn in Hlast. congruence.
Defined.

(** C1 as stated fails: with the default ceiling 3 and a service that
    is out of quota on every call, the wrapper makes its four attempts
    and then raises the service's own error, not "Max retries
    exceeded". *)
Lemma retry_exhausted_counterexample :
  all_quota quota_env (plain_params (ContentsText [])) 0 3
  /\ fst (generateContentStreamWithRetry quota_env
            (plain_params (ContentsText [])) 3 None
            (initial_state sample_input))
     = Raised quota_error
  /\ @Raised Stream quota_error <> Raised max_retries_exceeded.
Proof.
  split; [|split].
  - intros i _. exists quota_error. split; reflexivity.
  - vm_compute. reflexivity.
  - discriminate.
Qed.

(** X13: an error that is not of the quota class is not retried: one
    call, no sleep, and the error is raised as it is. *)
Lemma retry_other_error (env : Env) (params : GenerateParams) (retries : Z)
    (onRetry : option (jsstring -> M unit)) (st : State) (e : Thrown) :
  0 <= retries ->
  generateContentStream env (calls st) params = Raised e ->
  isQuotaError e = false ->
  generateContentStreamWithRetry env params retries onRetry st
  = (Raised e,
     add_event (EvAttempt (calls st) params) (set_calls (S (calls st)) st)).
Proof.
  intros Hr He Hq. unfold generateContentStreamWithRetry.
  replace (Z.to_nat (retries + 1)) with (S (Z.to_nat retries)) by lia.
  cbn [retry_loop].
  unfold bind, get, modify, emit, try_catch, await, throw. cbn.
  rewrite He, Hq. reflexivity.
Qed.


(* ================================================================== *)
(** * How the log grows *)
(* ================================================================== *)

Lemma linked_app (a b c : jsstring) (e1 e2 : list Event) :
  linked a e1 b -> linked b e2 c -> linked a (e1 ++ e2) c.
Proof.
  revert a. induction e1 as [|ev e1 IH]; intros a H1 H2; cbn in H1 |- *.
  - subst b. exact H2.
  - destruct ev; try (apply IH; assumption).
    destruct H1 as [-> H1]. split; [reflexivity | apply IH; assumption].
Qed.

Section Grows.

Context {P : Event -> Prop}.

Lemma grows_nothing {A} (m : M A) :
  (forall st, snd (m st) = st) -> grows P m.
Proof.
  intros H st. exists []. rewrite H, app_nil_r. cbn. auto.
Qed.

Lemma grows_ret {A} (a : A) : grows P (ret a).
Proof. apply grows_nothing. reflexivity. Qed.

Lemma grows_throw {A} (e : Thrown) : grows P (@throw A e).
Proof. apply grows_nothing. reflexivity. Qed.

Lemma grows_await {A} (o : Outcome A) : grows P (await o).
Proof. apply grows_nothing. reflexivity. Qed.

Lemma grows_get : grows P get.
Proof. apply grows_nothing. reflexivity. Qed.

Lemma grows_modify (f : State -> State) :
  (forall st, log (f st) = log st) ->
  (forall st, finalResponseText (f st) = finalResponseText st) ->
  grows P (modify f).
Proof.
  intros Hl Ht st. exists []. cbn. rewrite Hl, Ht, app_nil_r. auto.
Qed.

Lemma grows_emit (ev : Event) :
  P ev -> is_text_write ev = false -> grows P (emit ev).
Proof.
  intros H Hw st. exists [ev]. cbn. repeat split; [auto|].
  destruct ev; try reflexivity. discriminate Hw.
Qed.

Lemma grows_bind {A B} (m : M A) (f : A -> M B) :
  grows P m -> (forall a, grows P (f a)) -> grows P (bind m f).
Proof.
  intros Hm Hf st. unfold bind.
  destruct (Hm st) as (e1 & Hl1 & HP1 & Ht1).
  destruct (m st) as [[a|e] st1]; cbn in Hl1, Ht1.
  - destruct (Hf a st1) as (e2 & Hl2 & HP2 & Ht2).
    exists (e1 ++ e2). rewrite Hl2, Hl1, app_assoc. split; [reflexivity|].
    split; [apply Forall_app; auto|]. exact (linked_app _ _ _ _ _ Ht1 Ht2).
  - exists e1. auto.
Qed.

Lemma grows_try_catch {A} (m : M A) (h : Thrown -> M A) :
  grows P m -> (forall e, grows P (h e)) -> grows P (try_catch m h).
Proof.
  intros Hm Hh st. unfold try_catch.
  destruct (Hm st) as (e1 & Hl1 & HP1 & Ht1).
  destruct (m st) as [[a|e] st1]; cbn in Hl1, Ht1.
  - exists e1. auto.
  - destruct (Hh e st1) as (e2 & Hl2 & HP2 & Ht2).
    exists (e1 ++ e2). rewrite Hl2, Hl1, app_assoc. split; [reflexivity|].
    split; [apply Forall_app; auto|]. exact (linked_app _ _ _ _ _ Ht1 Ht2).
Qed.

(** Awaiting a call, with its outcome remembered. *)
Lemma grows_bind_await {A B} (o : Outcome A) (f : A -> M B) :
  (forall a, o = Returned a -> grows P (f a)) -> grows P (bind (await o) f).
Proof.
  intros H st. unfold bind, await. destruct o as [a|e].
  - exact (H a eq_refl st).
  - exists []. rewrite app_nil_r. cbn. auto.
Qed.

Lemma grows_when (b : bool) (m : M unit) : grows P m -> grows P (when b m).
Proof. intros H. destruct b; [exact H | apply grows_ret]. Qed.

(** What [P] has to allow: the events of a turn other than the two
    bookkeeping ones, an assignment that appends, and the assignment by
    which the CANVAS handler adopts the canvas agent's text. *)
Variable env : Env.
Hypothesis P_plain :
  forall ev, is_dispatch ev = false -> is_text_write ev = false -> P ev.
Hypothesis P_append :
  forall a old t, a <> CANVAS -> P (EvText a old (old ++ t)).
Hypothesis P_canvas :
  forall p streamed canvasMessage rest old,
    runCanvasAgent env p = (streamed, Returned (canvasMessage :: rest)) ->
    P (EvText CANVAS old (or_empty (canvas_text canvasMessage))).

Lemma grows_plain (ev : Event) :
  is_dispatch ev = false -> is_text_write ev = false -> grows P (emit ev).
Proof. intros Hd Hw. apply grows_emit; auto. Qed.

Lemma grows_sink (input : AgentInput) (s : jsstring) : grows P (sink input s).
Proof. apply grows_when, grows_plain; reflexivity. Qed.

Lemma grows_append_text (a : RouterAction) (t : jsstring) :
  a <> CANVAS -> grows P (append_text a t).
Proof. intros Ha st. eexists [_]. cbn. repeat split. auto. Qed.

Lemma grows_push_grounding (g : list GroundingChunk) :
  grows P (push_grounding g).
Proof. apply grows_modify; reflexivity. Qed.

Lemma grows_return_message (input : AgentInput) (image : option jsstring) :
  grows P (return_message input image).
Proof. apply grows_bind; [apply grows_get | intros; apply grows_ret]. Qed.

Lemma grows_for_each_chunk {A}
    (body : Chunk -> A -> M A) (cs : list Chunk) :
  (forall c a, grows P (body c a)) ->
  forall a, grows P (for_each_chunk body cs a).
Proof.
  intros Hb. induction cs as [|c cs IH]; intros a; cbn.
  - apply grows_ret.
  - apply grows_bind; auto.
Qed.

Lemma grows_for_await {A}
    (body : Chunk -> A -> M A) (response : Stream) (a : A) :
  (forall c a, grows P (body c a)) -> grows P (for_await body response a).
Proof.
  intros Hb. apply grows_bind.
  - apply grows_for_each_chunk; assumption.
  - intros a'. destruct (stream_failure response);
      [apply grows_throw | apply grows_ret].
Qed.

Lemma grows_retry_loop (params : GenerateParams) (retries : Z)
    (onRetry : option (jsstring -> M unit)) :
  (forall f msg, onRetry = Some f -> grows P (f msg)) ->
  forall remaining attempt,
    grows P (retry_loop env params retries onRetry remaining attempt).
Proof.
  intros Hcb. induction remaining as [|n IH]; intros attempt; cbn [retry_loop].
  - apply grows_throw.
  - apply grows_bind; [apply grows_get|]. intros st.
    apply grows_bind; [apply grows_modify; reflexivity|]. intros _.
    apply grows_bind; [apply grows_plain; reflexivity|]. intros _.
    apply grows_try_catch; [apply grows_await|]. intros e.
    destruct (isQuotaError e && (attempt <? retries)); [|apply grows_throw].
    apply grows_bind; [apply grows_plain; reflexivity|]. intros _.
    apply grows_bind.
    { destruct onRetry as [f|]; [apply (Hcb f); reflexivity | apply grows_ret]. }
    intros _.
    apply grows_bind; [apply grows_plain; reflexivity|]. intros _.
    apply IH.
Qed.

Lemma grows_stream_with_retry (input : AgentInput) (params : GenerateParams) :
  grows P (stream_with_retry env input params).
Proof.
  apply grows_retry_loop. intros f msg [= <-]. apply grows_sink.
Qed.

Lemma grows_sink_each (input : AgentInput) (wrap : jsstring -> jsstring)
    (l : list jsstring) :
  grows P (fold_right (fun msg k => sink input (wrap msg) ;; k) (ret tt) l).
Proof.
  induction l as [|x l IH]; cbn.
  - apply grows_ret.
  - apply grows_bind; [apply grows_sink | intros _; exact IH].
Qed.

Lemma grows_read_files (fs : list AttachedFile) :
  forall userParts, grows P (read_files fs userParts).
Proof.
  induction fs as [|f fs IH]; intros userParts; cbn.
  - apply grows_ret.
  - apply grows_bind; [apply grows_await | intros url; apply IH].
Qed.

Lemma grows_text_chunk (input : AgentInput) (a : RouterAction)
    (c : Chunk) (u : unit) :
  a <> CANVAS -> grows P (text_chunk input a c u).
Proof.
  intros Ha.
  unfold text_chunk. destruct (chunk_text_truthy c); [|apply grows_ret].
  apply grows_bind; [apply grows_append_text, Ha | intros _; apply grows_sink].
Qed.

Lemma grows_search_chunk (input : AgentInput) (c : Chunk) (u : unit) :
  grows P (search_chunk input c u).
Proof.
  unfold search_chunk. apply grows_bind.
  - destruct (chunk_text_truthy c); [|apply grows_ret].
    apply grows_bind;
      [apply grows_append_text; discriminate | intros _; apply grows_sink].
  - intros _. destruct (chunk_grounding c);
      [apply grows_push_grounding | apply grows_ret].
Qed.

Lemma grows_simple_chunk (input : AgentInput) (c : Chunk) (g : jsstring) :
  grows P (simple_chunk input c g).
Proof.
  unfold simple_chunk. destruct (chunk_text_truthy c); [|apply grows_ret].
  apply grows_bind; [apply grows_append_text; discriminate | intros _].
  apply grows_bind; [apply grows_sink | intros _].
  apply grows_bind; [|intros _; apply grows_ret].
  destruct (chunk_grounding c); [apply grows_push_grounding | apply grows_ret].
Qed.

Ltac grows_auto :=
  repeat first
    [ apply grows_sink | apply grows_append_text; discriminate
    | apply grows_push_grounding | apply grows_return_message
    | apply grows_for_await; intros ? ?
    | apply grows_text_chunk; discriminate | apply grows_search_chunk
    | apply grows_simple_chunk
    | apply grows_stream_with_retry | apply grows_sink_each
    | apply grows_read_files | apply grows_when
    | apply grows_plain; reflexivity
    | apply grows_modify; reflexivity
    | apply grows_ret | apply grows_throw | apply grows_await
    | apply grows_get
    | apply grows_try_catch; [|intros ?]
    | apply grows_bind; [|intros ?]
    | match goal with
      | |- grows _ (match ?x with _ => _ end) => destruct x
      end ].

Section Handler.

Variable input : AgentInput.
Variables memoryContext dateTimeContext : jsstring.

Lemma grows_handle_CANVAS :
  grows P (handle_CANVAS env input).
Proof.
  unfold handle_CANVAS. apply grows_bind; [apply grows_get | intros st].
  destruct (runCanvasAgent env (currentPrompt st))
    as [streamed outcome] eqn:E.
  apply grows_bind; [apply (grows_sink_each input (fun x => x)) | intros _].
  apply grows_bind_await. intros canvasMessages ->.
  destruct canvasMessages as [|canvasMessage rest]; [apply grows_throw|].
  apply grows_bind; [|intros _; apply grows_return_message].
  intros st1. eexists [_]. cbn. repeat split.
  constructor; [|constructor].
  exact (P_canvas _ _ _ _ _ E).
Qed.

Lemma grows_handler (a : RouterAction) :
  grows P (handler env input memoryContext dateTimeContext a).
Proof.
  destruct a; cbn [handler].
  - unfold handle_SEARCH. grows_auto.
  - unfold handle_DEEP_SEARCH. grows_auto.
  - unfold handle_THINK. grows_auto.
  - unfold handle_IMAGE. grows_auto.
  - apply grows_handle_CANVAS.
  - unfold handle_PROJECT. grows_auto.
  - unfold handle_STUDY. grows_auto.
  - unfold handle_SIMPLE. grows_auto.
Qed.

End Handler.

End Grows.

(* ================================================================== *)
(** * What a handler returns *)
(* ================================================================== *)

Section Returns.

Context {A : Type} (Q : A -> Prop).

Lemma returns_ret (a : A) : Q a -> returns Q (ret a).
Proof. intros H st a' st' [= <- _]. exact H. Qed.

Lemma returns_throw (e : Thrown) : returns Q (throw e).
Proof. intros st a st' H. discriminate H. Qed.

Lemma returns_bind {B} (m : M B) (f : B -> M A) :
  (forall b, returns Q (f b)) -> returns Q (bind m f).
Proof.
  intros Hf st a st'. unfold bind.
  destruct (m st) as [[b|e] st1]; [apply Hf | discriminate].
Qed.

Lemma returns_try_catch (m : M A) (h : Thrown -> M A) :
  returns Q m -> (forall e, returns Q (h e)) -> returns Q (try_catch m h).
Proof.
  intros Hm Hh st a st'. unfold try_catch.
  destruct (m st) as [[b|e] st1] eqn:E.
  - intros [= <- <-]. exact (Hm _ _ _ E).
  - apply Hh.
Qed.

End Returns.

Lemma returns_return_message (input : AgentInput) (image : option jsstring) :
  returns (ctl_addressed input) (return_message input image).
Proof.
  apply returns_bind. intros st. apply returns_ret.
  eexists. split; [reflexivity|]. repeat split.
Qed.

Ltac returns_auto :=
  repeat first
    [ apply returns_return_message
    | apply returns_throw
    | apply returns_ret; exact I
    | apply returns_try_catch; [|intros ?]
    | apply returns_bind; intros ?
    | match goal with
      | |- returns _ (match ?x with _ => _ end) => destruct x
      end ].

Lemma returns_handler (env : Env) (input : AgentInput)
    (memoryContext dateTimeContext : jsstring) (a : RouterAction) :
  returns (ctl_addressed input)
    (handler env input memoryContext dateTimeContext a).
Proof.
  destruct a; cbn [handler];
    [ unfold handle_SEARCH | unfold handle_DEEP_SEARCH | unfold handle_THINK
    | unfold handle_IMAGE | unfold handle_CANVAS | unfold handle_PROJECT
    | unfold handle_STUDY | unfold handle_SIMPLE ];
    returns_auto.
Qed.

Lemma returns_while_loop (env : Env) (input : AgentInput)
    (memoryContext dateTimeContext : jsstring) (n : nat) :
  returns (single_addressed input)
    (while_loop env input memoryContext dateTimeContext n).
Proof.
  induction n as [|n IH]; cbn [while_loop].
  - apply returns_bind. intros st. apply returns_ret.
    eexists. split; [reflexivity|]. repeat split.
  - intros st r st'. unfold bind at 1.
    destruct (iteration env input memoryContext dateTimeContext st)
      as [[[r0|]|e] st1] eqn:E; [| |discriminate].
    + intros [= <- <-]. revert E. unfold iteration.
      intros E.
      refine (returns_bind (ctl_addressed input) _ _ _ _ _ _ E).
      intros _. apply returns_bind. intros st2. apply returns_bind. intros _.
      apply returns_handler.
    + apply IH.
Qed.

(** C10.  Every message of the result of [runAutonomousAgent] -- from a
    handler, from the return after the loop, or from the [catch] block
    -- has sender ['ai'] and the project id and chat id of the turn;
    and there is exactly one. *)
Theorem result_messages_addressed (env : Env) (input : AgentInput) :
  Forall (addressed input) (messages (runAutonomousAgent env input))
  /\ length (messages (runAutonomousAgent env input)) = 1%nat.
Proof.
  assert (H : single_addressed input (runAutonomousAgent env input)).
  { unfold runAutonomousAgent, runAutonomousAgent_traced.
    destruct (try_block env input (initial_state input))
      as [[r|e] st] eqn:E; cbn [fst].
    - revert E. unfold try_block. intros E.
      refine (returns_bind (single_addressed input) _ _ _ _ _ _ E).
      intros routing. apply returns_bind. intros mc. apply returns_bind.
      intros _. apply returns_while_loop.
    - eexists. split; [reflexivity|]. repeat split. }
  destruct H as (m & -> & Hm). split; [|reflexivity].
  constructor; [exact Hm | constructor].
Qed.

(* ================================================================== *)
(** * The orchestration loop *)
(* ================================================================== *)

(** The [try] block once the router and the memory store have
    answered. *)
Lemma try_block_run (env : Env) (input : AgentInput)
    (routing : Routing) (mc : jsstring) :
  route env (prompt input) (user_id input) (length (files input))
    = Returned routing ->
  getContext env = Returned mc ->
  try_block env input (initial_state input)
  = while_loop env input mc
      (lit "[CURRENT DATE & TIME]" ++ nl ++ formatTimestamp env ++ nl)
      MAX_LOOPS
      (set_redirect (action routing) (prompt input)
         (parameters_prompt routing) (initial_state input)).
Proof.
  intros Hroute Hctx. unfold try_block.
  unfold bind at 1, await at 1. rewrite Hroute.
  unfold bind at 1, await at 1. rewrite Hctx.
  reflexivity.
Qed.

Lemma while_loop_step (env : Env) (input : AgentInput) (mc dt : jsstring)
    (n : nat) (st : State) :
  while_loop env input mc dt (S n) st
  = match iteration env input mc dt st with
    | (Returned (Return r), st') => (Returned r, st')
    | (Returned Continue, st') => while_loop env input mc dt n st'
    | (Raised e, st') => (Raised e, st')
    end.
Proof.
  cbn [while_loop]. unfold bind at 1.
  destruct (iteration env input mc dt st) as [[[r|]|e] st']; reflexivity.
Qed.

Lemma iteration_run (env : Env) (input : AgentInput) (mc dt : jsstring)
    (st : State) :
  iteration env input mc dt st
  = handler env input mc dt (currentAction st)
      (add_event (EvDispatch (currentAction st) (currentPrompt st))
         (set_loopCount (S (loopCount st)) st)).
Proof. reflexivity. Qed.

Lemma dispatches_app (l1 l2 : list Event) :
  dispatches (l1 ++ l2) = dispatches l1 ++ dispatches l2.
Proof. apply flat_map_app. Qed.

Lemma dispatches_none (l : list Event) :
  Forall (fun ev => is_dispatch ev = false) l -> dispatches l = [].
Proof.
  induction 1 as [|ev l Hev _ IH]; [reflexivity|].
  destruct ev; try discriminate Hev; exact IH.
Qed.

(** A handler never writes a dispatch entry: only the loop does. *)
Lemma handler_no_dispatch (env : Env) (input : AgentInput)
    (mc dt : jsstring) (a : RouterAction) :
  grows (fun ev => is_dispatch ev = false) (handler env input mc dt a).
Proof. apply grows_handler; intros; auto. Qed.

Lemma iteration_dispatches_once (env : Env) (input : AgentInput)
    (mc dt : jsstring) (st : State) :
  dispatches (log (snd (iteration env input mc dt st)))
  = dispatches (log st) ++ [(currentAction st, currentPrompt st)].
Proof.
  unfold iteration, bind, modify, get, emit. cbn.
  set (st1 := add_event _ _).
  destruct (handler_no_dispatch env input mc dt (currentAction st) st1)
    as (evs & Hl & Hevs & _).
  destruct (handler env input mc dt (currentAction st) st1) as [[c|e] st2];
    cbn in Hl |- *; rewrite Hl; subst st1; cbn;
    rewrite !dispatches_app, (dispatches_none evs Hevs), app_nil_r;
    reflexivity.
Qed.

Lemma while_loop_dispatches (env : Env) (input : AgentInput)
    (mc dt : jsstring) (n : nat) :
  forall st, exists more,
    dispatches (log (snd (while_loop env input mc dt n st)))
    = dispatches (log st) ++ more
    /\ (length more <= n)%nat.
Proof.
  induction n as [|n IH]; intros st; cbn [while_loop].
  - exists []. rewrite app_nil_r. split; [reflexivity | cbn; lia].
  - pose proof (iteration_dispatches_once env input mc dt st) as Hi.
    unfold bind at 1.
    destruct (iteration env input mc dt st) as [[[r|]|e] st1]; cbn in Hi.
    + eexists [_]. split; [exact Hi | cbn; lia].
    + destruct (IH st1) as (more & Hm & Hlen).
      eexists (_ :: more). rewrite Hm, Hi, <- app_assoc.
      split; [reflexivity | cbn; lia].
    + eexists [_]. split; [exact Hi | cbn; lia].
Qed.

Lemma try_block_dispatches (env : Env) (input : AgentInput) :
  (length (dispatches (log (snd (try_block env input (initial_state input)))))
   <= MAX_LOOPS)%nat.
Proof.
  unfold try_block, bind at 1, await at 1.
  destruct (route env _ _ _) as [routing|e]; [|cbn; lia].
  unfold bind at 1, await at 1.
  destruct (getContext env) as [mc|e]; [|cbn; lia].
  unfold bind at 1, modify at 1.
  destruct (while_loop_dispatches env input mc
              (lit "[CURRENT DATE & TIME]" ++ nl ++ formatTimestamp env ++ nl)
              MAX_LOOPS
              (set_redirect (action routing) (prompt input)
                 (parameters_prompt routing) (initial_state input)))
    as (more & Hm & Hlen).
  rewrite Hm. cbn [set_redirect log initial_state dispatches flat_map app].
  exact Hlen.
Qed.

Lemma while_loop_falls_through (env : Env) (input : AgentInput)
    (mc dt : jsstring) (n : nat) :
  forall st st',
    all_continue env input mc dt n st = Some st' ->
    while_loop env input mc dt n st
    = (Returned {| messages := [message_of input None st'] |}, st').
Proof.
  induction n as [|n IH]; intros st st'; cbn [all_continue while_loop].
  - intros [= <-]. reflexivity.
  - unfold bind at 1.
    destruct (iteration env input mc dt st) as [[[r|]|e] st1];
      try discriminate.
    apply IH.
Qed.

(* ------------------------------------------------------------------ *)
(** ** The loop counter

    The loop of the model recurses on the number of iterations it has
    left; the loop of the source tests [loopCount < MAX_LOOPS].  The two
    agree because only the head of an iteration touches [loopCount]. *)

Section Preserves.

Context {T : Type} (proj : State -> T).

Lemma preserves_nothing {A} (m : M A) :
  (forall st, snd (m st) = st) -> preserves proj m.
Proof. intros H st. rewrite H. reflexivity. Qed.

Lemma preserves_modify (f : State -> State) :
  (forall st, proj (f st) = proj st) -> preserves proj (modify f).
Proof. intros H st. apply H. Qed.

Lemma preserves_bind {A B} (m : M A) (f : A -> M B) :
  preserves proj m -> (forall a, preserves proj (f a)) ->
  preserves proj (bind m f).
Proof.
  intros Hm Hf st. unfold bind. specialize (Hm st).
  destruct (m st) as [[a|e] st1]; cbn in Hm |- *.
  - rewrite Hf. exact Hm.
  - exact Hm.
Qed.

Lemma preserves_try_catch {A} (m : M A) (h : Thrown -> M A) :
  preserves proj m -> (forall e, preserves proj (h e)) ->
  preserves proj (try_catch m h).
Proof.
  intros Hm Hh st. unfold try_catch. specialize (Hm st).
  destruct (m st) as [[a|e] st1]; cbn in Hm |- *.
  - exact Hm.
  - rewrite Hh. exact Hm.
Qed.

End Preserves.

Ltac preserves_auto :=
  repeat first
    [ apply preserves_nothing; reflexivity
    | apply preserves_modify; reflexivity
    | apply preserves_try_catch; [|intros ?]
    | apply preserves_bind; [|intros ?]
    | match goal with
      | |- preserves _ (match ?x with _ => _ end) => destruct x
      | |- preserves _ (when ?b _) => destruct b; cbn [when]
      | |- preserves _ (append_text _ _) => intros ?; reflexivity
      | |- preserves _ (assign_text _ _) => intros ?; reflexivity
      end ].

Lemma loopCount_for_each_chunk {A} (body : Chunk -> A -> M A)
    (cs : list Chunk) :
  (forall c a, preserves loopCount (body c a)) ->
  forall a, preserves loopCount (for_each_chunk body cs a).
Proof.
  intros Hb. induction cs as [|c cs IH]; intros a; cbn [for_each_chunk];
    preserves_auto; auto.
Qed.

Lemma loopCount_sink (input : AgentInput) (s : jsstring) :
  preserves loopCount (sink input s).
Proof. unfold sink, emit. preserves_auto. Qed.

Lemma loopCount_sink_each (input : AgentInput) (wrap : jsstring -> jsstring)
    (l : list jsstring) :
  preserves loopCount
    (fold_right (fun msg k => sink input (wrap msg) ;; k) (ret tt) l).
Proof.
  induction l as [|x l IH]; cbn [fold_right]; preserves_auto.
  - apply loopCount_sink.
  - exact IH.
Qed.

Lemma loopCount_read_files (fs : list AttachedFile) :
  forall userParts, preserves loopCount (read_files fs userParts).
Proof.
  induction fs as [|f fs IH]; intros userParts; cbn [read_files];
    preserves_auto. apply IH.
Qed.

Lemma loopCount_stream_with_retry (env : Env) (input : AgentInput)
    (params : GenerateParams) :
  preserves loopCount (stream_with_retry env input params).
Proof.
  unfold stream_with_retry, generateContentStreamWithRetry.
  generalize (Z.to_nat (3 + 1)), 0.
  intros n. induction n as [|n IH]; intros attempt; cbn [retry_loop].
  - preserves_auto.
  - unfold emit. preserves_auto.
    + apply loopCount_sink.
    + apply IH.
Qed.

Lemma loopCount_handler (env : Env) (input : AgentInput) (mc dt : jsstring)
    (a : RouterAction) :
  preserves loopCount (handler env input mc dt a).
Proof.
  destruct a; cbn [handler];
    [ unfold handle_SEARCH | unfold handle_DEEP_SEARCH | unfold handle_THINK
    | unfold handle_IMAGE | unfold handle_CANVAS | unfold handle_PROJECT
    | unfold handle_STUDY | unfold handle_SIMPLE ];
    unfold for_await, return_message, emit;
    repeat first
      [ apply loopCount_sink | apply loopCount_stream_with_retry
      | apply loopCount_read_files
      | apply (loopCount_sink_each input (fun x => x))
      | apply loopCount_sink_each
      | apply loopCount_for_each_chunk; intros ? ?;
        unfold search_chunk, text_chunk, simple_chunk, push_grounding
      | progress preserves_auto ].
Qed.

(** One iteration adds one to [loopCount]. *)
Lemma iteration_counts (env : Env) (input : AgentInput) (mc dt : jsstring)
    (st : State) :
  loopCount (snd (iteration env input mc dt st)) = S (loopCount st).
Proof.
  rewrite iteration_run, loopCount_handler. reflexivity.
Qed.

(** At every point of the loop, [loopCount] is the number of iterations
    started so far; so is it when the turn ends. *)
Lemma while_loop_counts (env : Env) (input : AgentInput) (mc dt : jsstring)
    (n : nat) :
  forall st,
    loopCount st = length (dispatches (log st)) ->
    loopCount (snd (while_loop env input mc dt n st))
    = length (dispatches (log (snd (while_loop env input mc dt n st)))).
Proof.
  induction n as [|n IH]; intros st Hst; [exact Hst|].
  rewrite while_loop_step.
  pose proof (iteration_counts env input mc dt st) as Hc.
  pose proof (iteration_dispatches_once env input mc dt st) as Hd.
  assert (Hst1 : loopCount (snd (iteration env input mc dt st))
                 = length (dispatches
                             (log (snd (iteration env input mc dt st))))).
  { rewrite Hc, Hd, length_app, Hst. cbn. lia. }
  destruct (iteration env input mc dt st) as [[[r|]|e] st1];
    cbn [snd] in Hst1 |- *; auto.
Qed.

Lemma turn_counts (env : Env) (input : AgentInput) :
  loopCount (snd (runAutonomousAgent_traced env input))
  = length (dispatches (log (snd (runAutonomousAgent_traced env input)))).
Proof.
  assert (H : loopCount (snd (try_block env input (initial_state input)))
              = length (dispatches
                          (log (snd (try_block env input
                                       (initial_state input)))))).
  { unfold try_block, bind at 1, await at 1.
    destruct (route env _ _ _) as [routing|e]; [|reflexivity].
    unfold bind at 1, await at 1.
    destruct (getContext env) as [mc|e]; [|reflexivity].
    unfold bind at 1, modify at 1. apply while_loop_counts. reflexivity. }
  unfold runAutonomousAgent_traced.
  destruct (try_block env input (initial_state input)) as [[r|e] st1];
    cbn [snd] in H |- *; [exact H|].
  cbn. rewrite dispatches_app, app_nil_r. exact H.
Qed.

(** C2.  A turn runs at most [MAX_LOOPS = 2] iterations of the loop,
    whatever the SIMPLE handler's output asks for: the log has at most
    two dispatches, and [loopCount] ends as their number.  And when the
    iterations that the loop still has all end with [continue], the loop
    falls through to the [return] after it: the result is an ordinary
    result, one message carrying the text and the metadata accumulated
    so far, and nothing is raised. *)
Theorem loop_bounded_and_falls_through (env : Env) (input : AgentInput) :
  MAX_LOOPS = 2%nat
  /\ (length (dispatches (log (snd (runAutonomousAgent_traced env input))))
      <= MAX_LOOPS)%nat
  /\ loopCount (snd (runAutonomousAgent_traced env input))
     = length (dispatches (log (snd (runAutonomousAgent_traced env input))))
  /\ (forall mc dt n st st',
        all_continue env input mc dt n st = Some st' ->
        while_loop env input mc dt n st
        = (Returned {| messages := [message_of input None st'] |}, st')
        /\ text (message_of input None st') = finalResponseText st'
        /\ groundingMetadata (message_of input None st') = metadataPayload st').
Proof.
  split; [reflexivity|]. split; [|split; [apply turn_counts|]].
  - pose proof (try_block_dispatches env input) as Hb.
    unfold runAutonomousAgent_traced.
    destruct (try_block env input (initial_state input)) as [[r|e] st1];
      cbn in Hb |- *; [exact Hb|].
    rewrite dispatches_app, app_nil_r. exact Hb.
  - intros mc dt n st st' H. split; [|split; reflexivity].
    apply while_loop_falls_through. exact H.
Qed.

Lemma loop_falls_through_witness :
  exists st',
    while_loop canvas_env sample_input [] [] (MAX_LOOPS - 1)
      (set_loopCount 1 (initial_state sample_input))
    = (Returned {| messages := [message_of sample_input None st'] |}, st')
    /\ finalResponseText st' = lit "<CANVAS>a clock</CANVAS>"
    /\ loopCount st' = MAX_LOOPS.
Proof.
  eexists.
  split; [|split].
  - apply (proj2 (proj2 (proj2 (loop_bounded_and_falls_through canvas_env
                                  sample_input)))
             [] [] (MAX_LOOPS - 1)%nat
             (set_loopCount 1 (initial_state sample_input))).
    vm_compute. reflexivity.
  - reflexivity.
  - reflexivity.
Defined.

(** C3 (as amended).  Every assignment to [finalResponseText] made
    during a turn by a handler other than CANVAS keeps the text that was
    there as a prefix of the new text; an assignment made by CANVAS
    replaces it with the text of the first message the canvas agent
    returned (the empty string when that message has none).  The
    assignments follow one another from the empty string: each starts
    from the text the previous one left. *)
Theorem text_appended_unless_canvas (env : Env) (input : AgentInput) :
  Forall (appends_or_adopts env)
    (log (snd (runAutonomousAgent_traced env input)))
  /\ linked [] (log (snd (runAutonomousAgent_traced env input)))
       (finalResponseText (snd (runAutonomousAgent_traced env input))).
Proof.
  assert (Hg : grows (appends_or_adopts env) (try_block env input)).
  { unfold try_block.
    apply grows_bind; [apply grows_await | intros routing].
    apply grows_bind; [apply grows_await | intros mc].
    apply grows_bind; [apply grows_modify; reflexivity | intros _].
    generalize MAX_LOOPS. intros n. induction n as [|n IH]; cbn [while_loop].
    - apply grows_bind; [apply grows_get | intros; apply grows_ret].
    - apply grows_bind.
      + unfold iteration.
        apply grows_bind; [apply grows_modify; reflexivity | intros _].
        apply grows_bind; [apply grows_get | intros st].
        apply grows_bind; [apply grows_emit; [exact I | reflexivity] | intros _].
        apply grows_handler.
        * intros ev Hd Ht. destruct ev; try exact I. discriminate Ht.
        * intros a old t Ha. assert (old `prefix_of` old ++ t)
            by (apply prefix_app_r; reflexivity).
          destruct a; cbn; try assumption. contradiction.
        * intros p streamed canvasMessage rest old E. cbn.
          exists p, streamed, canvasMessage, rest. split; [exact E|reflexivity].
      + intros [r|]; [apply grows_ret | exact IH]. }
  destruct (Hg (initial_state input)) as (evs & Hl & Hevs & Hlink).
  unfold runAutonomousAgent_traced.
  destruct (try_block env input (initial_state input)) as [[r|e] st1];
    cbn in Hl, Hlink |- *; rewrite Hl; cbn.
  - split; assumption.
  - split.
    + apply Forall_app. split; [exact Hevs|]. constructor; [exact I|constructor].
    + apply (linked_app _ _ _ _ _ Hlink). reflexivity.
Qed.

(** C3 as stated fails for CANVAS: the SIMPLE handler streams a reply
    that asks for a canvas, and the CANVAS handler then replaces that
    text with the canvas agent's. *)
Lemma canvas_rewrites_text_counterexample :
  ~ Forall appends (log (snd (runAutonomousAgent_traced canvas_env sample_input)))
  /\ In (EvText CANVAS (lit "<CANVAS>a clock</CANVAS>") (lit "<html></html>"))
        (log (snd (runAutonomousAgent_traced canvas_env sample_input)))
  /\ ~ lit "<CANVAS>a clock</CANVAS>" `prefix_of` lit "<html></html>"
  /\ map text (messages (runAutonomousAgent canvas_env sample_input))
     = [lit "<html></html>"].
Proof.
  assert (Hin : In (EvText CANVAS (lit "<CANVAS>a clock</CANVAS>")
                      (lit "<html></html>"))
                   (log (snd (runAutonomousAgent_traced canvas_env
                                sample_input))))
    by (vm_compute; tauto).
  assert (Hno : ~ lit "<CANVAS>a clock</CANVAS>" `prefix_of` lit "<html></html>").
  { intros [k Hk]. vm_compute in Hk. discriminate Hk. }
  split; [|split; [exact Hin | split; [exact Hno|]]].
  - intros H. apply Hno.
    exact (proj1 (List.Forall_forall appends _) H _ Hin).
  - vm_compute. reflexivity.
Qed.

(* ================================================================== *)
(** * The top-level [catch] and the image handler *)
(* ================================================================== *)

(** C6.  [runAutonomousAgent] always returns a result.  When the [try]
    block raises an error, the result is the single message of the
    [catch] block, whose text is "An error occurred: " followed by the
    user-friendly rendering of that error; it has no image and no
    metadata. *)
Theorem top_level_catch (env : Env) (input : AgentInput)
    (error : Thrown) (st : State) :
  try_block env input (initial_state input) = (Raised error, st) ->
  exists m,
    runAutonomousAgent env input = {| messages := [m] |}
    /\ text m = lit "An error occurred: " ++ getUserFriendlyError env error
    /\ lit "An error occurred: " `prefix_of` text m
    /\ image_base64 m = None /\ groundingMetadata m = None
    /\ addressed input m.
Proof.
  intros H. exists (error_message env input error).
  unfold runAutonomousAgent, runAutonomousAgent_traced. rewrite H.
  split; [reflexivity|]. split; [reflexivity|].
  split; [apply prefix_app_r; reflexivity|].
  repeat split.
Qed.

Lemma top_level_catch_witness :
  exists m,
    runAutonomousAgent failing_env sample_input = {| messages := [m] |}
    /\ text m = lit "An error occurred: Internal error".
Proof.
  destruct (top_level_catch failing_env sample_input server_error
              (snd (try_block failing_env sample_input
                      (initial_state sample_input))))
    as (m & Hrun & Htext & _).
  - vm_compute. reflexivity.
  - exists m. split; [exact Hrun | exact Htext].
Defined.

(** The IMAGE handler, entered on the first iteration of a turn. *)
Lemma image_turn (env : Env) (input : AgentInput)
    (parameters : option jsstring) (mc : jsstring) :
  route env (prompt input) (user_id input) (length (files input))
    = Returned {| action := IMAGE; parameters_prompt := parameters |} ->
  getContext env = Returned mc ->
  runAutonomousAgent env input
  = {| messages :=
        [match generateImage env (image_prompt parameters (prompt input)) with
         | Returned imageBase64 =>
             {| project_id := project_id_of input;
                chat_id := chat_id_of input; sender := lit "ai";
                text := []; image_base64 := Some imageBase64;
                groundingMetadata := None |}
         | Raised e =>
             {| project_id := project_id_of input;
                chat_id := chat_id_of input; sender := lit "ai";
                text := nl ++ nl ++ lit "(Image generation failed: " ++
                        match e with
                        | JsError _ m => m
                        | JsValue _ _ => lit "Unknown error"
                        end ++ lit ")";
                image_base64 := None; groundingMetadata := None |}
         end] |}.
Proof.
  intros Hroute Hctx.
  unfold runAutonomousAgent, runAutonomousAgent_traced.
  rewrite (try_block_run env input _ mc Hroute Hctx).
  unfold MAX_LOOPS. rewrite while_loop_step, iteration_run.
  cbn [action parameters_prompt set_redirect set_loopCount currentAction
       currentPrompt handler].
  unfold handle_IMAGE.
  unfold bind, get, when, try_catch, await, emit, modify, return_message, ret,
    append_text, sink, when, emit, modify.
  cbn -[image_prompt lit nl app].
  destruct (has_sink input); cbn -[image_prompt lit nl app];
    (destruct (generateImage env (image_prompt parameters (prompt input)))
       as [img|e]; reflexivity).
Qed.

(** C8.  In a turn routed to IMAGE: when the image generator succeeds,
    the single message of the result carries the generated image and an
    empty text (so no failure note); when it raises [Error(message)],
    nothing is raised, the message has no image, and its text is the
    note "(Image generation failed: message)" after two line feeds --
    with "rate limited" the text contains the literal
    "(Image generation failed: rate limited)". *)
Theorem image_handler_result (env : Env) (input : AgentInput)
    (parameters : option jsstring) (mc : jsstring) :
  route env (prompt input) (user_id input) (length (files input))
    = Returned {| action := IMAGE; parameters_prompt := parameters |} ->
  getContext env = Returned mc ->
  (forall imageBase64,
     generateImage env (image_prompt parameters (prompt input))
       = Returned imageBase64 ->
     exists m,
       runAutonomousAgent env input = {| messages := [m] |}
       /\ image_base64 m = Some imageBase64
       /\ text m = []
       /\ includes (lit "(Image generation failed") (text m) = false)
  /\ (forall status,
        generateImage env (image_prompt parameters (prompt input))
          = Raised (JsError status (lit "rate limited")) ->
        exists m,
          runAutonomousAgent env input = {| messages := [m] |}
          /\ image_base64 m = None
          /\ text m = nl ++ nl ++ lit "(Image generation failed: rate limited)"
          /\ includes (lit "(Image generation failed: rate limited)") (text m)
             = true).
Proof.
  intros Hroute Hctx. split.
  - intros img Himg. rewrite (image_turn env input parameters mc Hroute Hctx).
    rewrite Himg. eexists. split; [reflexivity|]. repeat split.
  - intros status Himg.
    rewrite (image_turn env input parameters mc Hroute Hctx).
    rewrite Himg. eexists. split; [reflexivity|]. repeat split.
Qed.

Lemma image_handler_witness :
  (exists m,
     runAutonomousAgent (cat_env (Returned (lit "iVBORw0KGgo="))) cat_input
       = {| messages := [m] |}
     /\ image_base64 m = Some (lit "iVBORw0KGgo=")
     /\ text m = []
     /\ includes (lit "(Image generation failed") (text m) = false)
  /\ (exists m,
        runAutonomousAgent
          (cat_env (Raised (JsError None (lit "rate limited")))) cat_input
          = {| messages := [m] |}
        /\ image_base64 m = None
        /\ text m = nl ++ nl ++ lit "(Image generation failed: rate limited)"
        /\ includes (lit "(Image generation failed: rate limited)") (text m)
           = true).
Proof.
  split.
  - apply (proj1 (image_handler_result
                    (cat_env (Returned (lit "iVBORw0KGgo="))) cat_input
                    (Some (lit "a cat")) (lit "{}") eq_refl eq_refl)).
    reflexivity.
  - apply (proj2 (image_handler_result
                    (cat_env (Raised (JsError None (lit "rate limited"))))
                    cat_input (Some (lit "a cat")) (lit "{}")
                    eq_refl eq_refl) None).
    reflexivity.
Defined.

(* ================================================================== *)
(** * Grounding metadata *)
(* ================================================================== *)

Lemma pushed_cons (old : option (list GroundingChunk))
    (g : list GroundingChunk) (gs : list (list GroundingChunk)) :
  pushed (Some (match old with Some l => l | None => [] end ++ g)) gs
  = pushed old (g :: gs).
Proof.
  destruct gs as [|g' gs]; cbn.
  - rewrite app_nil_r. reflexivity.
  - rewrite <- app_assoc. reflexivity.
Qed.

(** The streaming loop of SEARCH pushes the citations of every chunk,
    in arrival order, and never fails. *)
Lemma search_chunks_grounding (input : AgentInput) (cs : list Chunk) :
  forall st, exists st',
    for_each_chunk (search_chunk input) cs tt st = (Returned tt, st')
    /\ metadataPayload st' = pushed (metadataPayload st) (groundings cs).
Proof.
  induction cs as [|c cs IH]; intros st; cbn [for_each_chunk].
  - exists st. split; reflexivity.
  - unfold bind at 1.
    assert (Hc : exists st1,
               search_chunk input c tt st = (Returned tt, st1)
               /\ metadataPayload st1
                  = match chunk_grounding c with
                    | Some g =>
                        Some (match metadataPayload st with
                              | Some l => l | None => []
                              end ++ g)
                    | None => metadataPayload st
                    end).
    { unfold search_chunk, bind, append_text, sink, when, emit, modify,
        push_grounding, ret.
      destruct (chunk_text_truthy c), (has_sink input), (chunk_grounding c);
        eexists; split; reflexivity. }
    destruct Hc as (st1 & -> & Hm1).
    destruct (IH st1) as (st' & Hrun & Hm').
    exists st'. split; [exact Hrun|].
    rewrite Hm', Hm1. unfold groundings. cbn [omap list_omap].
    destruct (chunk_grounding c) as [g|]; [apply pushed_cons | reflexivity].
Qed.

(** The streaming loop of SIMPLE pushes the citations of the chunks
    that have text, and of no other chunk. *)
Lemma simple_chunks_grounding (input : AgentInput) (cs : list Chunk) :
  forall generated st, exists generated' st',
    for_each_chunk (simple_chunk input) cs generated st
      = (Returned generated', st')
    /\ metadataPayload st'
       = pushed (metadataPayload st) (groundings (List.filter has_text cs)).
Proof.
  induction cs as [|c cs IH]; intros generated st; cbn [for_each_chunk].
  - exists generated, st. split; reflexivity.
  - unfold bind at 1.
    assert (Hc : exists g1 st1,
               simple_chunk input c generated st = (Returned g1, st1)
               /\ metadataPayload st1
                  = if has_text c then
                      match chunk_grounding c with
                      | Some g =>
                          Some (match metadataPayload st with
                                | Some l => l | None => []
                                end ++ g)
                      | None => metadataPayload st
                      end
                    else metadataPayload st).
    { unfold has_text, simple_chunk, bind, append_text, sink, when, emit,
        modify, push_grounding, ret.
      destruct (chunk_text_truthy c), (has_sink input), (chunk_grounding c);
        do 2 eexists; split; reflexivity. }
    destruct Hc as (g1 & st1 & -> & Hm1).
    destruct (IH g1 st1) as (g' & st' & Hrun & Hm').
    exists g', st'. split; [exact Hrun|].
    rewrite Hm', Hm1. cbn [List.filter].
    destruct (has_text c); [|reflexivity].
    unfold groundings. cbn [omap list_omap].
    destruct (chunk_grounding c) as [g|]; [apply pushed_cons | reflexivity].
Qed.

(** C9 at the failing input.  The reply is a chunk of text followed by a
    chunk that has citations and no text.  Routed to SEARCH, the message
    carries the citations; routed to SIMPLE, the same reply loses them:
    the message has no [groundingMetadata] at all. *)
Theorem simple_drops_grounding_of_textless_chunk :
  map groundingMetadata
      (messages (runAutonomousAgent (grounded_env SEARCH) sample_input))
    = [Some [sample_source]]
  /\ map groundingMetadata
       (messages (runAutonomousAgent (grounded_env SIMPLE) sample_input))
     = [None]
  /\ groundings grounded_stream = [[sample_source]].
Proof. repeat split; vm_compute; reflexivity. Qed.

(* ================================================================== *)
(** * The THINK marker *)
(* ================================================================== *)

(** The fallback to the original prompt: a THINK marker with nothing
    between the tags, and a THINK opener without its closer. *)
Lemma think_empty_payload (prompt : jsstring) :
  detectRedirect (lit "<THINK></THINK>") prompt = Some (THINK, prompt)
  /\ detectRedirect (lit "<THINK>") prompt = Some (THINK, prompt)
  /\ detectRedirect (lit "Let me think. <THINK>") prompt = Some (THINK, prompt).
Proof. repeat split; vm_compute; reflexivity. Qed.

Lemma think_prompt_fallback (prompt : jsstring) :
  think_prompt None prompt = prompt /\ think_prompt (Some []) prompt = prompt.
Proof. split; reflexivity. Qed.

(** C4 at the failing input.  A THINK marker around one space: the
    payload is not empty, so it is trimmed and used, and the THINK
    handler is entered with the empty string as its prompt although the
    turn's prompt is "hello". *)
Theorem think_blank_payload_gives_empty_prompt :
  (forall prompt,
     detectRedirect (lit "<THINK> </THINK>") prompt = Some (THINK, []))
  /\ dispatches (log (snd (runAutonomousAgent_traced blank_think_env
                             sample_input)))
     = [(SIMPLE, lit "hello"); (THINK, [])]
  /\ prompt sample_input = lit "hello".
Proof.
  split; [|split].
  - intros prompt. vm_compute. reflexivity.
  - vm_compute. reflexivity.
  - reflexivity.
Qed.

(* ================================================================== *)
(** * Redirect detection *)
(* ================================================================== *)

Lemma starts_with_app (pat rest : jsstring) :
  starts_with cs_eq pat (pat ++ rest) = true.
Proof.
  induction pat as [|p pat IH]; cbn; [reflexivity|].
  unfold cs_eq at 1. rewrite N.eqb_refl. exact IH.
Qed.

Lemma starts_with_angle (pat s : jsstring) (c : N) :
  c <> 60%N -> starts_with cs_eq (60%N :: pat) (c :: s) = false.
Proof.
  intros H. cbn [starts_with]. unfold cs_eq at 1.
  destruct (N.eqb_spec 60 c) as [E|_]; [congruence | reflexivity].
Qed.

Lemma lazy_until_here (cls : N -> bool) (eq : N -> N -> bool)
    (closer : jsstring) (or_end : bool) (s : jsstring) :
  starts_with eq closer s = true ->
  lazy_until cls eq closer or_end s = Some (length closer, []).
Proof. intros H. destruct s; cbn [lazy_until]; rewrite H; reflexivity. Qed.

(** The lazy star reaches a closer that is there, whatever comes
    first, as long as the characters on the way are in the class. *)
Lemma lazy_until_complete (cls : N -> bool) (closer post : jsstring) :
  forall payload,
    forallb cls payload = true ->
    exists n g,
      lazy_until cls cs_eq closer false (payload ++ closer ++ post)
      = Some (n, g).
Proof.
  induction payload as [|c payload IH]; intros Hp.
  - exists (length closer), []. cbn [app].
    apply lazy_until_here, starts_with_app.
  - cbn in Hp. apply andb_prop in Hp as [Hc Hp].
    destruct (IH Hp) as (n & g & Hn).
    cbn [app lazy_until].
    destruct (starts_with cs_eq closer (c :: payload ++ closer ++ post)).
    + eauto.
    + rewrite Hc, Hn. eauto.
Qed.

(** With no [<] in the payload, the star takes exactly the payload. *)
Lemma lazy_until_exact (cls : N -> bool) (closer post : jsstring) :
  forall payload,
    forallb cls payload = true ->
    no_angle payload ->
    lazy_until cls cs_eq (60%N :: closer) false
      (payload ++ 60%N :: closer ++ post)
    = Some ((length payload + S (length closer))%nat, payload).
Proof.
  induction payload as [|c payload IH]; intros Hp Ha.
  - cbn [app length Nat.add]. apply lazy_until_here.
    apply (starts_with_app (60%N :: closer) post).
  - cbn in Hp, Ha. apply andb_prop in Hp as [Hc Hp].
    apply andb_prop in Ha as [Hc' Ha].
    change ((c :: payload) ++ 60%N :: closer ++ post)
      with (c :: (payload ++ 60%N :: closer ++ post)).
    cbn [lazy_until].
    rewrite starts_with_angle.
    + rewrite Hc, (IH Hp Ha). reflexivity.
    + intros ->. discriminate Hc'.
Qed.

Lemma exec_complete {G} (m : Matcher G) (s : jsstring) (r : nat * G) :
  m s = Some r -> forall pre, exists r', exec m (pre ++ s) = Some r'.
Proof.
  intros Hm. induction pre as [|c pre [r' IH]]; cbn [app].
  - destruct r as [n g]. destruct s; cbn [exec]; rewrite Hm; eauto.
  - cbn [exec]. destruct (m (c :: pre ++ s)) as [[n g]|]; [eauto|].
    rewrite IH. destruct r' as [[i n] g]. eauto.
Qed.

Lemma exec_skip {G} (m : Matcher G) (s : jsstring) :
  forall pre,
    (forall c rest, c <> 60%N -> m (c :: rest) = None) ->
    no_angle pre ->
    exec m (pre ++ s)
    = match exec m s with
      | Some (i, n, g) => Some ((length pre + i)%nat, n, g)
      | None => None
      end.
Proof.
  intros pre Hm. induction pre as [|c pre IH]; intros Ha; cbn [app length].
  - destruct (exec m s) as [[[i n] g]|]; reflexivity.
  - cbn in Ha. apply andb_prop in Ha as [Hc Ha].
    cbn [exec]. rewrite Hm, (IH Ha).
    + destruct (exec m s) as [[[i n] g]|]; reflexivity.
    + intros ->. discriminate Hc.
Qed.

(** A marker whose payload stays on one line is found by its
    expression, wherever it is in the text. *)
Lemma tag_found (opener closer : string) (pre payload post : jsstring) :
  one_line payload ->
  exists p,
    str_match (re_tag opener closer)
      (pre ++ marker opener closer payload ++ post) = Some p.
Proof.
  intros Hp. unfold str_match, marker.
  destruct (lazy_until_complete dot (lit closer) post payload Hp)
    as (n & g & Hn).
  destruct (exec_complete (re_tag opener closer)
              (lit opener ++ (payload ++ lit closer ++ post))
              ((length (lit opener) + n)%nat, g)) with (pre := pre)
    as [[[i k] p] Hr].
  - unfold re_tag, re_block. rewrite starts_with_app, drop_app_length, Hn.
    reflexivity.
  - exists p. rewrite <- !app_assoc. rewrite Hr. reflexivity.
Qed.

(** When there is no [<] before the marker nor in its payload, what the
    expression captures is the payload. *)
Lemma tag_payload (opener closer : jsstring) (pre payload post : jsstring) :
  no_angle pre -> no_angle payload -> one_line payload ->
  str_match (re_block dot cs_eq (60%N :: opener) (60%N :: closer) false)
    (pre ++ (60%N :: opener) ++ payload ++ (60%N :: closer) ++ post)
  = Some payload.
Proof.
  intros Hpre Hpay Hline. unfold str_match.
  rewrite exec_skip; [|
    intros c rest Hc; unfold re_block;
    rewrite starts_with_angle by exact Hc; reflexivity | exact Hpre].
  assert (Hm : re_block dot cs_eq (60%N :: opener) (60%N :: closer) false
                 ((60%N :: opener) ++ payload ++ (60%N :: closer) ++ post)
               = Some ((length (60%N :: opener)
                        + (length payload + S (length closer)))%nat,
                       payload)).
  { unfold re_block. rewrite starts_with_app, drop_app_length.
    change ((60%N :: closer) ++ post) with (60%N :: closer ++ post).
    rewrite (lazy_until_exact dot closer post payload Hline Hpay).
    reflexivity. }
  change ((60%N :: opener) ++ payload ++ (60%N :: closer) ++ post)
    with (60%N :: opener ++ payload ++ (60%N :: closer) ++ post) in Hm |- *.
  cbn [exec]. rewrite Hm. reflexivity.
Qed.

(** The chain of tests is the first match in the order of priority. *)
Lemma detectRedirect_first_match (g prompt : jsstring) :
  detectRedirect g prompt = first_match_wins g prompt priority_order.
Proof.
  unfold detectRedirect, priority_order. cbn [first_match_wins marker_prompt].
  destruct (deepMatch g); [reflexivity|].
  destruct (searchMatch g); [reflexivity|].
  destruct (thinkMatch g); [reflexivity|]. cbn [option_map].
  destruct (imageMatch g); [reflexivity|].
  destruct (projectMatch g); [reflexivity|].
  destruct (canvasMatch g); [reflexivity|].
  destruct (studyMatch g); reflexivity.
Qed.

(** A text with a one-line DEEP marker redirects to DEEP_SEARCH,
    whatever other markers it has. *)
Lemma deep_marker_wins (g prompt pre payload post : jsstring) :
  g = pre ++ marker "<DEEP>" "</DEEP>" payload ++ post ->
  one_line payload ->
  exists p, detectRedirect g prompt = Some (DEEP_SEARCH, p).
Proof.
  intros -> Hp. unfold detectRedirect, deepMatch.
  destruct (tag_found "<DEEP>" "</DEEP>" pre payload post Hp) as [p ->].
  exists p. reflexivity.
Qed.

Lemma bind_returned {A B} (m : M A) (f : A -> M B) (st st' : State) (b : B) :
  bind m f st = (Returned b, st') ->
  exists a st1, m st = (Returned a, st1) /\ f a st1 = (Returned b, st').
Proof.
  unfold bind. destruct (m st) as [[a|e] st1]; [eauto | discriminate].
Qed.

(** When the SIMPLE handler ends with [continue], the action and the
    prompt of the next iteration are those of the one marker that
    redirect detection picked in the text generated by this
    iteration. *)
Lemma simple_continue_is_one_redirect (env : Env) (input : AgentInput)
    (mc dt : jsstring) (st st' : State) :
  handle_SIMPLE env input mc dt st = (Returned Continue, st') ->
  exists generatedThisLoop,
    detectRedirect generatedThisLoop (prompt input)
    = Some (currentAction st', currentPrompt st').
Proof.
  unfold handle_SIMPLE. intros H.
  apply bind_returned in H as (st0 & st1 & _ & H).
  apply bind_returned in H as (userParts & st2 & _ & H).
  apply bind_returned in H as (response & st3 & _ & H).
  apply bind_returned in H as (g & st4 & _ & H).
  exists g.
  destruct (detectRedirect g (prompt input)) as [[a p]|].
  - apply bind_returned in H as ([] & st5 & Hm & Hr).
    injection Hm as <-. injection Hr as <-. reflexivity.
  - apply bind_returned in H as (st5 & st6 & _ & Hr). discriminate Hr.
Qed.

(** Redirect detection never sends the loop back to SIMPLE. *)
Lemma detectRedirect_not_simple (g prompt p : jsstring) :
  detectRedirect g prompt <> Some (SIMPLE, p).
Proof.
  unfold detectRedirect.
  destruct (deepMatch g); [discriminate|].
  destruct (searchMatch g); [discriminate|].
  destruct (thinkMatch g); [discriminate|].
  destruct (imageMatch g); [discriminate|].
  destruct (projectMatch g); [discriminate|].
  destruct (canvasMatch g); [discriminate|].
  destruct (studyMatch g); discriminate.
Qed.

Lemma returns_return_message_terminal (input : AgentInput)
    (image : option jsstring) :
  returns (fun ctl => ctl <> Continue) (return_message input image).
Proof.
  apply returns_bind. intros st. apply returns_ret. discriminate.
Qed.

(** Every handler other than SIMPLE is terminal: it returns a result or
    raises, it never asks for another iteration. *)
Lemma only_simple_continues (env : Env) (input : AgentInput)
    (mc dt : jsstring) (a : RouterAction) :
  a <> SIMPLE ->
  returns (fun ctl => ctl <> Continue) (handler env input mc dt a).
Proof.
  intros Ha.
  destruct a; try contradiction; cbn [handler];
    [ unfold handle_SEARCH | unfold handle_DEEP_SEARCH | unfold handle_THINK
    | unfold handle_IMAGE | unfold handle_CANVAS | unfold handle_PROJECT
    | unfold handle_STUDY ];
    repeat first
      [ apply returns_return_message_terminal
      | apply returns_throw
      | apply returns_try_catch; [|intros ?]
      | apply returns_bind; intros ?
      | match goal with
        | |- returns _ (match ?x with _ => _ end) => destruct x
        end ].
Qed.

(** X15: two iterations never both end with [continue]: with the
    ceiling at 2, a turn that starts at the top of the loop always ends
    inside a handler, by a [return] or by an exception, and the [return]
    after the loop is not reached. *)
Lemma no_two_continues (env : Env) (input : AgentInput) (mc dt : jsstring)
    (st : State) :
  all_continue env input mc dt 2 st = None.
Proof.
  cbn [all_continue].
  destruct (iteration env input mc dt st) as [[[r|]|e] st1] eqn:E1;
    try reflexivity.
  destruct (iteration env input mc dt st1) as [[[r|]|e] st2] eqn:E2;
    try reflexivity.
  exfalso.
  rewrite iteration_run in E1, E2.
  destruct (RouterAction_eqb (currentAction st) SIMPLE) eqn:Hs.
  - destruct (currentAction st); try discriminate Hs. cbn [handler] in E1.
    apply simple_continue_is_one_redirect in E1 as (g & Hg).
    assert (Hne : currentAction st1 <> SIMPLE).
    { intros Heq. rewrite Heq in Hg.
      exact (detectRedirect_not_simple _ _ _ Hg). }
    exact (only_simple_continues env input mc dt _ Hne _ _ _ E2 eq_refl).
  - assert (Hne : currentAction st <> SIMPLE).
    { intros Heq. rewrite Heq in Hs. discriminate Hs. }
    exact (only_simple_continues env input mc dt _ Hne _ _ _ E1 eq_refl).
Qed.

(** The marker of an action, on one line and with no [<] before it or
    inside it, gives its payload as that action's prompt (for THINK
    after [think_prompt]). *)
Lemma marker_prompt_payload (a : RouterAction) (opener closer : string)
    (g top pre payload post : jsstring) :
  tag_of a = Some (opener, closer) ->
  g = pre ++ marker opener closer payload ++ post ->
  no_angle pre -> no_angle payload -> one_line payload ->
  marker_prompt g top a
  = Some (match a with
          | THINK => think_prompt (Some payload) top
          | _ => payload
          end).
Proof.
  intros Ht -> Hpre Hpay Hline.
  destruct a; cbn in Ht; try discriminate Ht; injection Ht as <- <-;
    unfold marker_prompt, deepMatch, searchMatch, thinkMatch, imageMatch,
      projectMatch, canvasMatch, studyMatch, marker, re_tag;
    rewrite <- !app_assoc;
    match goal with
    | |- context [re_block dot cs_eq (lit ?o) (lit ?c) false] =>
        let H := fresh "H" in
        pose proof (tag_payload (tl (lit o)) (tl (lit c)) pre payload post
                      Hpre Hpay Hline) as H;
        change (60%N :: tl (lit o)) with (lit o) in H;
        change (60%N :: tl (lit c)) with (lit c) in H;
        rewrite H; reflexivity
    end.
Qed.

(* ================================================================== *)
(** * Display-time extraction *)
(* ================================================================== *)

Lemma trim_start_idem (s : jsstring) : trim_start (trim_start s) = trim_start s.
Proof.
  induction s as [|c s IH]; [reflexivity|]. cbn [trim_start].
  destruct (is_space c) eqn:E; [exact IH|]. cbn [trim_start]. rewrite E.
  reflexivity.
Qed.

(** What [trim_start] leaves is the input without a prefix of spaces. *)
Lemma trim_start_split (s : jsstring) :
  exists w, s = w ++ trim_start s /\ forallb is_space w = true.
Proof.
  induction s as [|c s (w & Hs & Hw)].
  - exists []. split; reflexivity.
  - cbn [trim_start]. destruct (is_space c) eqn:E.
    + exists (c :: w). cbn. rewrite E, Hw. split; [congruence | reflexivity].
    + exists []. split; reflexivity.
Qed.

(** Spaces added at the end do not change where a text starts. *)
Lemma trim_start_app (s w : jsstring) :
  trim_start s <> [] -> trim_start (s ++ w) = trim_start s ++ w.
Proof.
  induction s as [|c s IH]; intros H; [contradiction|].
  cbn [trim_start app] in H |- *. destruct (is_space c); [apply IH, H|].
  reflexivity.
Qed.

Lemma trim_start_spaces (w : jsstring) :
  forallb is_space w = true -> trim_start w = [].
Proof.
  induction w as [|c w IH]; intros H; [reflexivity|].
  cbn in H. apply andb_prop in H as [Hc Hw]. cbn [trim_start]. rewrite Hc.
  exact (IH Hw).
Qed.

Lemma trim_idem (s : jsstring) : trim (trim s) = trim s.
Proof.
  unfold trim.
  set (a := trim_start s).
  set (b := trim_start (rev a)).
  destruct (trim_start_split (rev a)) as (w & Hw & Hsp). fold b in Hw.
  assert (Ha : a = rev b ++ rev w).
  { rewrite <- (rev_involutive a), Hw, rev_app_distr. reflexivity. }
  destruct b as [|x b'] eqn:Eb; [reflexivity|].
  assert (Hb : trim_start (rev (x :: b')) = rev (x :: b')).
  { assert (Hne : rev (x :: b') <> []).
    { intros H0. apply (f_equal (@length N)) in H0.
      rewrite length_rev in H0. discriminate H0. }
    assert (Hid : trim_start a = a) by (subst a; apply trim_start_idem).
    rewrite Ha in Hid.
    destruct (trim_start (rev (x :: b'))) as [|y t] eqn:Et.
    - (* the text would be only spaces, but then [a] would be empty *)
      exfalso.
      destruct (trim_start_split (rev (x :: b'))) as (w' & Hw' & Hsp').
      rewrite Et, app_nil_r in Hw'.
      assert (Hall : forallb is_space (rev (x :: b') ++ rev w) = true).
      { rewrite forallb_app. apply andb_true_intro. split.
        - rewrite Hw'. exact Hsp'.
        - apply forallb_forall. intros c Hc.
          apply (proj1 (forallb_forall is_space w) Hsp).
          apply in_rev. exact Hc. }
      apply trim_start_spaces in Hall. rewrite Hall in Hid.
      symmetry in Hid. apply app_eq_nil in Hid as [Hid _]. exact (Hne Hid).
    - rewrite trim_start_app in Hid by (rewrite Et; discriminate).
      rewrite Et in Hid. apply app_inv_tail in Hid. exact Hid. }
  rewrite Hb, rev_involutive.
  assert (Hx : trim_start (x :: b') = x :: b').
  { rewrite <- Eb. subst b. apply trim_start_idem. }
  rewrite Hx. reflexivity.
Qed.

Lemma exec_none_cons {G} (m : Matcher G) (c : N) (s : jsstring) :
  exec m (c :: s) = None -> m (c :: s) = None /\ exec m s = None.
Proof.
  cbn [exec]. destruct (m (c :: s)) as [[n g]|]; [discriminate|].
  destruct (exec m s) as [[[i n] g]|]; [discriminate|]. auto.
Qed.

(** A replacement with nothing to replace returns its input. *)
Lemma replace_all_no_match {G} (m : Matcher G) (s : jsstring) :
  has_match m s = false -> replace_all m s = s.
Proof.
  unfold has_match, replace_all.
  induction s as [|c s IH]; intros H; [reflexivity|].
  destruct (exec m (c :: s)) as [r|] eqn:E; [discriminate|].
  apply exec_none_cons in E as [Hm He].
  cbn [replace_all_from]. rewrite Hm, IH; [reflexivity|].
  rewrite He. reflexivity.
Qed.

Lemma strip_markers_marker_free (s : jsstring) :
  marker_free s = true -> Display.strip_markers s = s.
Proof.
  unfold marker_free. intros H.
  repeat (apply andb_prop in H as [H ?]).
  repeat match goal with
         | Hn : negb _ = true |- _ => apply negb_true_iff in Hn
         end.
  unfold Display.strip_markers.
  repeat match goal with
         | Hn : has_match ?m s = false |- _ =>
             rewrite (replace_all_no_match m s Hn); clear Hn
         end.
  reflexivity.
Qed.

Lemma clean_of_trimmed (s : jsstring) : trim (clean_of s) = clean_of s.
Proof.
  unfold clean_of, Display.parseMessageContent.
  destruct (negb (truthy s)); cbn [Display.clean]; [reflexivity|].
  apply trim_idem.
Qed.

(** A clean text with no marker residue is left as it is by a second
    extraction. *)
Lemma clean_fixed_when_marker_free (s : jsstring) :
  marker_free (clean_of s) = true ->
  clean_of (clean_of s) = clean_of s.
Proof.
  intros H. unfold clean_of at 1. unfold Display.parseMessageContent.
  destruct (negb (truthy (clean_of s))) eqn:E; cbn [Display.clean].
  - destruct (clean_of s); [reflexivity | discriminate E].
  - rewrite (strip_markers_marker_free _ H). apply clean_of_trimmed.
Qed.


(* ================================================================== *)
(** * Further properties: display-time extraction *)
(* ================================================================== *)

Lemma canonicalize_angle (c : N) : canonicalize c = 60%N -> c = 60%N.
Proof.
  unfold canonicalize.
  destruct ((97 <=? c)%N && (c <=? 122)%N) eqn:E; [|auto].
  apply andb_prop in E as [E1 E2]. apply N.leb_le in E1. lia.
Qed.

Lemma starts_with_ci_angle (pat s : jsstring) (c : N) :
  c <> 60%N -> starts_with ci_eq (60%N :: pat) (c :: s) = false.
Proof.
  intros H. cbn [starts_with]. unfold ci_eq at 1.
  destruct (N.eqb_spec (canonicalize 60) (canonicalize c)) as [E|_];
    [|reflexivity].
  exfalso. apply H, canonicalize_angle. symmetry. exact E.
Qed.

Lemma starts_with_variant (pat : jsstring) :
  forall o rest, variant_of pat o -> starts_with ci_eq pat (o ++ rest) = true.
Proof.
  unfold variant_of.
  induction pat as [|p pat IH]; intros o rest H; [reflexivity|].
  destruct o as [|c o]; [discriminate H|]. cbn in H. injection H as Hc Ho.
  cbn [app starts_with]. unfold ci_eq at 1. rewrite Hc, N.eqb_refl.
  exact (IH o rest Ho).
Qed.

Lemma variant_length (pat o : jsstring) :
  variant_of pat o -> length o = length pat.
Proof.
  unfold variant_of. intros H. apply (f_equal (@length N)) in H.
  rewrite !length_map in H. exact H.
Qed.

(** A variant of a pattern with the only [<] at its head has its only
    [<] at its head. *)
Lemma variant_angle (pat o : jsstring) :
  variant_of (60%N :: pat) o -> no_angle pat ->
  exists o', o = 60%N :: o' /\ no_angle o'.
Proof.
  unfold variant_of, no_angle. intros H Hp.
  destruct o as [|c o]; [discriminate H|]. cbn in H. injection H as Hc Ho.
  exists o. split; [f_equal; apply canonicalize_angle; exact Hc|].
  revert pat Ho Hp. induction o as [|x o IH]; intros pat Ho Hp; [reflexivity|].
  destruct pat as [|p pat]; [discriminate Ho|]. cbn in Ho, Hp |- *.
  injection Ho as Hx Ho. apply andb_prop in Hp as [Hp1 Hp2].
  rewrite (IH pat Ho Hp2), andb_true_r.
  destruct (N.eqb_spec x 60) as [->|_]; [|reflexivity].
  exfalso. symmetry in Hx. apply canonicalize_angle in Hx. subst p.
  discriminate Hp1.
Qed.

(** Every expression of this program starts with [<]. *)
Lemma block_needs_angle (cls : N -> bool) (opener closer : jsstring)
    (or_end : bool) (c : N) (rest : jsstring) :
  c <> 60%N ->
  re_block cls ci_eq (60%N :: opener) closer or_end (c :: rest) = None.
Proof.
  intros H. unfold re_block. rewrite starts_with_ci_angle by exact H.
  reflexivity.
Qed.

Lemma open_needs_angle (opener : jsstring) (c : N) (rest : jsstring) :
  c <> 60%N -> re_open_to_end (60%N :: opener) (c :: rest) = None.
Proof.
  intros H. unfold re_open_to_end. rewrite starts_with_ci_angle by exact H.
  reflexivity.
Qed.

(** The global replacement walks over a text without [<]. *)
Lemma replace_all_skip {G} (m : Matcher G) (rest : jsstring) :
  (forall c r, c <> 60%N -> m (c :: r) = None) ->
  forall pre, no_angle pre ->
    replace_all_from m 0 (pre ++ rest) = pre ++ replace_all_from m 0 rest.
Proof.
  intros Hm. induction pre as [|c pre IH]; intros Ha; [reflexivity|].
  cbn in Ha. apply andb_prop in Ha as [Hc Ha].
  cbn [app replace_all_from]. rewrite Hm, (IH Ha); [reflexivity|].
  intros ->. discriminate Hc.
Qed.

Lemma replace_all_no_angle {G} (m : Matcher G) (s : jsstring) :
  (forall c r, c <> 60%N -> m (c :: r) = None) ->
  no_angle s -> replace_all m s = s.
Proof.
  intros Hm Ha. unfold replace_all.
  rewrite <- (app_nil_r s) at 1. rewrite (replace_all_skip m [] Hm s Ha).
  cbn. apply app_nil_r.
Qed.

Lemma strip_markers_no_angle (s : jsstring) :
  no_angle s -> Display.strip_markers s = s.
Proof.
  intros Ha. unfold Display.strip_markers, Display.re_paired.
  repeat first
    [ rewrite (replace_all_no_angle
                 (re_block any ci_eq (lit _) (lit _) false) s)
    | rewrite (replace_all_no_angle (re_open_to_end (lit _)) s) ];
    try exact Ha; try reflexivity;
    intros c r Hc;
    first [ exact (block_needs_angle any _ _ false c r Hc)
          | exact (open_needs_angle _ c r Hc) ].
Qed.

Lemma exec_no_angle {G} (m : Matcher G) (s : jsstring) :
  (forall c r, c <> 60%N -> m (c :: r) = None) -> m [] = None ->
  no_angle s -> exec m s = None.
Proof.
  intros Hm Hnil Ha.
  rewrite <- (app_nil_r s), (exec_skip m [] s Hm Ha).
  cbn [exec]. rewrite Hnil. reflexivity.
Qed.

Lemma trim_start_head (s : jsstring) (c : N) (r : jsstring) :
  trim_start s = c :: r -> is_space c = false.
Proof.
  induction s as [|x s IH]; [discriminate|]. cbn [trim_start].
  destruct (is_space x) eqn:E; [exact IH|]. intros [= <- _]. exact E.
Qed.

(** X1: the clean text never starts and never ends with white space. *)
Theorem clean_has_no_outer_space (s : jsstring) :
  (forall c rest, clean_of s = c :: rest -> is_space c = false)
  /\ (forall init c, clean_of s = init ++ [c] -> is_space c = false).
Proof.
  assert (Hlast : forall x init c, trim x = init ++ [c] -> is_space c = false).
  { intros x init c H. unfold trim in H.
    apply (f_equal (@rev N)) in H.
    rewrite rev_involutive, rev_app_distr in H. cbn in H.
    exact (trim_start_head _ _ _ H). }
  assert (Hhead : forall x c rest, trim x = c :: rest -> is_space c = false).
  { intros x c rest H. unfold trim in H.
    destruct (trim_start_split (rev (trim_start x))) as (w & Hw & _).
    apply (f_equal (@rev N)) in Hw.
    rewrite rev_involutive, rev_app_distr, H in Hw.
    exact (trim_start_head _ _ _ Hw). }
  unfold clean_of, Display.parseMessageContent.
  destruct (negb (truthy s)); cbn [Display.clean].
  - split; [intros c rest H; discriminate H|].
    intros init c H. destruct init; discriminate H.
  - split; [apply Hhead | apply Hlast].
Qed.

(** X2: a text without [<] carries no marker: nothing is extracted and
    the clean text is the trimmed text. *)
Theorem plain_text_passes_through (s : jsstring) :
  no_angle s ->
  Display.parseMessageContent s
  = {| Display.thinking := None; Display.canvas := None;
       Display.clean := trim s |}.
Proof.
  intros Ha. unfold Display.parseMessageContent.
  destruct s as [|c s]; [reflexivity|]. cbn [truthy negb].
  rewrite (strip_markers_no_angle _ Ha).
  unfold str_match, Display.re_paired_or_end.
  rewrite !exec_no_angle; try exact Ha; try reflexivity;
    intros x r Hx; exact (block_needs_angle any _ _ true x r Hx).
Qed.

Lemma plain_text_witness :
  Display.parseMessageContent (lit "  2 > 1, said the fox. ")
  = {| Display.thinking := None; Display.canvas := None;
       Display.clean := lit "2 > 1, said the fox." |}.
Proof.
  apply (plain_text_passes_through (lit "  2 > 1, said the fox. ")).
  reflexivity.
Defined.

(** Where the closer is absent the lazy star walks on. *)
Lemma lazy_until_absent (eq : N -> N -> bool) (closer rest : jsstring)
    (or_end : bool) :
  forall body,
    absent eq closer body rest = true ->
    lazy_until any eq closer or_end (body ++ rest)
    = match lazy_until any eq closer or_end rest with
      | Some (n, g) => Some ((length body + n)%nat, body ++ g)
      | None => None
      end.
Proof.
  induction body as [|c body IH]; intros H.
  - cbn [app length Nat.add].
    destruct (lazy_until any eq closer or_end rest) as [[n g]|]; reflexivity.
  - cbn [absent] in H. apply andb_prop in H as [H1 H2].
    apply negb_true_iff in H1.
    change ((c :: body) ++ rest) with (c :: (body ++ rest)) in H1 |- *.
    cbn [lazy_until]. rewrite H1. cbn [any]. rewrite (IH H2).
    destruct (lazy_until any eq closer or_end rest) as [[n g]|]; reflexivity.
Qed.

Lemma absent_suffix (eq : N -> N -> bool) (pat rest : jsstring) :
  forall a b, absent eq pat (a ++ b) rest = true -> absent eq pat b rest = true.
Proof.
  induction a as [|c a IH]; intros b H; [exact H|].
  cbn [app absent] in H. apply andb_prop in H as [_ H]. exact (IH b H).
Qed.

(** The match of a global replacement is dropped whole. *)
Lemma replace_all_from_drop {G} (m : Matcher G) (rest : jsstring) :
  forall x, replace_all_from m (length x) (x ++ rest)
            = replace_all_from m 0 rest.
Proof.
  induction x as [|c x IH]; [reflexivity|]. cbn [length app replace_all_from].
  exact IH.
Qed.

Lemma replace_all_here {G} (m : Matcher G) (c : N) (x rest : jsstring) (g : G) :
  m (c :: x ++ rest) = Some (S (length x), g) ->
  replace_all_from m 0 (c :: x ++ rest) = replace_all_from m 0 rest.
Proof.
  intros H. cbn [replace_all_from]. rewrite H. apply replace_all_from_drop.
Qed.

(** A paired block, written in any letter case, under its expression. *)
Lemma paired_block_match (opener closer o c body post : jsstring)
    (or_end : bool) :
  variant_of opener o -> variant_of closer c ->
  absent ci_eq closer body (c ++ post) = true ->
  re_block any ci_eq opener closer or_end (o ++ body ++ c ++ post)
  = Some ((length o + (length body + length c))%nat, body).
Proof.
  intros Ho Hc Hb. unfold re_block.
  rewrite (starts_with_variant opener o _ Ho).
  rewrite <- (variant_length _ _ Ho), drop_app_length.
  rewrite (lazy_until_absent ci_eq closer (c ++ post) or_end body Hb).
  rewrite (lazy_until_here any ci_eq closer or_end (c ++ post)
             (starts_with_variant closer c post Hc)).
  rewrite (variant_length _ _ Hc), app_nil_r. reflexivity.
Qed.

(** X3: a THINK block written in any letter case, in a text that has no
    other [<] outside it, is what the thinking panel gets, and the clean
    text is the text around it. *)
Theorem paired_think_block (pre o body c post : jsstring) :
  variant_of (lit "<THINK>") o -> variant_of (lit "</THINK>") c ->
  no_angle pre -> no_angle post ->
  absent ci_eq (lit "</THINK>") body (c ++ post) = true ->
  Display.thinking (Display.parseMessageContent (pre ++ o ++ body ++ c ++ post))
    = Some (trim body)
  /\ clean_of (pre ++ o ++ body ++ c ++ post) = trim (pre ++ post).
Proof.
  intros Ho Hc Hpre Hpost Hb.
  destruct (variant_angle (lit "THINK>") o Ho eq_refl) as (o' & -> & Ho').
  pose proof (paired_block_match _ _ _ _ _ post true Ho Hc Hb) as Hm1.
  pose proof (paired_block_match _ _ _ _ _ post false Ho Hc Hb) as Hm0.
  unfold clean_of, Display.parseMessageContent.
  assert (Ht : truthy (pre ++ (60%N :: o') ++ body ++ c ++ post) = true)
    by (destruct pre; reflexivity).
  rewrite Ht. cbn [negb Display.thinking Display.clean]. split.
  - unfold str_match, Display.re_paired_or_end.
    rewrite exec_skip;
      [| intros x r Hx; exact (block_needs_angle any _ _ true x r Hx)
       | exact Hpre].
    change ((60%N :: o') ++ body ++ c ++ post)
      with (60%N :: o' ++ body ++ c ++ post) in Hm1 |- *.
    cbn [exec]. rewrite Hm1. reflexivity.
  - f_equal. unfold Display.strip_markers.
    assert (H1 : replace_all (Display.re_paired "<THINK>" "</THINK>")
                   (pre ++ (60%N :: o') ++ body ++ c ++ post) = pre ++ post).
    { unfold replace_all, Display.re_paired.
      rewrite replace_all_skip;
        [| intros x r Hx; exact (block_needs_angle any _ _ false x r Hx)
         | exact Hpre].
      f_equal.
      assert (E : (60%N :: o') ++ body ++ c ++ post
                  = 60%N :: (o' ++ body ++ c) ++ post)
        by (cbn; rewrite <- !app_assoc; reflexivity).
      rewrite E in Hm0 |- *.
      rewrite (replace_all_here _ 60%N (o' ++ body ++ c) post body).
      - apply (replace_all_no_angle _ post);
          [intros x r Hx; exact (block_needs_angle any _ _ false x r Hx)
          | exact Hpost].
      - rewrite Hm0. do 2 f_equal. rewrite !length_app. cbn. lia. }
    rewrite H1.
    assert (Ha : no_angle (pre ++ post)).
    { unfold no_angle in *. rewrite forallb_app, Hpre, Hpost. reflexivity. }
    pose proof (strip_markers_no_angle _ Ha) as Hs.
    unfold Display.strip_markers in Hs.
    rewrite (replace_all_no_angle (Display.re_paired "<THINK>" "</THINK>")
               (pre ++ post)) in Hs;
      [exact Hs
      | intros x r Hx; exact (block_needs_angle any _ _ false x r Hx)
      | exact Ha].
Qed.

Lemma paired_think_witness :
  Display.thinking
    (Display.parseMessageContent
       (lit "Sure. " ++ lit "<think>" ++ lit " if a < b then swap "
        ++ lit "</Think>" ++ lit " Done."))
    = Some (trim (lit " if a < b then swap "))
  /\ clean_of (lit "Sure. " ++ lit "<think>" ++ lit " if a < b then swap "
               ++ lit "</Think>" ++ lit " Done.")
     = trim (lit "Sure. " ++ lit " Done.").
Proof.
  apply paired_think_block; reflexivity.
Defined.

Lemma absent_app (eq : N -> N -> bool) (pat b rest : jsstring) :
  forall a,
    absent eq pat a (b ++ rest) = true -> absent eq pat b rest = true ->
    absent eq pat (a ++ b) rest = true.
Proof.
  induction a as [|c a IH]; intros Ha Hb; [exact Hb|].
  cbn [absent app] in Ha |- *. apply andb_prop in Ha as [H1 H2].
  rewrite <- app_assoc. change ((c :: a) ++ b ++ rest)
    with (c :: a ++ b ++ rest) in H1. rewrite H1. exact (IH H2 Hb).
Qed.

(** Where the closer never comes, a paired expression does not match. *)
Lemma block_none_absent (opener closer s : jsstring) (x : N) :
  absent ci_eq (x :: closer) s [] = true ->
  re_block any ci_eq opener (x :: closer) false s = None.
Proof.
  intros H. unfold re_block.
  destruct (starts_with ci_eq opener s); [|reflexivity].
  assert (Hd : absent ci_eq (x :: closer) (drop (length opener) s) [] = true).
  { apply (absent_suffix ci_eq (x :: closer) [] (take (length opener) s)).
    rewrite take_drop. exact H. }
  rewrite <- (app_nil_r (drop (length opener) s)).
  rewrite (lazy_until_absent ci_eq (x :: closer) [] false _ Hd).
  reflexivity.
Qed.

Lemma replace_all_absent (opener closer : jsstring) (x : N) :
  forall s,
    absent ci_eq (x :: closer) s [] = true ->
    replace_all_from (re_block any ci_eq opener (x :: closer) false) 0 s = s.
Proof.
  induction s as [|c s IH]; intros H; [reflexivity|].
  cbn [replace_all_from]. rewrite (block_none_absent _ _ _ _ H).
  cbn [absent] in H. apply andb_prop in H as [_ H]. rewrite (IH H).
  reflexivity.
Qed.

(** A THINK opener, in any letter case, holds no THINK closer. *)
Lemma think_opener_has_no_closer (o rest : jsstring) :
  variant_of (lit "<THINK>") o ->
  absent ci_eq (lit "</THINK>") o rest = true.
Proof.
  unfold variant_of. intros H.
  do 8 (destruct o as [|? o]; try discriminate H).
  cbn in H. injection H as H0 H1 H2 H3 H4 H5 H6.
  change (lit "</THINK>") with [60; 47; 84; 72; 73; 78; 75; 62]%N.
  cbn [absent app starts_with]. unfold ci_eq.
  rewrite H0, H1, H2, H3, H4, H5, H6. reflexivity.
Qed.

(** X4: while a THINK block is still being streamed (its closer has not
    come), everything after the opener is thinking and the clean text is
    the text before the opener. *)
Theorem unterminated_think_block (pre o body : jsstring) :
  variant_of (lit "<THINK>") o ->
  no_angle pre ->
  absent ci_eq (lit "</THINK>") body [] = true ->
  Display.thinking (Display.parseMessageContent (pre ++ o ++ body))
    = Some (trim body)
  /\ clean_of (pre ++ o ++ body) = trim pre.
Proof.
  intros Ho Hpre Hb.
  pose proof (think_opener_has_no_closer o (body ++ []) Ho) as Hoc.
  pose proof (absent_app _ _ _ _ _ Hoc Hb) as Hob.
  destruct (variant_angle (lit "THINK>") o Ho eq_refl) as (o' & -> & Ho').
  unfold clean_of, Display.parseMessageContent.
  assert (Ht : truthy (pre ++ (60%N :: o') ++ body) = true)
    by (destruct pre; reflexivity).
  rewrite Ht. cbn [negb Display.thinking Display.clean]. split.
  - unfold str_match, Display.re_paired_or_end.
    rewrite exec_skip;
      [| intros x r Hx; exact (block_needs_angle any _ _ true x r Hx)
       | exact Hpre].
    assert (Hm : re_block any ci_eq (lit "<THINK>") (lit "</THINK>") true
                   ((60%N :: o') ++ body)
                 = Some ((length (60%N :: o') + (length body + 0))%nat, body)).
    { unfold re_block. rewrite (starts_with_variant _ _ _ Ho).
      rewrite <- (variant_length _ _ Ho), drop_app_length.
      rewrite <- (app_nil_r body) at 1.
      rewrite (lazy_until_absent ci_eq _ [] true body Hb).
      cbn. rewrite app_nil_r. reflexivity. }
    change ((60%N :: o') ++ body) with (60%N :: o' ++ body) in Hm |- *.
    cbn [exec]. rewrite Hm. reflexivity.
  - f_equal. unfold Display.strip_markers.
    assert (H1 : replace_all (Display.re_paired "<THINK>" "</THINK>")
                   (pre ++ (60%N :: o') ++ body)
                 = pre ++ (60%N :: o') ++ body).
    { unfold replace_all, Display.re_paired.
      rewrite replace_all_skip;
        [| intros x r Hx; exact (block_needs_angle any _ _ false x r Hx)
         | exact Hpre].
      f_equal.
      exact (replace_all_absent (lit "<THINK>") (lit "/THINK>") 60%N _ Hob). }
    rewrite H1.
    assert (H2 : replace_all (re_open_to_end (lit "<THINK>"))
                   (pre ++ (60%N :: o') ++ body) = pre).
    { unfold replace_all.
      rewrite replace_all_skip;
        [| intros x r Hx; exact (open_needs_angle _ x r Hx) | exact Hpre].
      rewrite <- (app_nil_r pre) at 2. f_equal.
      change ((60%N :: o') ++ body) with (60%N :: o' ++ body).
      rewrite <- (app_nil_r (o' ++ body)).
      apply (replace_all_here _ 60%N (o' ++ body) [] tt).
      unfold re_open_to_end.
      change (60%N :: (o' ++ body) ++ []) with (((60%N :: o') ++ body) ++ []).
      rewrite <- app_assoc, (starts_with_variant _ _ _ Ho).
      rewrite app_nil_r. reflexivity. }
    rewrite H2.
    pose proof (strip_markers_no_angle _ Hpre) as Hs.
    unfold Display.strip_markers in Hs.
    rewrite (replace_all_no_angle (Display.re_paired "<THINK>" "</THINK>")
               pre) in Hs;
      [| intros x r Hx; exact (block_needs_angle any _ _ false x r Hx)
       | exact Hpre].
    rewrite (replace_all_no_angle (re_open_to_end (lit "<THINK>")) pre) in Hs;
      [| intros x r Hx; exact (open_needs_angle _ x r Hx) | exact Hpre].
    exact Hs.
Qed.

Lemma unterminated_think_witness :
  Display.thinking
    (Display.parseMessageContent
       (lit "One moment. " ++ lit "<Think>" ++ lit "The user wants <b>bold"))
    = Some (trim (lit "The user wants <b>bold"))
  /\ clean_of (lit "One moment. " ++ lit "<Think>"
               ++ lit "The user wants <b>bold")
     = trim (lit "One moment. ").
Proof.
  apply unterminated_think_block; reflexivity.
Defined.

Lemma exec_some_at {G} (m : Matcher G) :
  forall s i n g, exec m s = Some (i, n, g) -> m (drop i s) = Some (n, g).
Proof.
  induction s as [|c s IH]; intros i n g; cbn [exec].
  - destruct (m []) as [[n' g']|] eqn:E; [|discriminate].
    intros [= <- <- <-]. exact E.
  - destruct (m (c :: s)) as [[n' g']|] eqn:E.
    + intros [= <- <- <-]. exact E.
    + destruct (exec m s) as [[[i' n'] g']|] eqn:Es; [|discriminate].
      intros [= <- <- <-]. cbn [drop]. exact (IH _ _ _ eq_refl).
Qed.

Lemma starts_with_cs_ci (pat : jsstring) :
  forall s, starts_with cs_eq pat s = true -> starts_with ci_eq pat s = true.
Proof.
  induction pat as [|p pat IH]; intros s H; [reflexivity|].
  destruct s as [|c s]; [discriminate H|]. cbn [starts_with] in H |- *.
  apply andb_prop in H as [H1 H2]. rewrite (IH s H2), andb_true_r.
  unfold cs_eq in H1. apply N.eqb_eq in H1. subst c.
  unfold ci_eq. apply N.eqb_refl.
Qed.

(** With the end of the input as an alternative, the lazy star always
    finds where to stop. *)
Lemma lazy_until_or_end_total (eq : N -> N -> bool) (closer : jsstring) :
  forall s, exists n g, lazy_until any eq closer true s = Some (n, g).
Proof.
  induction s as [|c s (n & g & IH)]; cbn [lazy_until].
  - destruct (starts_with eq closer []); eauto.
  - destruct (starts_with eq closer (c :: s)); [eauto|].
    cbn [any]. rewrite IH. eauto.
Qed.

(** X5: whenever the text of a message includes ["<THINK>"], extraction
    gives a thinking text; so the thinking panel is shown exactly when
    there is one, whether or not the message is still being typed. *)
Theorem thinking_panel_condition (isTyping : bool) (text : jsstring) :
  (includes (lit "<THINK>") text = true ->
   Display.thinking (Display.parseMessageContent text) <> None)
  /\ shows_thinking isTyping text
     = match Display.thinking (Display.parseMessageContent text) with
       | Some _ => true
       | None => false
       end.
Proof.
  assert (H : includes (lit "<THINK>") text = true ->
              Display.thinking (Display.parseMessageContent text) <> None).
  { unfold includes. intros Hi.
    destruct (exec (re_lit cs_eq (lit "<THINK>")) text)
      as [[[i n] g]|] eqn:E; [|discriminate Hi].
    apply exec_some_at in E. unfold re_lit in E.
    destruct (starts_with cs_eq (lit "<THINK>") (drop i text)) eqn:Es;
      [|discriminate E].
    apply starts_with_cs_ci in Es.
    unfold Display.parseMessageContent.
    destruct text as [|c text].
    { destruct i; discriminate Es. }
    cbn [truthy negb Display.thinking].
    destruct (lazy_until_or_end_total ci_eq (lit "</THINK>")
                (drop (length (lit "<THINK>")) (drop i (c :: text))))
      as (n' & g' & Hl).
    destruct (exec_complete (Display.re_paired_or_end "<THINK>" "</THINK>")
                (drop i (c :: text))
                ((length (lit "<THINK>") + n')%nat, g'))
      with (pre := take i (c :: text)) as [[[j k] p] Hr].
    { unfold Display.re_paired_or_end, re_block. rewrite Es, Hl. reflexivity. }
    rewrite take_drop in Hr. unfold str_match. rewrite Hr. discriminate. }
  split; [exact H|].
  unfold shows_thinking.
  destruct (Display.thinking (Display.parseMessageContent text)) eqn:Et;
    [reflexivity|].
  destruct (includes (lit "<THINK>") text) eqn:Ei.
  - exfalso. exact (H eq_refl eq_refl).
  - destruct isTyping; reflexivity.
Qed.

Lemma thinking_panel_witness :
  Display.thinking
    (Display.parseMessageContent (lit "Hm. <THINK>about to reason"))
  <> None.
Proof.
  apply (proj1 (thinking_panel_condition true
                  (lit "Hm. <THINK>about to reason"))).
  reflexivity.
Defined.

(* ------------------------------------------------------------------ *)
(** ** The code fence around a canvas *)

Lemma trim_start_fixed (c : N) (r : jsstring) :
  is_space c = false -> trim_start (c :: r) = c :: r.
Proof. intros H. cbn [trim_start]. rewrite H. reflexivity. Qed.

Lemma trim_fixed (x y : N) (mid : jsstring) :
  is_space x = false -> is_space y = false ->
  trim (x :: mid ++ [y]) = x :: mid ++ [y].
Proof.
  intros Hx Hy. unfold trim. rewrite (trim_start_fixed x _ Hx).
  assert (E : rev (x :: mid ++ [y]) = y :: rev (x :: mid)).
  { change (x :: mid ++ [y]) with ((x :: mid) ++ [y]).
    rewrite rev_app_distr. reflexivity. }
  rewrite E, (trim_start_fixed y _ Hy), <- E, rev_involutive. reflexivity.
Qed.

Lemma word_run_app (r : jsstring) :
  forall lang, forallb is_word lang = true ->
    Display.word_run (lang ++ 10%N :: r) = length lang.
Proof.
  induction lang as [|c lang IH]; intros H; [reflexivity|].
  cbn in H. apply andb_prop in H as [Hc Hl].
  cbn [app Display.word_run length]. rewrite Hc, (IH Hl). reflexivity.
Qed.

(** The opening fence, its language tag and the line break go. *)
Lemma fence_open_removed (lang r : jsstring) :
  forallb is_word lang = true ->
  replace_at_start Display.re_fence_open (lit "```" ++ lang ++ 10%N :: r) = r.
Proof.
  intros H. unfold replace_at_start, Display.re_fence_open.
  rewrite (starts_with_app (lit "```") (lang ++ 10%N :: r)). cbv zeta.
  change (drop 3 (lit "```" ++ lang ++ 10%N :: r)) with (lang ++ 10%N :: r).
  rewrite (word_run_app r lang H), drop_app_length.
  cbn beta iota. change (10 =? 10)%N with true. cbn iota.
  replace (lit "```" ++ lang ++ 10%N :: r)
    with ((lit "```" ++ lang ++ [10%N]) ++ r)
    by (rewrite <- !app_assoc; reflexivity).
  replace (3 + length lang + 1)%nat
    with (length (lit "```" ++ lang ++ [10%N]))
    by (rewrite !length_app; cbn; lia).
  apply drop_app_length.
Qed.

(** The closing fence goes, and nothing else. *)
Lemma fence_close_removed (code : jsstring) :
  replace_first Display.re_fence_close (code ++ lit "```") = code.
Proof.
  assert (H : exec Display.re_fence_close (code ++ lit "```")
              = Some (length code, 3%nat, tt)).
  { induction code as [|c code IH]; [reflexivity|].
    cbn [app exec length].
    assert (Hn : Display.re_fence_close (c :: code ++ lit "```") = None).
    { unfold Display.re_fence_close.
      replace (length (c :: code ++ lit "```") =? 3)%nat with false.
      - rewrite andb_false_r. reflexivity.
      - symmetry. apply Nat.eqb_neq. cbn [length]. rewrite length_app. cbn.
        lia. }
    rewrite Hn, IH. reflexivity. }
  unfold replace_first. rewrite H.
  rewrite take_app_length, drop_ge, app_nil_r; [reflexivity|].
  rewrite length_app. cbn. lia.
Qed.

(** X6: a canvas block whose content is wrapped in a code fence (three
    backquotes, a language tag, a line break, the code, three
    backquotes) gives the code alone, trimmed. *)
Theorem canvas_fence_stripped (pre o lang code c post : jsstring) :
  variant_of (lit "<CANVAS>") o -> variant_of (lit "</CANVAS>") c ->
  no_angle pre ->
  forallb is_word lang = true ->
  absent ci_eq (lit "</CANVAS>")
    (lit "```" ++ lang ++ 10%N :: code ++ lit "```") (c ++ post) = true ->
  Display.canvas
    (Display.parseMessageContent
       (pre ++ o ++ (lit "```" ++ lang ++ 10%N :: code ++ lit "```")
        ++ c ++ post))
  = Some (trim code).
Proof.
  intros Ho Hc Hpre Hlang Hb.
  set (payload := lit "```" ++ lang ++ 10%N :: code ++ lit "```") in *.
  pose proof (paired_block_match _ _ _ _ _ post true Ho Hc Hb) as Hm.
  destruct (variant_angle (lit "CANVAS>") o Ho eq_refl) as (o' & -> & Ho').
  unfold Display.parseMessageContent.
  assert (Ht : truthy (pre ++ (60%N :: o') ++ payload ++ c ++ post) = true)
    by (destruct pre; reflexivity).
  rewrite Ht. cbn [negb Display.canvas].
  assert (Hcm : str_match (Display.re_paired_or_end "<CANVAS>" "</CANVAS>")
                  (pre ++ (60%N :: o') ++ payload ++ c ++ post)
                = Some payload).
  { unfold str_match, Display.re_paired_or_end.
    rewrite exec_skip;
      [| intros x r Hx; exact (block_needs_angle any _ _ true x r Hx)
       | exact Hpre].
    change ((60%N :: o') ++ payload ++ c ++ post)
      with (60%N :: o' ++ payload ++ c ++ post) in Hm |- *.
    cbn [exec]. rewrite Hm. reflexivity. }
  rewrite Hcm. cbn [option_map].
  assert (Hp : trim payload = payload).
  { assert (E : payload
                = 96%N :: (96%N :: 96%N :: lang ++ 10%N :: code ++ [96; 96]%N)
                  ++ [96%N]).
    { subst payload. cbn. do 3 f_equal. rewrite <- app_assoc. cbn.
      do 2 f_equal. rewrite <- app_assoc. reflexivity. }
    rewrite E. apply trim_fixed; reflexivity. }
  rewrite Hp.
  assert (Htp : truthy payload = true) by reflexivity.
  rewrite Htp. subst payload.
  rewrite (fence_open_removed lang _ Hlang), fence_close_removed.
  reflexivity.
Qed.

Lemma canvas_fence_witness :
  Display.canvas
    (Display.parseMessageContent
       (lit "Here you go: " ++ lit "<canvas>"
        ++ (lit "```" ++ lit "html" ++ 10%N :: lit "<h1>Hi</h1> " ++ lit "```")
        ++ lit "</canvas>" ++ lit " Enjoy."))
  = Some (trim (lit "<h1>Hi</h1> ")).
Proof.
  apply canvas_fence_stripped; reflexivity.
Defined.

(* ================================================================== *)
(** * Display-time extraction of a text of complete blocks *)
(* ================================================================== *)

Lemma begins_prefix (pat : jsstring) :
  forall u rest, begins pat (u ++ rest) = true -> begins pat u = true.
Proof.
  induction pat as [|p pat IH]; intros [|c u] rest H; try reflexivity.
  cbn in H |- *. apply andb_prop in H as [H1 H2]. rewrite H1.
  exact (IH _ _ H2).
Qed.

Lemma begins_starts (pat : jsstring) :
  forall u rest, u <> [] ->
    starts_with ci_eq pat (u ++ rest) = true -> begins pat u = true.
Proof.
  induction pat as [|p pat IH]; intros [|c u] rest Hu H;
    try reflexivity; try contradiction.
  cbn in H |- *. apply andb_prop in H as [H1 H2]. rewrite H1. cbn.
  destruct u as [|d u]; [destruct pat; reflexivity|].
  apply (IH (d :: u) rest); [discriminate | exact H2].
Qed.

Lemma starts_with_mono (eq : N -> N -> bool) (pat : jsstring) :
  forall u rest,
    starts_with eq pat u = true -> starts_with eq pat (u ++ rest) = true.
Proof.
  induction pat as [|p pat IH]; intros [|c u] rest H;
    try reflexivity; try discriminate H.
  cbn in H |- *. apply andb_prop in H as [H1 H2]. rewrite H1.
  exact (IH _ _ H2).
Qed.

Lemma forallb_impl {A} (f g : A -> bool) (l : list A) :
  (forall x, In x l -> f x = true -> g x = true) ->
  forallb f l = true -> forallb g l = true.
Proof.
  intros H Hf. apply forallb_forall. intros x Hx.
  apply (H x Hx). exact (proj1 (forallb_forall f l) Hf x Hx).
Qed.

Lemma free_of_app (pats : list jsstring) (b : jsstring) :
  forall a, free_of pats a = true -> free_of pats b = true ->
    free_of pats (a ++ b) = true.
Proof.
  induction a as [|c a IH]; intros Ha Hb; [exact Hb|].
  cbn [free_of app] in Ha |- *. apply andb_prop in Ha as [H1 H2].
  apply andb_true_intro. split; [|exact (IH H2 Hb)].
  revert H1. apply forallb_impl. intros pat _ Hn.
  apply negb_true_iff. apply negb_true_iff in Hn.
  destruct (begins pat (c :: a ++ b)) eqn:E; [|reflexivity].
  rewrite (begins_prefix pat (c :: a) b E) in Hn. discriminate Hn.
Qed.

Lemma free_lacks_app (pats : list jsstring) (b : jsstring) :
  forall a, free_of pats a = true -> lacks pats b = true ->
    lacks pats (a ++ b) = true.
Proof.
  induction a as [|c a IH]; intros Ha Hb; [exact Hb|].
  cbn [free_of lacks app] in Ha |- *. apply andb_prop in Ha as [H1 H2].
  apply andb_true_intro. split; [|exact (IH H2 Hb)].
  revert H1. apply forallb_impl. intros pat _ Hn.
  apply negb_true_iff. apply negb_true_iff in Hn.
  destruct (starts_with ci_eq pat (c :: a ++ b)) eqn:E; [|reflexivity].
  rewrite (begins_starts pat (c :: a) b) in Hn;
    [discriminate Hn | discriminate | exact E].
Qed.

Lemma free_of_weaken (pats pats' : list jsstring) :
  (forall p, In p pats' -> In p pats) ->
  forall s, free_of pats s = true -> free_of pats' s = true.
Proof.
  intros Hsub. induction s as [|c s IH]; intros H; [reflexivity|].
  cbn [free_of] in H |- *. apply andb_prop in H as [H1 H2].
  apply andb_true_intro. split; [|exact (IH H2)].
  apply forallb_forall. intros p Hp.
  exact (proj1 (forallb_forall _ pats) H1 p (Hsub p Hp)).
Qed.

Lemma lacks_weaken (pats pats' : list jsstring) :
  (forall p, In p pats' -> In p pats) ->
  forall s, lacks pats s = true -> lacks pats' s = true.
Proof.
  intros Hsub. induction s as [|c s IH]; intros H; [reflexivity|].
  cbn [lacks] in H |- *. apply andb_prop in H as [H1 H2].
  apply andb_true_intro. split; [|exact (IH H2)].
  apply forallb_forall. intros p Hp.
  exact (proj1 (forallb_forall _ pats) H1 p (Hsub p Hp)).
Qed.

Lemma lacks_drop_prefix (pats : list jsstring) (b : jsstring) :
  forall a, lacks pats (a ++ b) = true -> lacks pats b = true.
Proof.
  induction a as [|c a IH]; intros H; [exact H|].
  cbn [lacks app] in H. apply andb_prop in H as [_ H]. exact (IH H).
Qed.

Lemma lacks_drop_suffix (pats : list jsstring) (b : jsstring) :
  forall a, lacks pats (a ++ b) = true -> lacks pats a = true.
Proof.
  induction a as [|c a IH]; intros H; [reflexivity|].
  cbn [lacks app] in H |- *. apply andb_prop in H as [H1 H2].
  apply andb_true_intro. split; [|exact (IH H2)].
  revert H1. apply forallb_impl. intros pat _ Hn.
  apply negb_true_iff. apply negb_true_iff in Hn.
  destruct (starts_with ci_eq pat (c :: a)) eqn:E; [|reflexivity].
  pose proof (starts_with_mono ci_eq pat (c :: a) b E) as E'.
  cbn [app] in E'. congruence.
Qed.

Lemma free_absent (pats : list jsstring) (pat rest : jsstring) :
  In pat pats ->
  forall body, free_of pats body = true -> absent ci_eq pat body rest = true.
Proof.
  intros Hin. induction body as [|c body IH]; intros H; [reflexivity|].
  cbn [free_of] in H. apply andb_prop in H as [H1 H2].
  cbn [absent]. apply andb_true_intro. split; [|exact (IH H2)].
  pose proof (proj1 (forallb_forall _ pats) H1 pat Hin) as Hn.
  apply negb_true_iff. apply negb_true_iff in Hn.
  destruct (starts_with ci_eq pat ((c :: body) ++ rest)) eqn:E; [|reflexivity].
  rewrite (begins_starts pat (c :: body) rest) in Hn;
    [discriminate Hn | discriminate | exact E].
Qed.

(** What [begins] and [free_of] say of a text depends on its letters up
    to their case only. *)
Lemma begins_canon (pat : jsstring) :
  forall s s', map canonicalize s = map canonicalize s' ->
    begins pat s = begins pat s'.
Proof.
  induction pat as [|p pat IH]; intros [|c s] [|c' s'] H;
    try reflexivity; try discriminate H.
  cbn in H. injection H as Hc Hs. cbn. unfold ci_eq. rewrite Hc.
  rewrite (IH s s' Hs). reflexivity.
Qed.

Lemma forallb_eq {A} (f g : A -> bool) (l : list A) :
  (forall x, f x = g x) -> forallb f l = forallb g l.
Proof.
  intros H. induction l as [|x l IH]; [reflexivity|].
  cbn. rewrite H, IH. reflexivity.
Qed.

Lemma free_of_canon (pats : list jsstring) :
  forall s s', map canonicalize s = map canonicalize s' ->
    free_of pats s = free_of pats s'.
Proof.
  induction s as [|c s IH]; intros [|c' s'] H;
    try reflexivity; try discriminate H.
  cbn [free_of].
  rewrite (forallb_eq (fun pat => negb (begins pat (c :: s)))
             (fun pat => negb (begins pat (c' :: s')))).
  - cbn in H. injection H as _ Hs. rewrite (IH s' Hs). reflexivity.
  - intros pat. rewrite (begins_canon pat _ _ H). reflexivity.
Qed.

Lemma opened_by_paired (opener closer : jsstring) (or_end : bool) :
  opened_by opener (re_block any ci_eq opener closer or_end).
Proof. intros s H. unfold re_block. rewrite H. reflexivity. Qed.

Lemma opened_by_open (opener : jsstring) :
  opened_by opener (re_open_to_end opener).
Proof. intros s H. unfold re_open_to_end. rewrite H. reflexivity. Qed.

(** A replacement goes past a text in which its opening tag does not
    begin. *)
Lemma skip_free {G} (m : Matcher G) (pat rest : jsstring) :
  opened_by pat m ->
  forall t, free_of [pat] t = true ->
    replace_all_from m 0 (t ++ rest) = t ++ replace_all_from m 0 rest.
Proof.
  intros Hm. induction t as [|c t IH]; intros H; [reflexivity|].
  cbn [free_of forallb] in H. apply andb_prop in H as [H1 H2].
  rewrite andb_true_r in H1. apply negb_true_iff in H1.
  cbn [app replace_all_from]. rewrite Hm.
  - rewrite (IH H2). reflexivity.
  - destruct (starts_with ci_eq pat (c :: t ++ rest)) eqn:E; [|reflexivity].
    rewrite (begins_starts pat (c :: t) rest) in H1;
      [discriminate H1 | discriminate | exact E].
Qed.

Lemma skip_lacks {G} (m : Matcher G) (pat : jsstring) :
  opened_by pat m ->
  forall s, lacks [pat] s = true -> replace_all_from m 0 s = s.
Proof.
  intros Hm. induction s as [|c s IH]; intros H; [reflexivity|].
  cbn [lacks forallb] in H. apply andb_prop in H as [H1 H2].
  rewrite andb_true_r in H1. apply negb_true_iff in H1.
  cbn [replace_all_from]. rewrite (Hm _ H1), (IH H2). reflexivity.
Qed.

Lemma has_match_lacks {G} (m : Matcher G) (pat : jsstring) :
  opened_by pat m -> pat <> [] ->
  forall s, lacks [pat] s = true -> has_match m s = false.
Proof.
  intros Hm Hp. unfold has_match.
  assert (H0 : m [] = None).
  { apply Hm. destruct pat; [contradiction | reflexivity]. }
  induction s as [|c s IH]; intros H.
  - cbn [exec]. rewrite H0. reflexivity.
  - cbn [lacks forallb] in H. apply andb_prop in H as [H1 H2].
    rewrite andb_true_r in H1. apply negb_true_iff in H1.
    cbn [exec]. rewrite (Hm _ H1).
    specialize (IH H2). destruct (exec m s) as [[[i n] g]|];
      [discriminate IH | reflexivity].
Qed.

(** A match that starts here and is not empty is removed as a whole. *)
Lemma replace_all_match {G} (m : Matcher G) (blk rest : jsstring) (g : G) :
  blk <> [] ->
  m (blk ++ rest) = Some (length blk, g) ->
  replace_all_from m 0 (blk ++ rest) = replace_all_from m 0 rest.
Proof.
  destruct blk as [|c x]; [contradiction|]. intros _ H.
  exact (replace_all_here m c x rest g H).
Qed.

Lemma BlockTag_eqb_eq (a b : BlockTag) : BlockTag_eqb a b = true -> a = b.
Proof. destruct a, b; intros H; try discriminate H; reflexivity. Qed.

Lemma opener_in_openers (X : BlockTag) : In (opener_of X) openers.
Proof. destruct X; cbn; tauto. Qed.

Lemma opener_not_nil (X : BlockTag) : opener_of X <> [].
Proof. destruct X; discriminate. Qed.

(** The tags of a block of another name keep clear of an opening
    tag. *)
Lemma other_tags_free (X Y : BlockTag) :
  BlockTag_eqb Y X = false ->
  free_of [opener_of X] (opener_of Y) = true
  /\ free_of [opener_of X] (closer_of Y) = true.
Proof.
  destruct X, Y; intros H; try discriminate H; split; vm_compute; reflexivity.
Qed.

Lemma other_block_free (X : BlockTag) (b : Block) :
  block_ok b -> BlockTag_eqb (blk_tag b) X = false ->
  free_of [opener_of X] (block_text b) = true.
Proof.
  intros (Ho & Hc & Hp) Hne.
  destruct (other_tags_free X (blk_tag b) Hne) as [H1 H2].
  unfold block_text. apply free_of_app; [|apply free_of_app].
  - rewrite (free_of_canon _ _ _ Ho). exact H1.
  - revert Hp. apply free_of_weaken. intros p [<-|[]].
    right. apply opener_in_openers.
  - rewrite (free_of_canon _ _ _ Hc). exact H2.
Qed.

(** At its own block a paired expression matches the whole block. *)
Lemma own_block_match (b : Block) (rest : jsstring) :
  block_ok b ->
  re_block any ci_eq (opener_of (blk_tag b)) (closer_of (blk_tag b)) false
    (block_text b ++ rest)
  = Some (length (block_text b), blk_payload b).
Proof.
  intros (Ho & Hc & Hp). unfold block_text.
  rewrite <- !app_assoc.
  rewrite (paired_block_match _ _ _ _ _ _ false Ho Hc).
  - rewrite !length_app. reflexivity.
  - apply (free_absent (closer_of (blk_tag b) :: openers));
      [left; reflexivity | exact Hp].
Qed.

Lemma block_text_not_nil (b : Block) : block_ok b -> block_text b <> [].
Proof.
  intros (Ho & _) H. unfold block_text in H.
  apply app_eq_nil in H as [H _]. rewrite H in Ho.
  destruct (blk_tag b); discriminate Ho.
Qed.

(** One paired replacement of the chain removes the blocks of its name
    and nothing else. *)
Lemma pass_paired (X : BlockTag) (keep : Block -> bool)
    (segs : list (jsstring * Block)) (last : jsstring) :
  well_formed segs last ->
  replace_all (Display.re_paired (fst (tag_pair X)) (snd (tag_pair X)))
    (render keep segs last)
  = render (fun b => keep b && negb (BlockTag_eqb (blk_tag b) X)) segs last.
Proof.
  intros [Hs Hl]. unfold replace_all, Display.re_paired.
  fold (opener_of X). fold (closer_of X).
  set (m := re_block any ci_eq (opener_of X) (closer_of X) false).
  assert (Hm : opened_by (opener_of X) m) by apply opened_by_paired.
  assert (Hin : forall p, In p [opener_of X] -> In p openers).
  { intros p [<-|[]]. apply opener_in_openers. }
  induction segs as [|[t b] segs IH].
  - cbn [render]. apply (skip_lacks m _ Hm).
    exact (lacks_weaken _ _ Hin _ Hl).
  - apply Forall_cons_1 in Hs as [[Ht Hb] Hs]. cbn [fst snd] in Ht, Hb.
    cbn [render].
    rewrite (skip_free m _ _ Hm t (free_of_weaken _ _ Hin _ Ht)).
    f_equal. destruct (keep b); cbn [andb app]; [|exact (IH Hs)].
    destruct (BlockTag_eqb (blk_tag b) X) eqn:E; cbn [negb app].
    + apply BlockTag_eqb_eq in E.
      rewrite (replace_all_match m (block_text b) _ (blk_payload b)).
      * exact (IH Hs).
      * exact (block_text_not_nil b Hb).
      * subst m. rewrite <- E. exact (own_block_match b _ Hb).
    + rewrite (skip_free m _ _ Hm _ (other_block_free X b Hb E)).
      f_equal. exact (IH Hs).
Qed.

(** Where no block of a name is left, that name's opening tag matches
    nowhere. *)
Lemma render_lacks (X : BlockTag) (keep : Block -> bool)
    (segs : list (jsstring * Block)) (last : jsstring) :
  well_formed segs last ->
  (forall b, keep b = true -> BlockTag_eqb (blk_tag b) X = false) ->
  lacks [opener_of X] (render keep segs last) = true.
Proof.
  intros [Hs Hl] Hk.
  assert (Hin : forall p, In p [opener_of X] -> In p openers).
  { intros p [<-|[]]. apply opener_in_openers. }
  induction segs as [|[t b] segs IH].
  - exact (lacks_weaken _ _ Hin _ Hl).
  - apply Forall_cons_1 in Hs as [[Ht Hb] Hs]. cbn [fst snd] in Ht, Hb.
    cbn [render].
    apply free_lacks_app; [exact (free_of_weaken _ _ Hin _ Ht)|].
    destruct (keep b) eqn:K; [|exact (IH Hs)].
    apply free_lacks_app; [|exact (IH Hs)].
    exact (other_block_free X b Hb (Hk b K)).
Qed.

(** The open-ended replacements have nothing to remove once the paired
    replacement of the same name has run. *)
Lemma pass_open (X : BlockTag) (keep : Block -> bool)
    (segs : list (jsstring * Block)) (last : jsstring) :
  well_formed segs last ->
  (forall b, keep b = true -> BlockTag_eqb (blk_tag b) X = false) ->
  replace_all (re_open_to_end (opener_of X)) (render keep segs last)
  = render keep segs last.
Proof.
  intros Hwf Hk. apply (skip_lacks _ (opener_of X)).
  - apply opened_by_open.
  - exact (render_lacks X keep segs last Hwf Hk).
Qed.

Lemma render_ext (keep keep' : Block -> bool)
    (segs : list (jsstring * Block)) (last : jsstring) :
  (forall b, keep b = keep' b) ->
  render keep segs last = render keep' segs last.
Proof.
  intros H. induction segs as [|[t b] segs IH]; [reflexivity|].
  cbn [render]. rewrite H, IH. reflexivity.
Qed.

(** The whole chain removes the blocks and leaves the text between
    them. *)
Lemma strip_markers_blocks (segs : list (jsstring * Block)) (last : jsstring) :
  well_formed segs last ->
  Display.strip_markers (with_blocks segs last) = without_blocks segs last.
Proof.
  intros Hwf. unfold Display.strip_markers, with_blocks, without_blocks.
  cbv zeta.
  rewrite (pass_paired TagThink _ _ _ Hwf).
  rewrite (pass_open TagThink _ _ _ Hwf)
    by (intros b; destruct (blk_tag b); cbn; intros H;
        rewrite ?andb_false_r in H; congruence).
  rewrite (pass_paired TagCanvas _ _ _ Hwf).
  rewrite (pass_open TagCanvas _ _ _ Hwf)
    by (intros b; destruct (blk_tag b); cbn; intros H;
        rewrite ?andb_false_r in H; congruence).
  rewrite (pass_paired TagMemory _ _ _ Hwf).
  rewrite (pass_paired TagImage _ _ _ Hwf).
  rewrite (pass_paired TagSearch _ _ _ Hwf).
  rewrite (pass_paired TagProject _ _ _ Hwf).
  rewrite (pass_paired TagStudy _ _ _ Hwf).
  rewrite (pass_paired TagDeep _ _ _ Hwf).
  apply render_ext. intros b. destruct (blk_tag b); reflexivity.
Qed.

Lemma trim_split (s : jsstring) : exists w1 w2, s = w1 ++ trim s ++ w2.
Proof.
  destruct (trim_start_split s) as (w1 & Hs & _).
  destruct (trim_start_split (rev (trim_start s))) as (w & Hr & _).
  exists w1, (rev w). unfold trim.
  rewrite <- rev_app_distr, <- Hr, rev_involutive. exact Hs.
Qed.

Lemma clean_of_unfold (s : jsstring) :
  clean_of s = trim (Display.strip_markers s).
Proof. destruct s; reflexivity. Qed.

(** No expression of the chain matches in a text in which no opening
    tag matches. *)
Lemma marker_free_lacks (s : jsstring) :
  lacks openers s = true -> marker_free s = true.
Proof.
  intros H.
  assert (Hp : forall X or_end,
            has_match (re_block any ci_eq (opener_of X) (closer_of X) or_end) s
            = false).
  { intros X or_end. apply (has_match_lacks _ (opener_of X)).
    - apply opened_by_paired.
    - apply opener_not_nil.
    - revert H. apply lacks_weaken. intros p [<-|[]].
      apply opener_in_openers. }
  assert (Ho : forall X, has_match (re_open_to_end (opener_of X)) s = false).
  { intros X. apply (has_match_lacks _ (opener_of X)).
    - apply opened_by_open.
    - apply opener_not_nil.
    - revert H. apply lacks_weaken. intros p [<-|[]].
      apply opener_in_openers. }
  unfold marker_free, Display.re_paired.
  pose proof (Hp TagThink false) as P1. pose proof (Ho TagThink) as P2.
  pose proof (Hp TagCanvas false) as P3. pose proof (Ho TagCanvas) as P4.
  pose proof (Hp TagMemory false) as P5. pose proof (Hp TagImage false) as P6.
  pose proof (Hp TagSearch false) as P7. pose proof (Hp TagProject false) as P8.
  pose proof (Hp TagStudy false) as P9. pose proof (Hp TagDeep false) as P10.
  unfold opener_of, closer_of in P1, P2, P3, P4, P5, P6, P7, P8, P9, P10.
  cbn [tag_pair fst snd] in P1, P2, P3, P4, P5, P6, P7, P8, P9, P10.
  rewrite P1, P2, P3, P4, P5, P6, P7, P8, P9, P10.
  reflexivity.
Qed.



(* ================================================================== *)
(** * Redirect detection: from the reply to the next iteration *)
(* ================================================================== *)

Lemma read_files_readable (fs : list AttachedFile) :
  Forall readable fs ->
  forall userParts st, exists userParts',
    read_files fs userParts st = (Returned userParts', st).
Proof.
  induction 1 as [|file fs [url Hurl] _ IH]; intros userParts st.
  - exists userParts. reflexivity.
  - cbn [read_files]. unfold bind at 1, await at 1. rewrite Hurl.
    apply IH.
Qed.

(** When the first call succeeds the wrapper returns its stream, after
    one attempt. *)
Lemma retry_first_success (env : Env) (params : GenerateParams) (retries : Z)
    (onRetry : option (jsstring -> M unit)) (st : State) (response : Stream) :
  0 <= retries ->
  generateContentStream env (calls st) params = Returned response ->
  generateContentStreamWithRetry env params retries onRetry st
  = (Returned response,
     add_event (EvAttempt (calls st) params) (set_calls (S (calls st)) st)).
Proof.
  intros Hr Hc. unfold generateContentStreamWithRetry.
  destruct (Z.to_nat (retries + 1)) as [|n] eqn:E; [lia|].
  cbn [retry_loop].
  unfold bind at 1. unfold get at 1. cbn beta iota.
  unfold bind at 1. unfold modify at 1. cbn beta iota.
  unfold bind at 1. unfold emit at 1, modify at 1. cbn beta iota.
  unfold try_catch, await. cbn [calls add_event set_calls].
  rewrite Hc. reflexivity.
Qed.

(** The streaming loop of SIMPLE gathers the texts of all the chunks. *)
Lemma simple_chunks_text (input : AgentInput) (cs : list Chunk) :
  forall generated st, exists st',
    for_each_chunk (simple_chunk input) cs generated st
    = (Returned (generated ++ generated_text cs), st').
Proof.
  induction cs as [|c cs IH]; intros generated st; cbn [for_each_chunk].
  - exists st. cbn. rewrite app_nil_r. reflexivity.
  - unfold bind at 1.
    assert (Hc : exists st1,
               simple_chunk input c generated st
               = (Returned (generated
                            ++ match chunk_text c with
                               | Some t => t
                               | None => []
                               end), st1)).
    { unfold simple_chunk, chunk_text_truthy, bind, append_text, sink, when,
        emit, modify, push_grounding, ret.
      destruct (chunk_text c) as [[|x t]|]; cbn [truthy];
        rewrite ?app_nil_r;
        destruct (has_sink input), (chunk_grounding c);
        eexists; reflexivity. }
    destruct Hc as (st1 & ->).
    destruct (IH (generated ++ match chunk_text c with
                               | Some t => t
                               | None => []
                               end) st1) as (st' & ->).
    exists st'. cbn [generated_text flat_map]. rewrite <- app_assoc.
    reflexivity.
Qed.

(** The SIMPLE handler, when its files can be read and the generation
    service answers its first call with a stream that does not fail:
    it ends with [continue] exactly when redirect detection finds a
    marker in the text of the whole stream, and then the next action
    and prompt are those of detection. *)
Lemma simple_handler_run (env : Env) (input : AgentInput) (mc dt : jsstring)
    (st : State) (response : Stream) :
  Forall readable (files input) ->
  (forall params, generateContentStream env (calls st) params
                  = Returned response) ->
  stream_failure response = None ->
  exists ctl st',
    handle_SIMPLE env input mc dt st = (Returned ctl, st')
    /\ match detectRedirect (generated_text (stream_chunks response))
               (prompt input) with
       | Some (a, p) =>
           ctl = Continue /\ currentAction st' = a /\ currentPrompt st' = p
       | None => exists r, ctl = Return r
       end.
Proof.
  intros Hfiles Hcall Hok. unfold handle_SIMPLE.
  unfold bind at 1. unfold get at 1. cbn beta iota.
  unfold bind at 1.
  destruct (read_files_readable _ Hfiles [TextPart (currentPrompt st)] st)
    as (userParts & ->).
  unfold bind at 1. unfold stream_with_retry.
  rewrite (retry_first_success env _ 3 _ st response) by (lia || apply Hcall).
  unfold bind at 1. unfold for_await. unfold bind at 1.
  match goal with
  | |- context [for_each_chunk (simple_chunk input) ?cs ?g ?s] =>
      destruct (simple_chunks_text input cs g s) as (st1 & ->)
  end.
  rewrite Hok. unfold ret at 1. cbn [app].
  destruct (detectRedirect (generated_text (stream_chunks response))
              (prompt input)) as [[a p]|].
  - unfold bind, modify, ret. do 2 eexists. split; [reflexivity|].
    repeat split.
  - unfold return_message, bind, get, ret. do 2 eexists.
    split; [reflexivity|]. eexists. reflexivity.
Qed.

(** A turn that the router sends to SIMPLE: the loop runs the SIMPLE
    handler with the prompt of the turn and then, when detection finds a
    marker in the reply, one more handler: the one detection names, with
    the prompt detection gives. *)
Lemma simple_turn_dispatches (env : Env) (input : AgentInput)
    (routing : Routing) (mc : jsstring) (response : Stream) :
  route env (prompt input) (user_id input) (length (files input))
    = Returned routing ->
  action routing = SIMPLE ->
  getContext env = Returned mc ->
  Forall readable (files input) ->
  (forall params, generateContentStream env 0 params = Returned response) ->
  stream_failure response = None ->
  dispatches (log (snd (runAutonomousAgent_traced env input)))
  = (SIMPLE, prompt input)
    :: match detectRedirect (generated_text (stream_chunks response))
               (prompt input) with
       | Some redirect => [redirect]
       | None => []
       end.
Proof.
  intros Hroute Hact Hctx Hfiles Hcall Hok.
  set (dt := lit "[CURRENT DATE & TIME]" ++ nl ++ formatTimestamp env ++ nl).
  set (st0 := set_redirect (action routing) (prompt input)
                (parameters_prompt routing) (initial_state input)).
  assert (Hrun : try_block env input (initial_state input)
                 = while_loop env input mc dt MAX_LOOPS st0)
    by exact (try_block_run env input routing mc Hroute Hctx).
  assert (Hfinal : forall r st,
            try_block env input (initial_state input) = (r, st) ->
            dispatches (log (snd (runAutonomousAgent_traced env input)))
            = dispatches (log st)).
  { intros r st H. unfold runAutonomousAgent_traced. rewrite H.
    destruct r; [reflexivity|]. cbn [snd add_event log].
    rewrite dispatches_app. cbn. apply app_nil_r. }
  pose proof (iteration_dispatches_once env input mc dt st0) as Hd0.
  rewrite iteration_run in Hd0.
  unfold MAX_LOOPS in Hrun. rewrite while_loop_step, iteration_run in Hrun.
  assert (Hact0 : currentAction st0 = SIMPLE) by exact Hact.
  rewrite Hact0 in Hrun, Hd0. cbn [handler] in Hrun, Hd0.
  match type of Hrun with
  | context [handle_SIMPLE env input mc dt ?s] =>
      destruct (simple_handler_run env input mc dt s response Hfiles)
        as (ctl & st1 & Hh & Hdet); [exact Hcall | exact Hok |]
  end.
  rewrite Hh in Hrun, Hd0. cbn [snd] in Hd0.
  change (dispatches (log st0)) with (@nil (RouterAction * jsstring)) in Hd0.
  change (currentPrompt st0) with (prompt input) in Hd0.
  cbn [app] in Hd0.
  destruct (detectRedirect (generated_text (stream_chunks response))
              (prompt input)) as [[a p]|].
  - destruct Hdet as (-> & Ha & Hp).
    rewrite while_loop_step in Hrun.
    pose proof (iteration_dispatches_once env input mc dt st1) as Hd1.
    rewrite Hd0, Ha, Hp in Hd1. cbn [app] in Hd1.
    destruct (iteration env input mc dt st1) as [[[r|]|e] st2];
      cbn [snd] in Hd1.
    + rewrite (Hfinal _ _ Hrun). exact Hd1.
    + cbn in Hrun. rewrite (Hfinal _ _ Hrun). exact Hd1.
    + rewrite (Hfinal _ _ Hrun). exact Hd1.
  - destruct Hdet as (r & ->).
    rewrite (Hfinal _ _ Hrun). exact Hd0.
Qed.

Lemma block_cs_needs_angle (cls : N -> bool) (opener closer : jsstring)
    (or_end : bool) (c : N) (rest : jsstring) :
  c <> 60%N ->
  re_block cls cs_eq (60%N :: opener) closer or_end (c :: rest) = None.
Proof.
  intros H. unfold re_block. rewrite (starts_with_angle _ _ _ H). reflexivity.
Qed.

Lemma block_ws_needs_angle (opener closer : jsstring) (c : N)
    (rest : jsstring) :
  c <> 60%N -> re_block_ws (60%N :: opener) closer (c :: rest) = None.
Proof.
  intros H. unfold re_block_ws. rewrite (starts_with_ci_angle _ _ _ H).
  reflexivity.
Qed.

Lemma lit_needs_angle (word : jsstring) (c : N) (rest : jsstring) :
  c <> 60%N -> re_lit cs_eq (60%N :: word) (c :: rest) = None.
Proof.
  intros H. unfold re_lit. rewrite (starts_with_angle _ _ _ H). reflexivity.
Qed.

Lemma no_angle_app (a b : jsstring) :
  no_angle a -> no_angle b -> no_angle (a ++ b).
Proof.
  unfold no_angle. intros Ha Hb. rewrite forallb_app, Ha, Hb. reflexivity.
Qed.

(** An expression that can only start at a [<], and starts neither at
    the opening nor at the closing tag of the one marker of a text,
    matches nowhere in that text. *)
Lemma exec_marker_none {G} (m : Matcher G) (o c pre payload post : jsstring) :
  (forall x r, x <> 60%N -> m (x :: r) = None) ->
  m [] = None ->
  m ((60%N :: o) ++ payload ++ (60%N :: c) ++ post) = None ->
  m ((60%N :: c) ++ post) = None ->
  no_angle pre -> no_angle o -> no_angle payload -> no_angle c ->
  no_angle post ->
  exec m (pre ++ (60%N :: o) ++ payload ++ (60%N :: c) ++ post) = None.
Proof.
  intros P1 P0 Ho Hc Npre No Npay Nc Npost.
  rewrite (exec_skip m _ pre P1 Npre).
  assert (H : exec m ((60%N :: o) ++ payload ++ (60%N :: c) ++ post) = None);
    [|rewrite H; reflexivity].
  cbn [app] in Ho, Hc |- *. cbn [exec]. rewrite Ho.
  replace (o ++ payload ++ 60%N :: c ++ post)
    with ((o ++ payload) ++ 60%N :: c ++ post)
    by (rewrite <- app_assoc; reflexivity).
  rewrite (exec_skip m _ (o ++ payload) P1 (no_angle_app _ _ No Npay)).
  assert (H : exec m (60%N :: c ++ post) = None);
    [|rewrite H; reflexivity].
  cbn [exec]. rewrite Hc.
  rewrite (exec_no_angle m (c ++ post) P1 P0 (no_angle_app _ _ Nc Npost)).
  reflexivity.
Qed.

Lemma starts_with_ci_app (a b : jsstring) :
  forall s, starts_with ci_eq (a ++ b) (a ++ s) = starts_with ci_eq b s.
Proof.
  induction a as [|x a IH]; intros s; [reflexivity|].
  cbn [app starts_with]. unfold ci_eq at 1. rewrite N.eqb_refl. apply IH.
Qed.

(** [<SEARCH>deep\s+(.*?)</SEARCH>] does not match at a SEARCH marker
    whose payload is not the word "deep" and white space. *)
Lemma deep_alt_fails (payload r : jsstring) :
  deep_query payload = false ->
  re_block_ws (lit "<SEARCH>deep") (lit "</SEARCH>")
    (lit "<SEARCH>" ++ payload ++ 60%N :: r) = None.
Proof.
  intros Hq. unfold re_block_ws.
  change (lit "<SEARCH>deep") with (lit "<SEARCH>" ++ lit "deep").
  rewrite starts_with_ci_app.
  destruct (starts_with ci_eq (lit "deep") (payload ++ 60%N :: r)) eqn:E;
    [|reflexivity].
  unfold deep_query in Hq.
  change (lit "deep") with [100; 101; 101; 112]%N in E, Hq.
  destruct payload as [|a [|b [|c [|d p']]]];
    cbn [app starts_with] in E;
    try (change (ci_eq 100 60) with false in E;
         change (ci_eq 101 60) with false in E;
         change (ci_eq 112 60) with false in E;
         rewrite ?andb_false_r in E; discriminate E).
  cbn [starts_with drop] in Hq. change (drop 0 p') with p' in Hq.
  rewrite E in Hq. cbn [andb] in Hq.
  change (drop (length (lit "<SEARCH>" ++ lit "deep"))
            (lit "<SEARCH>" ++ (a :: b :: c :: d :: p') ++ 60%N :: r))
    with (p' ++ 60%N :: r).
  destruct p' as [|x p']; cbn [app ws_plus].
  - reflexivity.
  - rewrite Hq. reflexivity.
Qed.

Lemma marker_str_match_none {G} (m : Matcher G) (opener closer : string)
    (o c pre payload post : jsstring) :
  lit opener = 60%N :: o -> lit closer = 60%N :: c ->
  no_angle o -> no_angle c ->
  (forall x r, x <> 60%N -> m (x :: r) = None) ->
  m [] = None ->
  m (lit opener ++ payload ++ lit closer ++ post) = None ->
  m (lit closer ++ post) = None ->
  no_angle pre -> no_angle payload -> no_angle post ->
  str_match m (pre ++ marker opener closer payload ++ post) = None.
Proof.
  intros Eo Ec No Nc P1 P0 Ho Hc Npre Npay Npost.
  unfold str_match, marker. rewrite <- !app_assoc. rewrite Eo, Ec in *.
  rewrite (exec_marker_none m o c pre payload post); auto.
Qed.

Lemma own_tag_match (opener closer : string) (o c pre payload post : jsstring) :
  lit opener = 60%N :: o -> lit closer = 60%N :: c ->
  no_angle pre -> no_angle payload -> one_line payload ->
  str_match (re_tag opener closer) (pre ++ marker opener closer payload ++ post)
  = Some payload.
Proof.
  intros Eo Ec Npre Npay Hline. unfold re_tag, marker.
  rewrite <- !app_assoc, Eo, Ec. apply tag_payload; assumption.
Qed.

Ltac tag_none o' c' o c :=
  apply (marker_str_match_none (re_tag o' c') o c (tl (lit o)) (tl (lit c)));
  [ reflexivity | reflexivity | reflexivity | reflexivity
  | let x := fresh "x" in let r := fresh "r" in let Hx := fresh "Hx" in
    intros x r Hx;
    exact (block_cs_needs_angle dot (tl (lit o')) (lit c') false x r Hx)
  | reflexivity | reflexivity | reflexivity
  | assumption | assumption | assumption ].

(** In a text whose only [<] are those of one marker, the expression of
    every other marker finds nothing. *)
Lemma marker_only (a : RouterAction) (opener closer : string)
    (pre payload post : jsstring) :
  tag_of a = Some (opener, closer) ->
  no_angle pre -> no_angle payload -> no_angle post ->
  forall b o' c',
    tag_of b = Some (o', c') -> b <> a ->
    str_match (re_tag o' c') (pre ++ marker opener closer payload ++ post)
    = None.
Proof.
  intros Ht Npre Npay Npost b o' c' Hb Hne.
  destruct a; cbn in Ht; try discriminate Ht; injection Ht as <- <-;
    destruct b; cbn in Hb; try discriminate Hb; injection Hb as <- <-;
    try (exfalso; apply Hne; reflexivity);
    match goal with
    | |- str_match (re_tag ?o' ?c') (_ ++ marker ?o ?c _ ++ _) = None =>
        tag_none o' c' o c
    end.
Qed.

Lemma deep_alt_none (a : RouterAction) (opener closer : string)
    (pre payload post : jsstring) :
  tag_of a = Some (opener, closer) ->
  no_angle pre -> no_angle payload -> no_angle post ->
  (a = SEARCH -> deep_query payload = false) ->
  str_match (re_block_ws (lit "<SEARCH>deep") (lit "</SEARCH>"))
    (pre ++ marker opener closer payload ++ post)
  = None.
Proof.
  intros Ht Npre Npay Npost Hq.
  destruct a; cbn in Ht; try discriminate Ht; injection Ht as <- <-;
    match goal with
    | |- str_match ?m (_ ++ marker ?o ?c _ ++ _) = None =>
        apply (marker_str_match_none m o c (tl (lit o)) (tl (lit c)));
        [ reflexivity | reflexivity | reflexivity | reflexivity
        | intros x r Hx;
          exact (block_ws_needs_angle (tl (lit "<SEARCH>deep"))
                   (lit "</SEARCH>") x r Hx)
        | reflexivity
        | first [ reflexivity
                | exact (deep_alt_fails payload
                           (tl (lit "</SEARCH>") ++ post) (Hq eq_refl)) ]
        | reflexivity
        | assumption | assumption | assumption ]
    end.
Qed.

Lemma think_bare_none (a : RouterAction) (opener closer : string)
    (pre payload post : jsstring) :
  tag_of a = Some (opener, closer) -> a <> THINK ->
  no_angle pre -> no_angle payload -> no_angle post ->
  str_match (re_lit cs_eq (lit "<THINK>"))
    (pre ++ marker opener closer payload ++ post)
  = None.
Proof.
  intros Ht Hne Npre Npay Npost.
  destruct a; cbn in Ht; try discriminate Ht; injection Ht as <- <-;
    try (exfalso; apply Hne; reflexivity);
    match goal with
    | |- str_match ?m (_ ++ marker ?o ?c _ ++ _) = None =>
        apply (marker_str_match_none m o c (tl (lit o)) (tl (lit c)));
        [ reflexivity | reflexivity | reflexivity | reflexivity
        | intros x r Hx; exact (lit_needs_angle (tl (lit "<THINK>")) x r Hx)
        | reflexivity | reflexivity | reflexivity
        | assumption | assumption | assumption ]
    end.
Qed.

(** A reply whose only marker is one marker of [a], on one line: the
    loop is sent to [a] with the payload as its prompt. *)
Lemma single_marker_redirect (a : RouterAction) (opener closer : string)
    (pre payload post top : jsstring) :
  tag_of a = Some (opener, closer) ->
  no_angle pre -> no_angle payload -> no_angle post -> one_line payload ->
  (a = SEARCH -> deep_query payload = false) ->
  detectRedirect (pre ++ marker opener closer payload ++ post) top
  = Some (a, payload_prompt a payload top).
Proof.
  intros Ht Npre Npay Npost Hline Hq.
  pose proof (marker_only a opener closer pre payload post Ht Npre Npay Npost)
    as Hothers.
  pose proof (deep_alt_none a opener closer pre payload post Ht Npre Npay
                Npost Hq) as Halt.
  pose proof (fun H => think_bare_none a opener closer pre payload post Ht H
                         Npre Npay Npost) as Hbare.
  pose proof (Hothers DEEP_SEARCH _ _ eq_refl) as H1.
  pose proof (Hothers SEARCH _ _ eq_refl) as H2.
  pose proof (Hothers THINK _ _ eq_refl) as H3.
  pose proof (Hothers IMAGE _ _ eq_refl) as H4.
  pose proof (Hothers PROJECT _ _ eq_refl) as H5.
  pose proof (Hothers CANVAS _ _ eq_refl) as H6.
  clear Hothers.
  unfold detectRedirect, deepMatch, searchMatch, thinkMatch, imageMatch,
    projectMatch, canvasMatch, studyMatch.
  destruct a; cbn in Ht; try discriminate Ht; injection Ht as <- <-;
    rewrite ?H1, ?H2, ?H3, ?H4, ?H5, ?H6, ?Halt, ?Hbare by discriminate;
    match goal with
    | |- context [marker ?o ?c _] =>
        rewrite (own_tag_match o c (tl (lit o)) (tl (lit c)) pre payload post
                   eq_refl eq_refl Npre Npay Hline)
    end;
    cbn [orelse option_map payload_prompt think_prompt];
    try reflexivity.
  destruct payload; reflexivity.
Qed.

(** A one-line DEEP marker with no [<] before it or in it wins with its
    payload, whatever follows it. *)
Lemma deep_marker_exact (pre payload post top : jsstring) :
  no_angle pre -> no_angle payload -> one_line payload ->
  detectRedirect (pre ++ marker "<DEEP>" "</DEEP>" payload ++ post) top
  = Some (DEEP_SEARCH, payload).
Proof.
  intros Npre Npay Hline. unfold detectRedirect, deepMatch.
  rewrite (own_tag_match "<DEEP>" "</DEEP>" (tl (lit "<DEEP>"))
             (tl (lit "</DEEP>")) pre payload post eq_refl eq_refl
             Npre Npay Hline).
  reflexivity.
Qed.

(** The first match wins: when the reply holds a one-line marker of an
    action, a redirect is taken, and to no action that comes after it
    in the order. *)
Lemma marker_redirects (g top : jsstring) (b : RouterAction) :
  has_marker b g ->
  exists a p, detectRedirect g top = Some (a, p) /\ (rank a <= rank b)%nat.
Proof.
  intros (o & c & pre & payload & post & Ht & -> & Hl).
  destruct (tag_found o c pre payload post Hl) as [q Hq].
  unfold detectRedirect.
  destruct b; cbn in Ht; try discriminate Ht; injection Ht as <- <-;
    repeat lazymatch goal with
    | |- exists a p, Some (?x, ?y) = Some (a, p) /\ _ =>
        exists x, y; split; [reflexivity | cbn; lia]
    | |- exists a p, match ?m with Some _ => _ | None => _ end = _ /\ _ =>
        let E := fresh "E" in
        destruct m eqn:E;
        try (exfalso;
             unfold deepMatch, searchMatch, thinkMatch, imageMatch,
               projectMatch, canvasMatch, studyMatch in E;
             rewrite Hq in E; discriminate E)
    end.
Qed.




(* ================================================================== *)
(** * Properties of the message list of the chat hook *)
(* ================================================================== *)

Lemma filter_none {A} (p : A -> bool) (l : list A) :
  (forall x, In x l -> p x = false) -> List.filter p l = [].
Proof.
  induction l as [|x l IH]; intros H; [reflexivity|].
  cbn. rewrite (H x) by (left; reflexivity).
  apply IH. intros y Hy. apply H. right. exact Hy.
Qed.

Lemma filter_all {A} (p : A -> bool) (l : list A) :
  (forall x, In x l -> p x = true) -> List.filter p l = l.
Proof.
  induction l as [|x l IH]; intros H; [reflexivity|].
  cbn. rewrite (H x) by (left; reflexivity).
  f_equal. apply IH. intros y Hy. apply H. right. exact Hy.
Qed.

Lemma same_text_and_sender_refl (m : UseChat.Message) :
  UseChat.same_text_and_sender m m = true.
Proof.
  unfold UseChat.same_text_and_sender.
  rewrite !bool_decide_eq_true_2 by reflexivity. reflexivity.
Qed.

(** The two branches of the merge give the same shape. *)
Lemma merge_fetched_shape (history prev : list UseChat.Message) :
  UseChat.merge_fetched history prev =
  history ++
  List.filter
    (fun opt =>
       negb (existsb (fun dbMsg => UseChat.same_text_and_sender dbMsg opt)
               history))
    (List.filter UseChat.is_temp prev).
Proof.
  unfold UseChat.merge_fetched.
  destruct (List.filter UseChat.is_temp prev); cbv zeta.
  - cbn. rewrite app_nil_r. reflexivity.
  - reflexivity.
Qed.


(** X8: fetching the same history a second time changes nothing, whatever
    the list held before the first fetch. *)
Theorem merge_fetched_idempotent (history prev : list UseChat.Message) :
  UseChat.merge_fetched history (UseChat.merge_fetched history prev) =
  UseChat.merge_fetched history prev.
Proof.
  rewrite !merge_fetched_shape.
  set (twin := fun opt => negb (existsb _ history)).
  f_equal. rewrite !List.filter_app.
  rewrite (filter_none twin (List.filter UseChat.is_temp history)).
  - cbn [app]. rewrite (filter_all UseChat.is_temp).
    + apply filter_all. intros x Hx. apply filter_In in Hx. tauto.
    + intros x Hx. apply filter_In in Hx. destruct Hx as [Hx _].
      apply filter_In in Hx. tauto.
  - intros x Hx. apply filter_In in Hx. destruct Hx as [Hx _].
    unfold twin. apply negb_false_iff, existsb_exists.
    exists x. split; [exact Hx | apply same_text_and_sender_refl].
Qed.

Lemma has_id_exists (x : jsstring) (l : list UseChat.Message) :
  existsb (UseChat.has_id x) l = true <-> In x (map UseChat.id l).
Proof.
  rewrite existsb_exists, in_map_iff. unfold UseChat.has_id.
  split; intros (m & H1 & H2); exists m.
  - apply bool_decide_eq_true_1 in H2. tauto.
  - split; [tauto | apply bool_decide_eq_true_2; tauto].
Qed.

Lemma has_id_absent (x : jsstring) (l : list UseChat.Message) :
  existsb (UseChat.has_id x) l = false <->
  forall m, In m l -> UseChat.has_id x m = false.
Proof.
  split.
  - intros H m Hm. destruct (UseChat.has_id x m) eqn:E; [|reflexivity].
    assert (existsb (UseChat.has_id x) l = true) as Hc
      by (apply existsb_exists; eauto).
    congruence.
  - intros H. destruct (existsb _ l) eqn:E; [|reflexivity].
    apply existsb_exists in E. destruct E as (m & Hm & Hp).
    rewrite (H m Hm) in Hp. discriminate.
Qed.

Lemma NoDup_map_filter {A B} (f : A -> B) (p : A -> bool) (l : list A) :
  List.NoDup (map f l) -> List.NoDup (map f (List.filter p l)).
Proof.
  induction l as [|x l IH]; cbn; intros H; [exact H|].
  apply List.NoDup_cons_iff in H. destruct H as [Hx Hl].
  destruct (p x); [|auto].
  cbn. apply List.NoDup_cons_iff. split; [|auto].
  intros Hin. apply Hx. apply in_map_iff in Hin.
  destruct Hin as (y & Hy & Hin). apply filter_In in Hin.
  apply in_map_iff. exists y. tauto.
Qed.

(** X9: once an inserted row has been merged, its id is in the list, and
    delivering the same row again leaves the list as it is. *)
Theorem on_insert_idempotent (newMsg : UseChat.Message)
    (prev : list UseChat.Message) :
  In (UseChat.id newMsg) (map UseChat.id (UseChat.on_insert newMsg prev)) /\
  UseChat.on_insert newMsg (UseChat.on_insert newMsg prev) =
  UseChat.on_insert newMsg prev.
Proof.
  assert (H : existsb (UseChat.has_id (UseChat.id newMsg))
                (UseChat.on_insert newMsg prev) = true).
  { unfold UseChat.on_insert.
    destruct (existsb _ prev) eqn:E; [exact E|].
    cbv zeta. rewrite existsb_app. cbn. unfold UseChat.has_id at 2.
    rewrite bool_decide_eq_true_2 by reflexivity.
    rewrite orb_true_r. reflexivity. }
  split; [apply has_id_exists, H|].
  unfold UseChat.on_insert at 1. rewrite H. reflexivity.
Qed.

(** X10: merging an inserted row never makes two messages share an id:
    ids that were pairwise distinct stay so. *)
Theorem on_insert_keeps_ids_distinct (newMsg : UseChat.Message)
    (prev : list UseChat.Message) :
  List.NoDup (map UseChat.id prev) ->
  List.NoDup (map UseChat.id (UseChat.on_insert newMsg prev)).
Proof.
  intros Hnd. unfold UseChat.on_insert.
  destruct (existsb _ prev) eqn:E; [exact Hnd|].
  cbv zeta. rewrite map_app. apply List.NoDup_app.
  - apply NoDup_map_filter, Hnd.
  - cbn. apply List.NoDup_cons; [intros []|apply List.NoDup_nil].
  - intros x Hx [<-|[]].
    apply in_map_iff in Hx. destruct Hx as (m & Hid & Hm).
    apply filter_In in Hm. destruct Hm as [Hm _].
    assert (existsb (UseChat.has_id (UseChat.id newMsg)) prev = true) as Hc.
    { apply has_id_exists, in_map_iff. eauto. }
    congruence.
Qed.

Lemma on_insert_distinct_witness :
  List.NoDup
    (map UseChat.id
       (UseChat.on_insert (chat_message "m2" "ai" "hello")
          [chat_message "m1" "user" "hi";
           chat_message "temp-ai-7" "ai" "hello"])).
Proof.
  apply on_insert_keeps_ids_distinct.
  vm_compute. repeat constructor; cbn; intuition discriminate.
Defined.

Lemma map_unless {A} (p : A -> bool) (f : A -> A) (l : list A) :
  (forall x, In x l -> p x = false) ->
  map (fun m => if p m then f m else m) l = l.
Proof.
  induction l as [|x l IH]; intros H; [reflexivity|].
  cbn. rewrite (H x) by (left; reflexivity).
  f_equal. apply IH. intros y Hy. apply H. right. exact Hy.
Qed.

Lemma findIndex_app {A} (p : A -> bool) (l k : list A) :
  (forall x, In x l -> p x = false) ->
  UseChat.findIndex p (l ++ k) =
  option_map (Nat.add (length l)) (UseChat.findIndex p k).
Proof.
  induction l as [|x l IH]; intros H; cbn.
  - destruct (UseChat.findIndex p k); reflexivity.
  - rewrite (H x) by (left; reflexivity).
    rewrite IH by (intros y Hy; apply H; right; exact Hy).
    destruct (UseChat.findIndex p k); reflexivity.
Qed.

Lemma has_id_true (x : jsstring) (m : UseChat.Message) :
  UseChat.id m = x -> UseChat.has_id x m = true.
Proof. intros H. apply bool_decide_eq_true_2, H. Qed.

Lemma has_id_false (x : jsstring) (m : UseChat.Message) :
  UseChat.id m <> x -> UseChat.has_id x m = false.
Proof. intros H. apply bool_decide_eq_false_2, H. Qed.

Lemma temp_ids_differ (now now' : Z) :
  UseChat.tempId_of now <> UseChat.tempUserMsgId_of now'.
Proof.
  unfold UseChat.tempId_of, UseChat.tempUserMsgId_of. intros H.
  apply (f_equal (take 6)) in H. vm_compute in H. discriminate H.
Qed.

Lemma tempId_is_temp (now : Z) (m : UseChat.Message) :
  UseChat.id m = UseChat.tempId_of now -> UseChat.is_temp m = true.
Proof. unfold UseChat.is_temp. intros ->. reflexivity. Qed.

Lemma tempUserMsgId_is_temp (now : Z) (m : UseChat.Message) :
  UseChat.id m = UseChat.tempUserMsgId_of now -> UseChat.is_temp m = true.
Proof. unfold UseChat.is_temp. intros ->. reflexivity. Qed.

Lemma last_nonempty {A} (x : A) (l : list A) (d d' : A) :
  List.last (x :: l) d = List.last (x :: l) d'.
Proof.
  revert x. induction l as [|y l IH]; intros x; [reflexivity|].
  change (List.last (y :: l) d = List.last (y :: l) d'). apply IH.
Qed.

(** The streamed chunks only touch the temporary AI message. *)
Lemma stream_updates_temp (tempId : jsstring) (texts : list jsstring)
    (l : list UseChat.Message) (ai : UseChat.Message) :
  (forall m, In m l -> UseChat.id m <> tempId) ->
  UseChat.id ai = tempId ->
  exists ai',
    UseChat.id ai' = tempId /\ UseChat.sender ai' = UseChat.sender ai /\
    UseChat.text ai' = List.last texts (UseChat.text ai) /\
    stream_updates tempId texts (l ++ [ai]) = l ++ [ai'].
Proof.
  intros Hl. revert ai. induction texts as [|t texts IH]; intros ai Hai.
  - exists ai. repeat split; assumption.
  - unfold stream_updates. cbn [fold_left].
    unfold UseChat.stream_update at 2. rewrite map_app.
    rewrite map_unless
      by (intros x Hx; apply has_id_false, Hl, Hx).
    cbn [map]. rewrite (has_id_true _ _ Hai).
    destruct (IH (UseChat.set_imageStatus None (UseChat.set_text t ai)) Hai)
      as (ai' & H1 & H2 & H3 & H4).
    exists ai'. split; [exact H1|]. split; [exact H2|]. split; [|exact H4].
    rewrite H3. cbn. destruct texts; [reflexivity|].
    apply last_nonempty.
Qed.



Lemma NoDup_app_shared {A} (a : A) (k : list A) :
  forall l, List.NoDup (l ++ k) -> In a l -> In a k -> False.
Proof.
  induction l as [|x l IH]; intros Hnd Hl Hk; [destruct Hl|].
  cbn [app] in Hnd. apply List.NoDup_cons_iff in Hnd as [Hx Hnd].
  destruct Hl as [->|Hl].
  - apply Hx. apply in_or_app. right. exact Hk.
  - exact (IH Hnd Hl Hk).
Qed.

Lemma shared_id (P X Y : list UseChat.Message) (s : UseChat.Message) :
  In s X -> In s Y -> ~ List.NoDup (map UseChat.id (P ++ X ++ Y)).
Proof.
  intros HX HY Hnd. rewrite !map_app in Hnd.
  apply List.NoDup_app_remove_l in Hnd.
  apply (NoDup_app_shared (UseChat.id s) _ _ Hnd); apply in_map; assumption.
Qed.

Lemma findIndex_before_last {A} (p : A -> bool) (x : A) :
  p x = false ->
  forall l i, UseChat.findIndex p (l ++ [x]) = Some i -> (i < length l)%nat.
Proof.
  intros Hx. induction l as [|y l IH]; intros i H; cbn in H.
  - rewrite Hx in H. discriminate H.
  - destruct (p y).
    + injection H as <-. cbn. lia.
    + destruct (UseChat.findIndex p (l ++ [x])) as [j|] eqn:E;
        [|discriminate H].
      injection H as <-. specialize (IH j eq_refl). cbn. lia.
Qed.

(** X12: when the realtime INSERT of a saved AI message is merged before
    the final updater of a send runs, the list ends up with two messages
    of that id: the final updater puts the saved messages in without
    looking for their ids. *)
Theorem insert_before_replace_duplicates (prev savedAi : list UseChat.Message)
    (s : UseChat.Message) (tempId : jsstring) :
  In s savedAi ->
  existsb (UseChat.has_id (UseChat.id s)) prev = false ->
  UseChat.id s <> tempId ->
  ~ List.NoDup
      (map UseChat.id
         (UseChat.replace_temp tempId savedAi None (UseChat.on_insert s prev))).
Proof.
  intros Hin Hnew Hid. unfold UseChat.on_insert. rewrite Hnew. cbv zeta.
  set (F := List.filter _ prev).
  unfold UseChat.replace_temp.
  destruct (UseChat.findIndex (UseChat.has_id tempId) (F ++ [s]))
    as [i|] eqn:E.
  - apply (shared_id _ _ _ s Hin).
    pose proof (findIndex_before_last _ s (has_id_false _ _ Hid) F i E) as Hi.
    rewrite drop_app_le by lia. apply in_or_app. right. left. reflexivity.
  - change ((F ++ [s]) ++ savedAi) with ([] ++ (F ++ [s]) ++ savedAi).
    apply (shared_id _ _ _ s); [|exact Hin].
    apply in_or_app. right. left. reflexivity.
Qed.

Lemma insert_before_replace_witness :
  ~ List.NoDup
      (map UseChat.id
         (UseChat.replace_temp (UseChat.tempId_of 7)
            [chat_message "m3" "ai" "hello"] None
            (UseChat.on_insert (chat_message "m3" "ai" "hello")
               [chat_message "m2" "user" "hi";
                chat_message "temp-ai-7" "ai" "hello"]))).
Proof.
  apply insert_before_replace_duplicates.
  - left. reflexivity.
  - reflexivity.
  - vm_compute. discriminate.
Defined.

Lemma retry_other_error_witness :
  generateContentStreamWithRetry failing_env (plain_params (ContentsText []))
    3 None (initial_state sample_input)
  = (Raised server_error,
     add_event (EvAttempt 0 (plain_params (ContentsText [])))
       (set_calls 1 (initial_state sample_input))).
Proof.
  apply (retry_other_error failing_env (plain_params (ContentsText [])) 3 None
           (initial_state sample_input) server_error).
  - lia.
  - reflexivity.
  - reflexivity.
Defined.

